(** * WaveNet neural vocoder: a shallow embedding of [models/wavenet.py]

    The development follows the Python class [WaveNet] method by method.
    Tensors are nested lists of real numbers (the floating point values are
    idealised as reals), Python exceptions are an explicit result type, and
    the mutable object state ([self], the layer buffers, the random source
    and the trace of calls made to collaborators) is threaded through a
    small state-and-exception monad. *)

From Stdlib Require Import List String ZArith Lia Reals Lra Bool Arith.
From stdpp Require Import gmap strings.
Import ListNotations.

Open Scope string_scope.
Open Scope list_scope.
Open Scope nat_scope.

(** * Python values *)

(** The exceptions the module can raise. *)
Inductive exn : Type :=
| RuntimeError (msg : string)
| AssertionError
| IndexError
| ZeroDivisionError.

Inductive result (A : Type) : Type :=
| Ok (a : A)
| Raise (e : exn).
Arguments Ok {A} a.
Arguments Raise {A} e.

(** * Tensors

    A [Frame] is the slice of an activation tensor at one timestep:
    [batch] rows of [channels] values (the singleton time axis that
    [unsqueeze(1)] adds is not represented).  A time sequence is a list of
    frames, oldest first; this is the layout [B x T x C] of the source read
    along its time axis. *)
Definition Frame : Type := list (list R).

(** A [B x C x T] tensor, as the conditioning features are. *)
Definition Tensor3 : Type := list (list (list R)).

(** [torch.zeros(batch_size, 1, channels)] *)
Definition torch_zeros (batch_size channels : nat) : Frame :=
  repeat (repeat 0%R channels) batch_size.

(** [torch.zeros_like] *)
Definition zeros_like (x : Frame) : Frame :=
  map (map (fun _ => 0%R)) x.

(** Elementwise sum of two frames. *)
Fixpoint zip_with {A B C} (f : A -> B -> C) (xs : list A) (ys : list B) : list C :=
  match xs, ys with
  | x :: xs', y :: ys' => f x y :: zip_with f xs' ys'
  | _, _ => []
  end.

Definition fadd (x y : Frame) : Frame := zip_with (zip_with Rplus) x y.

(** Product of a frame with a Python float. *)
Definition fscale (s : R) (x : Frame) : Frame := map (map (Rmult s)) x.

Definition numel (x : Frame) : nat := length (concat x).

(** [x.size(-1)] of a [B x C x T] tensor. *)
Definition size_last (s : Tensor3) : nat :=
  match s with
  | (row :: _) :: _ => length row
  | _ => 0
  end.

(** [x.shape[0]] *)
Definition shape0 (s : Tensor3) : nat := length s.

(** [x.transpose(1, 2).contiguous()] on a [B x C x T] tensor, read along
    the time axis: entry [t] of the result is [x[:, :, t]], a [B x C] frame. *)
Definition transpose_1_2 (s : Tensor3) : list Frame :=
  map (fun t => map (fun m => map (fun row => nth t row 0%R) m) s)
      (seq 0 (size_last s)).

(** [spectrograms[:, t, :].unsqueeze(1)] on the transposed tensor; an index
    past the time axis raises [IndexError]. *)
Definition select_time (frames : list Frame) (t : nat) : result Frame :=
  match nth_error frames t with
  | Some c => Ok c
  | None => Raise IndexError
  end.

(** [x.view(B, -1)]: the values of [x] in row-major order, cut into [B]
    rows.  (torch refuses a tensor whose size is no multiple of [B]; the
    layers of a network never produce one.) *)
Fixpoint chunks {A} (w n : nat) (l : list A) : list (list A) :=
  match n with
  | O => []
  | S n' => firstn w l :: chunks w n' (skipn w l)
  end.

Definition view (B : nat) (x : Frame) : Frame :=
  chunks (numel x / B) B (concat x).

(** [F.one_hot] of one label, as floats. *)
Definition one_hot_row (num_classes : nat) (label : nat) : list R :=
  map (fun i => if Nat.eqb i label then 1%R else 0%R) (seq 0 num_classes).

(** Truncation toward zero, as [.long()] and [.to(torch.int64)] do. *)
Definition trunc (x : R) : Z :=
  if Rle_dec 0 x then Int_part x else (- Int_part (- x))%Z.

Definition sign (x : R) : R :=
  if Rlt_dec 0 x then 1%R else if Rlt_dec x 0 then (-1)%R else 0%R.

(** ** torchaudio's mu-law companding

    [torchaudio.transforms.MuLawEncoding(quantization_channels)] and
    [MuLawDecoding(quantization_channels)], by their documented formulas. *)
Definition mu_law_encoding (quantization_channels : Z) (x : R) : Z :=
  let mu := (IZR quantization_channels - 1)%R in
  let x_mu := (sign x * ln (1 + mu * Rabs x) / ln (1 + mu))%R in
  trunc ((x_mu + 1) / 2 * mu + / 2)%R.

Definition mu_law_decoding (quantization_channels : Z) (x_mu : Z) : R :=
  let mu := (IZR quantization_channels - 1)%R in
  let x := (IZR x_mu / mu * 2 - 1)%R in
  (sign x * (exp (Rabs x * ln (1 + mu)) - 1) / mu)%R.

(** ** The label transforms of the class *)

(** [label_2_float(self, x, n_classes)] *)
Definition label_2_float (x : R) (n_classes : Z) : R :=
  (2 * x / (IZR n_classes - 1) - 1)%R.

(** [float_2_label(self, x, n_classes)] *)
Definition float_2_label (x : R) (n_classes : Z) : R :=
  ((x + 1) * (IZR n_classes - 1) / 2)%R.

(** * The network [wavenet.WaveNet]

    The class under study drives a network through the attributes
    [first_conv], [conv_layers], [last_conv_layers], [upsample_net] and the
    method [clear_buffer].  The learned weights appear as functions on the
    receptive window of a layer. *)

(** The span of cached inputs of a layer: [(kernel_size - 1) * dilation]. *)
Definition extent (kernel_size dilation : nat) : nat :=
  (kernel_size - 1) * dilation.

(** The [kernel_size] inputs a dilated convolution reads from a window of
    [extent + 1] consecutive inputs, oldest first. *)
Definition taps (kernel_size dilation : nat) (window : list Frame) : list Frame :=
  map (fun j => nth (j * dilation) window []) (seq 0 kernel_size).

(** The cached inputs of a layer.  A cleared buffer ([None]) is allocated
    on first use, filled with silence in place of the left padding. *)
Definition history (buffer : option (list Frame)) (kernel_size dilation : nat)
    (x : Frame) : list Frame :=
  match buffer with
  | Some b => b
  | None => repeat (zeros_like x) (extent kernel_size dilation)
  end.

(** Append the new input and evict the oldest. *)
Definition push (h : list Frame) (x : Frame) : list Frame := tl (h ++ [x]).

(** The windows a causal convolution reads in parallel mode: the sequence is
    padded on the left with [extent] frames of zeros, window [t] ends at
    input [t]. *)
Definition causal_windows (kernel_size dilation : nat) (xs : list Frame)
    : list (list Frame) :=
  let padded := repeat (zeros_like (hd [] xs)) (extent kernel_size dilation) ++ xs in
  map (fun t => firstn (S (extent kernel_size dilation)) (skipn t padded))
      (seq 0 (length xs)).

(** Modelled from the spec: the dilated causal convolution layer of the
    network package, which is not part of this source file.  Section 4.2:
    parallel mode pads on the left with [dilation * (kernel_size - 1)]
    zeros; incremental mode advances one timestep from a cache of the last
    [(kernel_size - 1) * dilation] inputs, appending the new input and
    evicting the oldest. *)
Record Conv1d : Type := {
  conv_kernel_size : nat;
  conv_dilation : nat;
  conv_weight : list Frame -> Frame;
  conv_buffer : option (list Frame)
}.

Definition conv_set_buffer (c : Conv1d) (b : option (list Frame)) : Conv1d :=
  {| conv_kernel_size := conv_kernel_size c;
     conv_dilation := conv_dilation c;
     conv_weight := conv_weight c;
     conv_buffer := b |}.

(** [Conv1d.incremental_forward(x)] *)
Definition conv_incremental_forward (c : Conv1d) (x : Frame) : Frame * Conv1d :=
  let k := conv_kernel_size c in
  let d := conv_dilation c in
  let window := history (conv_buffer c) k d x ++ [x] in
  (conv_weight c (taps k d window), conv_set_buffer c (Some (push (history (conv_buffer c) k d x) x))).

(** [Conv1d.forward(x)] over the whole time axis. *)
Definition conv_forward (c : Conv1d) (xs : list Frame) : list Frame :=
  map (fun w => conv_weight c (taps (conv_kernel_size c) (conv_dilation c) w))
      (causal_windows (conv_kernel_size c) (conv_dilation c) xs).

(** Modelled from the spec: the gated residual block of the network
    package, which is not part of this source file.  Section 4.2: a gated
    activation over the dilated receptive window and the local conditioning
    frame ([block_gate]), split into a residual path that is added back to
    the block input and a skip path. *)
Record ResBlock : Type := {
  block_kernel_size : nat;
  block_dilation : nat;
  block_gate : list Frame -> Frame -> Frame;
  block_res : Frame -> Frame;
  block_skip : Frame -> Frame;
  block_buffer : option (list Frame)
}.

Definition block_set_buffer (b : ResBlock) (buf : option (list Frame)) : ResBlock :=
  {| block_kernel_size := block_kernel_size b;
     block_dilation := block_dilation b;
     block_gate := block_gate b;
     block_res := block_res b;
     block_skip := block_skip b;
     block_buffer := buf |}.

(** What a block computes from its window, its input and the conditioning:
    the next block's input and the skip contribution. *)
Definition block_output (b : ResBlock) (window : list Frame) (x c : Frame)
    : Frame * Frame :=
  let z := block_gate b (taps (block_kernel_size b) (block_dilation b) window) c in
  (fadd x (block_res b z), block_skip b z).

(** [f.incremental_forward(x, ct, None)] *)
Definition block_incremental_forward (b : ResBlock) (x c : Frame)
    : (Frame * Frame) * ResBlock :=
  let k := block_kernel_size b in
  let d := block_dilation b in
  let window := history (block_buffer b) k d x ++ [x] in
  (block_output b window x c, block_set_buffer b (Some (push (history (block_buffer b) k d x) x))).

(** [f(x, c, None)] over the whole time axis. *)
Definition block_forward (b : ResBlock) (xs cs : list Frame)
    : list (Frame * Frame) :=
  zip_with (fun wx c => block_output b (fst wx) (snd wx) c)
           (combine (causal_windows (block_kernel_size b) (block_dilation b) xs) xs)
           cs.

(** A layer of the output projection: a convolution, or a module without
    [incremental_forward] (the source falls back to [f(x)] on
    [AttributeError]). *)
Inductive LastLayer : Type :=
| LastConv (c : Conv1d)
| LastModule (f : Frame -> Frame).

Record Net : Type := {
  first_conv : Conv1d;
  conv_layers : list ResBlock;
  last_conv_layers : list LastLayer;
  upsample_net : Tensor3 -> Tensor3;
  training : bool
}.

Definition set_layers (n : Net) (fc : Conv1d) (cl : list ResBlock)
    (ll : list LastLayer) : Net :=
  {| first_conv := fc; conv_layers := cl; last_conv_layers := ll;
     upsample_net := upsample_net n; training := training n |}.

Definition set_training (n : Net) (mode : bool) : Net :=
  {| first_conv := first_conv n; conv_layers := conv_layers n;
     last_conv_layers := last_conv_layers n;
     upsample_net := upsample_net n; training := mode |}.

Definition last_clear (l : LastLayer) : LastLayer :=
  match l with
  | LastConv c => LastConv (conv_set_buffer c None)
  | LastModule f => LastModule f
  end.

(** [clear_buffer()]: every layer drops its cache. *)
Definition clear_buffer (n : Net) : Net :=
  set_layers n (conv_set_buffer (first_conv n) None)
             (map (fun b => block_set_buffer b None) (conv_layers n))
             (map last_clear (last_conv_layers n)).

(** The caches of a network, layer by layer. *)
Definition last_buffer (l : LastLayer) : option (list Frame) :=
  match l with
  | LastConv c => conv_buffer c
  | LastModule _ => None
  end.

Definition buffers (n : Net) : list (option (list Frame)) :=
  conv_buffer (first_conv n)
  :: map block_buffer (conv_layers n) ++ map last_buffer (last_conv_layers n).

Definition buffers_cleared (n : Net) : Prop :=
  Forall (fun b => b = None) (buffers n).

(** ** One incremental timestep of the stack (lines 282-293 of [generate]) *)

(** [skips = 0; for f in conv_layers: x, h = f.incremental_forward(x, ct, None); skips += h].
    The accumulator is [None] while it still is the integer [0]. *)
Definition skips_add (skips : option Frame) (h : Frame) : option Frame :=
  match skips with
  | None => Some h
  | Some s => Some (fadd s h)
  end.

Fixpoint blocks_incremental (layers : list ResBlock) (x ct : Frame)
    (skips : option Frame) : Frame * option Frame * list ResBlock :=
  match layers with
  | [] => (x, skips, [])
  | f :: rest =>
      let '((x1, h), f1) := block_incremental_forward f x ct in
      let '(x2, skips2, rest1) := blocks_incremental rest x1 ct (skips_add skips h) in
      (x2, skips2, f1 :: rest1)
  end.

(** [math.sqrt(1.0 / n)]; the division raises when [n] is zero. *)
Definition sqrt_recip (n : nat) : result R :=
  match n with
  | O => Raise ZeroDivisionError
  | S _ => Ok (sqrt (1 / INR n))
  end.

(** [skips *= math.sqrt(1.0 / len(conv_layers)); x = skips] *)
Definition scale_skips (n : nat) (skips : option Frame) : result Frame :=
  match sqrt_recip n with
  | Raise e => Raise e
  | Ok s => Ok (fscale s (match skips with Some sk => sk | None => [] end))
  end.

(** [for f in last_conv_layers: try: x = f.incremental_forward(x) except AttributeError: x = f(x)] *)
Fixpoint last_incremental (layers : list LastLayer) (x : Frame)
    : Frame * list LastLayer :=
  match layers with
  | [] => (x, [])
  | LastConv c :: rest =>
      let '(x1, c1) := conv_incremental_forward c x in
      let '(x2, rest1) := last_incremental rest x1 in
      (x2, LastConv c1 :: rest1)
  | LastModule f :: rest =>
      let '(x2, rest1) := last_incremental rest (f x) in
      (x2, LastModule f :: rest1)
  end.

(** The first half of the loop body: the skip contributions of all blocks,
    summed and scaled.  The layers that ran keep their updated caches also
    when the scaling raises. *)
Definition skip_path (n : Net) (x ct : Frame) : result Frame * Net :=
  let '(x1, fc) := conv_incremental_forward (first_conv n) x in
  let '(_, skips, cl) := blocks_incremental (conv_layers n) x1 ct None in
  (scale_skips (length (conv_layers n)) skips,
   set_layers n fc cl (last_conv_layers n)).

(** The body of the timestep loop up to the sampler: from the previous
    sample [x] and the conditioning frame [ct] to the distribution
    parameters. *)
Definition stack_step (n : Net) (x ct : Frame) : result Frame * Net :=
  match skip_path n x ct with
  | (Raise e, n1) => (Raise e, n1)
  | (Ok x2, n1) =>
      let '(x3, ll) := last_incremental (last_conv_layers n1) x2 in
      (Ok x3, set_layers n1 (first_conv n1) (conv_layers n1) ll)
  end.

(** ** The parallel pass of the network *)

(** The skip accumulator of the parallel pass: one frame per timestep. *)
Definition skips_add_seq (skips : option (list Frame)) (hs : list Frame)
    : option (list Frame) :=
  match skips with
  | None => Some hs
  | Some s => Some (zip_with fadd s hs)
  end.

Fixpoint blocks_forward (layers : list ResBlock) (xs cs : list Frame)
    (skips : option (list Frame)) : list Frame * option (list Frame) :=
  match layers with
  | [] => (xs, skips)
  | f :: rest =>
      let out := block_forward f xs cs in
      blocks_forward rest (map fst out) cs (skips_add_seq skips (map snd out))
  end.

Fixpoint last_forward (layers : list LastLayer) (xs : list Frame) : list Frame :=
  match layers with
  | [] => xs
  | LastConv c :: rest => last_forward rest (conv_forward c xs)
  | LastModule f :: rest => last_forward rest (map f xs)
  end.

(** Modelled from the spec: the parallel pass of the network package over
    an already upsampled conditioning sequence [cs].  Section 4.2: one call
    processes the entire time axis with left-padded causal convolutions;
    the skip contributions are summed and scaled by
    [1 / sqrt(number of blocks)]; section 4.3: the sum passes through the
    output projection. *)
Definition stack_forward (n : Net) (xs cs : list Frame) : result (list Frame) :=
  let xs1 := conv_forward (first_conv n) xs in
  let '(_, skips) := blocks_forward (conv_layers n) xs1 cs None in
  match sqrt_recip (length (conv_layers n)) with
  | Raise e => Raise e
  | Ok s =>
      Ok (last_forward (last_conv_layers n)
            (map (fscale s) (match skips with Some sk => sk | None => [] end)))
  end.

(** [self.model(x, c=spectrograms)]: the conditioning is upsampled, then the
    stack runs in parallel mode.  Modelled from the spec, section 7: a
    conditioning sequence whose upsampled length is not the length of the
    input is a fatal shape violation, raised before the stack runs. *)
Definition forward (n : Net) (xs : list Frame) (c : Tensor3) : result (list Frame) :=
  let cs := transpose_1_2 (upsample_net n c) in
  if length xs =? length cs then stack_forward n xs cs
  else Raise (RuntimeError "conditioning and input lengths differ").

(** The incremental mode driven with a given input history: step [t] is
    fed input [t] and conditioning frame [t], as the timestep loop of
    [generate] does with its own samples. *)
Fixpoint incremental_run (n : Net) (inputs : list (Frame * Frame))
    : result (list Frame) :=
  match inputs with
  | [] => Ok []
  | (x, ct) :: rest =>
      match stack_step n x ct with
      | (Raise e, _) => Raise e
      | (Ok y, n1) =>
          match incremental_run n1 rest with
          | Raise e => Raise e
          | Ok ys => Ok (y :: ys)
          end
      end
  end.

(** * Configuration *)

Record UpsampleConfig : Type := {
  upsample_scales : list Z;
  upsample_cin_channels : Z;
  upsample_cin_pad : Z
}.

Record ModelConfig : Type := {
  quantize_channels : Z;
  out_channels : nat;
  layers : nat;
  stacks : nat;
  residual_channels : nat;
  gate_channels : nat;
  skip_out_channels : nat;
  cin_channels : Z;
  gin_channels : Z;
  n_speakers : Z;
  dropout : R;
  kernel_size : nat;
  cin_pad : nat;
  upsample_conditional_features : bool;
  input_type : string;
  output_distribution : string;
  n_iterations : nat;
  learning_rate : R;
  upsample_params : UpsampleConfig
}.

(** The dataset half of the configuration is not read by the class. *)
Record Config : Type := {
  model : ModelConfig
}.

(** The loss modules [self.criterion] can hold. *)
Inductive Criterion : Type :=
| CrossEntropyLoss
| DiscretizedMixturelogisticLoss (config : Config)
| MixtureGaussianLoss (config : Config).

(** The target tensor handed to the criterion: class labels for the
    quantized encoding, amplitudes otherwise; [batch] rows over time. *)
Inductive Target : Type :=
| Labels (t : list (list Z))
| Floats (t : list (list R)).

(** What [generate] holds before [flatten]: [B x T] after [argmax], or
    [B x T x C]. *)
Inductive Waveform : Type :=
| Wave2 (w : list (list R))
| Wave3 (w : Tensor3).

Definition flatten (w : Waveform) : list R :=
  match w with
  | Wave2 w => concat w
  | Wave3 w => concat (concat w)
  end.

(** The calls the class makes to its collaborators, in order. *)
Inductive event : Type :=
| EvEval
| EvTrain
| EvClearBuffer
| EvTimestep (t : nat)
| EvForward
| EvZeroGrad
| EvBackward
| EvOptimizerStep.

(** ** Collaborators

    Functions the module imports from the rest of the package and from
    torch.  Their code is not part of this source file; the class is
    modelled for every behaviour they can have.  The constructor of the
    base class, the helpers of [util], the network constructor and the
    constructor of the optimizer may raise. *)
Record Collaborators : Type := {
  Rng : Type;
  Optimizer : Type;
  Grad : Type;
  Vocoder_init : Config -> result unit;
  is_scalar_input : string -> result bool;
  is_mulaw_quantize : string -> result bool;
  wavenet_WaveNet : ModelConfig -> bool -> result Net;
  Adam : Net -> R -> result Optimizer;
  optimizer_step : Optimizer -> Net -> option Grad -> Optimizer * Net;
  loss_backward : Net -> Tensor3 -> list (list R) -> Grad;
  sample_from_discretized_mix_logistic : Frame -> Rng -> Frame * Rng;
  sample_from_mix_gaussian : Frame -> Rng -> Frame * Rng;
  categorical_sample : list R -> Rng -> nat * Rng;
  cross_entropy : list Frame -> Target -> R;
  discretized_mix_logistic_loss : Config -> list Frame -> Target -> R;
  mix_gaussian_loss : Config -> list Frame -> Target -> R
}.

(** [s in [a, b]] on strings. *)
Definition str_in (s : string) (l : list string) : bool :=
  existsb (String.eqb s) l.

(** [torch.argmax] along one row: the index of the first maximum (and 0
    for an empty row, which torch refuses). *)
Fixpoint argmax_from (best_i : nat) (best : R) (i : nat) (row : list R) : nat :=
  match row with
  | [] => best_i
  | v :: rest =>
      if Rlt_dec best v then argmax_from i v (S i) rest
      else argmax_from best_i best (S i) rest
  end.

Definition argmax (row : list R) : nat :=
  match row with
  | [] => 0
  | v :: rest => argmax_from 0 v 1 rest
  end.

(** [F.softmax(x, dim=1)] along one row. *)
Definition softmax_row (row : list R) : list R :=
  let total := fold_right Rplus 0%R (map exp row) in
  map (fun v => (exp v / total)%R) row.

(** [torch.stack(output).transpose(0, 1)]: from a list of [T] frames
    [B x C] to [B x T x C]; an empty list cannot be stacked.  The frames of
    one generation all have the shape of the first. *)
Definition stack_transpose (output : list Frame) : result Tensor3 :=
  match output with
  | [] => Raise (RuntimeError "stack expects a non-empty TensorList")
  | first :: _ =>
      Ok (map (fun b => map (fun frame => nth b frame []) output)
              (seq 0 (length first)))
  end.

(** A [B x T] matrix read along its time axis. *)
Definition time_major {A} (default : A) (rows : list (list A)) : list (list A) :=
  map (fun t => map (fun row => nth t row default) rows)
      (seq 0 (length (hd [] rows))).

(** [F.one_hot(labels, num_classes)] on a [B x T] matrix of labels; a label
    outside [0, num_classes) is an error. *)
Definition label_ok (num_classes : Z) (l : Z) : bool :=
  (0 <=? l)%Z && (l <? num_classes)%Z.

Definition F_one_hot (labels : list (list Z)) (num_classes : Z)
    : result (list (list (list R))) :=
  if forallb (forallb (label_ok num_classes)) labels
  then Ok (map (map (fun l => one_hot_row (Z.to_nat num_classes) (Z.to_nat l))) labels)
  else Raise (RuntimeError "Class values must be smaller than num_classes.").

Section WaveNet.

Context (ext : Collaborators).

(** The fields of a [WaveNet] object.  [module] is [self.model.module],
    the network that the data-parallel wrapper [self.model] runs;
    [compand] and [expand] hold the channel count their transforms were
    built with; [grad] is the gradient held by the parameters. *)
Record WaveNet : Type := {
  config : Config;
  scalar_input : bool;
  module : Net;
  optimizer : Optimizer ext;
  grad : option (Grad ext);
  compand : Z;
  expand : Z;
  criterion : Criterion
}.

(** [WaveNet.__init__(self, config)], call by call: the constructor of the
    base class (line 91), [is_scalar_input] (94), the network (96-115), the
    optimizer (117-119), the two mu-law transforms, which only store their
    channel count (120-125), [is_mulaw_quantize] (127) and the criterion
    (128-139).  The first call that raises ends the construction. *)
Definition __init__ (config : Config) : result WaveNet :=
  match Vocoder_init ext config with
  | Raise e => Raise e
  | Ok _ =>
  match is_scalar_input ext (input_type (model config)) with
  | Raise e => Raise e
  | Ok scalar =>
  match wavenet_WaveNet ext (model config) scalar with
  | Raise e => Raise e
  | Ok net =>
  match Adam ext net (learning_rate (model config)) with
  | Raise e => Raise e
  | Ok opt =>
  let build crit :=
    {| config := config; scalar_input := scalar; module := net;
       optimizer := opt; grad := None;
       compand := quantize_channels (model config);
       expand := quantize_channels (model config);
       criterion := crit |} in
  match is_mulaw_quantize ext (input_type (model config)) with
  | Raise e => Raise e
  | Ok true => Ok (build CrossEntropyLoss)
  | Ok false =>
      if String.eqb (output_distribution (model config)) "Logistic"
      then Ok (build (DiscretizedMixturelogisticLoss config))
      else if String.eqb (output_distribution (model config)) "Normal"
      then Ok (build (MixtureGaussianLoss config))
      else Raise (RuntimeError ("Not supported output distribution type: "
                                ++ output_distribution (model config)))
  end end end end end.

(** [self.criterion(output, target)] *)
Definition apply_criterion (c : Criterion) (output : list Frame) (target : Target) : R :=
  match c with
  | CrossEntropyLoss => cross_entropy ext output target
  | DiscretizedMixturelogisticLoss cfg => discretized_mix_logistic_loss ext cfg output target
  | MixtureGaussianLoss cfg => mix_gaussian_loss ext cfg output target
  end.

(** ** State and exceptions

    A method runs on the object, the state of the random source and the
    trace of calls made so far; a raised exception leaves the state as it
    was at the raise. *)
Record World : Type := {
  self : WaveNet;
  rng : Rng ext;
  trace : list event
}.

Definition M (A : Type) : Type := World -> result A * World.

Definition ret {A} (a : A) : M A := fun w => (Ok a, w).

Definition bind {A B} (m : M A) (k : A -> M B) : M B :=
  fun w =>
    match m w with
    | (Ok a, w1) => k a w1
    | (Raise e, w1) => (Raise e, w1)
    end.

Definition raise {A} (e : exn) : M A := fun w => (Raise e, w).

Definition lift {A} (r : result A) : M A := fun w => (r, w).

Definition get : M World := fun w => (Ok w, w).

Notation "x <- m ;; k" := (bind m (fun x => k))
  (at level 100, m at next level, right associativity).
Notation "m ;; k" := (bind m (fun _ => k))
  (at level 100, right associativity).

Definition emit (e : event) : M unit :=
  fun w => (Ok tt, {| self := self w; rng := rng w; trace := trace w ++ [e] |}).

Definition set_module (s : WaveNet) (n : Net) : WaveNet :=
  {| config := config s; scalar_input := scalar_input s; module := n;
     optimizer := optimizer s; grad := grad s;
     compand := compand s; expand := expand s; criterion := criterion s |}.

Definition set_grad (s : WaveNet) (g : option (Grad ext)) : WaveNet :=
  {| config := config s; scalar_input := scalar_input s; module := module s;
     optimizer := optimizer s; grad := g;
     compand := compand s; expand := expand s; criterion := criterion s |}.

Definition set_optimizer (s : WaveNet) (o : Optimizer ext) : WaveNet :=
  {| config := config s; scalar_input := scalar_input s; module := module s;
     optimizer := o; grad := grad s;
     compand := compand s; expand := expand s; criterion := criterion s |}.

Definition update_self (f : WaveNet -> WaveNet) : M unit :=
  fun w => (Ok tt, {| self := f (self w); rng := rng w; trace := trace w |}).

Definition update_module (f : Net -> Net) : M unit :=
  update_self (fun s => set_module s (f (module s))).

(** A draw from the random source. *)
Definition draw {A} (sampler : Rng ext -> A * Rng ext) : M A :=
  fun w =>
    let '(a, r) := sampler (rng w) in
    (Ok a, {| self := self w; rng := r; trace := trace w |}).

(** [self.model.eval()], [self.model.train()], [self.model.module.clear_buffer()] *)
Definition model_eval : M unit :=
  emit EvEval ;; update_module (fun n => set_training n false).

Definition model_train : M unit :=
  emit EvTrain ;; update_module (fun n => set_training n true).

Definition module_clear_buffer : M unit :=
  emit EvClearBuffer ;; update_module clear_buffer.

(** A [for] loop over a list of indices, threading the loop variables. *)
Fixpoint for_each {S} (body : nat -> S -> M S) (ts : list nat) (s : S) : M S :=
  match ts with
  | [] => ret s
  | t :: rest => s1 <- body t s ;; for_each body rest s1
  end.

(** ** The small methods *)

(** [WaveNet.get_optimizers(self)]: the one optimizer, without scheduler. *)
Definition get_optimizers (s : WaveNet) : list (Optimizer ext * option unit) :=
  [(optimizer s, None)].

(** [WaveNet.is_done(self)].  The counter [global_step] is kept by the base
    class, which is not part of this source file; it is an argument here. *)
Definition is_done (global_step : nat) (s : WaveNet) : bool :=
  n_iterations (model (config s)) <=? global_step.

(** [WaveNet.initialize(self)]: nothing to do. *)
Definition initialize : M unit := ret tt.

(** ** [loss] *)

(** The input encoding of [loss] (lines 189-211): the shifted target and
    the network input, per configured representation. *)
Definition encode_batch (s : WaveNet) (waveforms : list (list R))
    : result (list Frame * Target) :=
  let cfg := model (config s) in
  let target := map (@tl R) waveforms in
  if str_in (input_type cfg) ["mulaw"; "mulaw-quantize"] then
    let waveforms1 := map (map (mu_law_encoding (compand s))) waveforms in
    let target1 := map (map (mu_law_encoding (compand s))) target in
    if String.eqb (input_type cfg) "mulaw" then
      let waveforms2 :=
        map (map (fun l => label_2_float (IZR l) (quantize_channels cfg))) waveforms1 in
      let target2 :=
        map (map (fun l => label_2_float (IZR l) (quantize_channels cfg))) target1 in
      Ok (map (map (fun v => [v])) (time_major 0%R waveforms2), Floats target2)
    else
      match F_one_hot waveforms1 (quantize_channels cfg) with
      | Raise e => Raise e
      | Ok hot => Ok (time_major [] hot, Labels target1)
      end
  else if String.eqb (input_type cfg) "raw" then
    Ok (map (map (fun v => [v])) (time_major 0%R waveforms), Floats target)
  else
    Raise (RuntimeError ("Not supported input type: " ++ input_type cfg)).

(** [WaveNet.loss(self, spectrograms, waveforms)] *)
Definition loss (spectrograms : Tensor3) (waveforms : list (list R)) : M R :=
  w <- get ;;
  batch <- lift (encode_batch (self w) waveforms) ;;
  let '(inputs, target) := batch in
  emit EvForward ;;
  output <- lift (forward (module (self w)) inputs spectrograms) ;;
  ret (apply_criterion (criterion (self w)) (removelast output) target).

(** [WaveNet.train_step(self, spectrograms, waveforms)] *)
Definition train_step (spectrograms : Tensor3) (waveforms : list (list R))
    : M (R * gmap string R) :=
  l <- loss spectrograms waveforms ;;
  emit EvZeroGrad ;;
  update_self (fun s => set_grad s None) ;;
  emit EvBackward ;;
  update_self (fun s =>
    set_grad s (Some (loss_backward ext (module s) spectrograms waveforms))) ;;
  emit EvOptimizerStep ;;
  update_self (fun s =>
    let '(o, n) := optimizer_step ext (optimizer s) (module s) (grad s) in
    set_module (set_optimizer s o) n) ;;
  ret (l, ∅).

(** [WaveNet.validation_losses(self, spectrograms, waveforms)] *)
Definition validation_losses (spectrograms : Tensor3) (waveforms : list (list R))
    : M (gmap string R) :=
  l <- loss spectrograms waveforms ;;
  ret {[ "nll_loss" := l ]}.

(** ** [generate] *)

(** [torch.distributions.OneHotCategorical(x).sample()], row by row. *)
Fixpoint one_hot_categorical (rows : Frame) : M Frame :=
  match rows with
  | [] => ret []
  | p :: rest =>
      i <- draw (categorical_sample ext p) ;;
      others <- one_hot_categorical rest ;;
      ret (one_hot_row (length p) i :: others)
  end.

(** [WaveNet.get_x_from_dist(self, distrib, logits, history, B, softmax, quantize)] *)
Definition get_x_from_dist (distrib : string) (logits : Frame)
    (history : list Frame) (B : nat) (softmax quantize : bool)
    : M (Frame * list Frame) :=
  w <- get ;;
  x <- (if scalar_input (self w) then
          if String.eqb distrib "Logistic" then
            draw (sample_from_discretized_mix_logistic ext (view B logits))
          else if String.eqb distrib "Normal" then
            draw (sample_from_mix_gaussian ext (view B logits))
          else raise AssertionError
        else
          let x := if softmax then map softmax_row (view B logits)
                   else view B logits in
          if quantize then one_hot_categorical x else ret x) ;;
  ret (x, history ++ [x]).

(** Lines 282-293: the stack advances one timestep on the caches of
    [self.model.module]. *)
Definition incremental_step (x ct : Frame) : M Frame :=
  fun w =>
    let '(r, n) := stack_step (module (self w)) x ct in
    (r, {| self := set_module (self w) n; rng := rng w; trace := trace w |}).

(** The body of the timestep loop (lines 280-299); the loop variables are
    the current input [x] and the list [output]. *)
Definition timestep (frames : list Frame) (batch_size : nat) (t : nat)
    (vars : Frame * list Frame) : M (Frame * list Frame) :=
  let '(x, output) := vars in
  emit (EvTimestep t) ;;
  ct <- lift (select_time frames t) ;;
  x1 <- incremental_step x ct ;;
  w <- get ;;
  get_x_from_dist (output_distribution (model (config (self w)))) x1
                  output batch_size true true.

(** Lines 302-311: the inverse label transform of the stacked samples. *)
Definition decode (s : WaveNet) (output : Tensor3) : result Waveform :=
  let cfg := model (config s) in
  if str_in (input_type cfg) ["mulaw"; "mulaw-quantize"] then
    if String.eqb (input_type cfg) "mulaw-quantize" then
      Ok (Wave2 (map (map (fun row =>
            mu_law_decoding (expand s) (Z.of_nat (argmax row)))) output))
    else
      Ok (Wave3 (map (map (map (fun v =>
            mu_law_decoding (expand s)
              (trunc (float_2_label v (quantize_channels cfg)))))) output))
  else if negb (String.eqb (input_type cfg) "raw") then
    Raise (RuntimeError ("Not supported input type: " ++ input_type cfg))
  else Ok (Wave3 output).

(** The number of samples of the first second of audio. *)
Definition first_second : nat := Z.to_nat 22050.

(** [WaveNet.generate(self, spectrograms, training)] *)
Definition generate (spectrograms : Tensor3) (training_flag : bool) : M (list R) :=
  model_eval ;;
  module_clear_buffer ;;
  w <- get ;;
  let spectrograms1 := upsample_net (module (self w)) spectrograms in
  let seq_len := if training_flag then first_second else size_last spectrograms1 in
  let batch_size := shape0 spectrograms1 in
  let frames := transpose_1_2 spectrograms1 in
  let x :=
    if scalar_input (self w) then torch_zeros batch_size 1
    else torch_zeros batch_size (out_channels (model (config (self w)))) in
  vars <- for_each (timestep frames batch_size) (seq 0 seq_len) (x, []) ;;
  let '(_, output) := vars in
  output1 <- lift (stack_transpose output) ;;
  w1 <- get ;;
  output2 <- lift (decode (self w1) output1) ;;
  module_clear_buffer ;;
  model_train ;;
  ret (flatten output2).

End WaveNet.

Arguments config {ext} w.
Arguments scalar_input {ext} w.
Arguments module {ext} w.
Arguments optimizer {ext} w.
Arguments grad {ext} w.
Arguments compand {ext} w.
Arguments expand {ext} w.
Arguments criterion {ext} w.
Arguments self {ext} w.
Arguments rng {ext} w.
Arguments trace {ext} w.
Arguments set_module {ext} s n.
Arguments set_grad {ext} s g.
Arguments set_optimizer {ext} s o.
Arguments encode_batch {ext} s waveforms.
Arguments get_optimizers {ext} s.
Arguments is_done {ext} global_step s.
Arguments decode {ext} s output.

(** * Runs of single layers over time

    The timestep loop runs every layer once per step.  The functions below
    give the outputs of one layer, or of one group of layers, over a whole
    sequence of steps; they are used to compare the two execution modes. *)

Fixpoint conv_run (c : Conv1d) (xs : list Frame) : list Frame :=
  match xs with
  | [] => []
  | x :: rest =>
      let '(y, c1) := conv_incremental_forward c x in
      y :: conv_run c1 rest
  end.

(** One block over time; every step carries its input, its conditioning
    frame and the skip accumulator that reaches the block. *)
Fixpoint block_run (b : ResBlock) (items : list (Frame * Frame * option Frame))
    : list (Frame * Frame * option Frame) :=
  match items with
  | [] => []
  | (x, c, acc) :: rest =>
      let '((x1, h), b1) := block_incremental_forward b x c in
      (x1, c, skips_add acc h) :: block_run b1 rest
  end.

(** The block loop of the timestep body, over time. *)
Fixpoint blocks_run (layers : list ResBlock)
    (items : list (Frame * Frame * option Frame)) : list (option Frame) :=
  match items with
  | [] => []
  | (x, c, acc) :: rest =>
      let '(_, sk, layers1) := blocks_incremental layers x c acc in
      sk :: blocks_run layers1 rest
  end.

(** The projection loop of the timestep body, over time. *)
Fixpoint last_run (layers : list LastLayer) (xs : list Frame) : list Frame :=
  match xs with
  | [] => []
  | x :: rest =>
      let '(y, layers1) := last_incremental layers x in
      y :: last_run layers1 rest
  end.

Definition layer_run (l : LastLayer) (xs : list Frame) : list Frame :=
  match l with
  | LastConv c => conv_run c xs
  | LastModule f => map f xs
  end.

(** The windows read from a cache [b] followed by the inputs [xs]. *)
Definition windows_from (e : nat) (b xs : list Frame) : list (list Frame) :=
  map (fun t => firstn (S e) (skipn t (b ++ xs))) (seq 0 (length xs)).

(** Steps with conditioning and accumulator attached. *)
Fixpoint combine3 {A B C} (xs : list A) (ys : list B) (zs : list C)
    : list (A * B * C) :=
  match xs, ys, zs with
  | x :: xs', y :: ys', z :: zs' => (x, y, z) :: combine3 xs' ys' zs'
  | _, _, _ => []
  end.

(** The accumulator of the parallel pass, one entry per timestep. *)
Definition accs_of (n : nat) (skips : option (list Frame)) : list (option Frame) :=
  match skips with
  | None => repeat None n
  | Some s => map Some s
  end.

(** The windows the incremental mode reads over a run, starting from the
    cache state [buf]. *)
Fixpoint window_run (k d : nat) (buf : option (list Frame)) (xs : list Frame)
    : list (list Frame) :=
  match xs with
  | [] => []
  | x :: rest =>
      let h := history buf k d x in
      (h ++ [x]) :: window_run k d (Some (push h x)) rest
  end.

(** The skip contributions of the blocks at one timestep, in block order;
    every block reads the residual output of the one before it. *)
Fixpoint block_skips (layers : list ResBlock) (x ct : Frame) : list Frame :=
  match layers with
  | [] => []
  | f :: rest =>
      let '((x1, h), _) := block_incremental_forward f x ct in
      h :: block_skips rest x1 ct
  end.

(** The sum of a non-empty list of frames. *)
Definition fsum (hs : list Frame) : Frame :=
  match hs with
  | [] => []
  | h :: rest => fold_left fadd rest h
  end.

(** * The phases of [generate] *)

Section Phases.

Context (ext : Collaborators).

(** The world after [self.model.eval()] and the first [clear_buffer()]. *)
Definition begin_generate (w : World ext) : World ext :=
  {| self := set_module (self w)
               (clear_buffer (set_training (module (self w)) false));
     rng := rng w;
     trace := (trace w ++ [EvEval]) ++ [EvClearBuffer] |}.

(** The world after the last [clear_buffer()] and [self.model.train()]. *)
Definition end_generate (w : World ext) : World ext :=
  {| self := set_module (self w)
               (set_training (clear_buffer (module (self w))) true);
     rng := rng w;
     trace := (trace w ++ [EvClearBuffer]) ++ [EvTrain] |}.

(** The conditioning frames the loop indexes, and its bound. *)
Definition loop_frames (w : World ext) (spectrograms : Tensor3) : list Frame :=
  transpose_1_2 (upsample_net (module (self w)) spectrograms).

Definition loop_batch (w : World ext) (spectrograms : Tensor3) : nat :=
  shape0 (upsample_net (module (self w)) spectrograms).

Definition loop_len (w : World ext) (spectrograms : Tensor3) (training_flag : bool) : nat :=
  if training_flag then first_second
  else size_last (upsample_net (module (self w)) spectrograms).

Definition loop_seed (w : World ext) (spectrograms : Tensor3) : Frame :=
  if scalar_input (self w) then torch_zeros (loop_batch w spectrograms) 1
  else torch_zeros (loop_batch w spectrograms)
                   (out_channels (model (config (self w)))).

(** The timestep loop of a [generate] call, run on the world as the call
    finds it. *)
Definition generate_loop (w : World ext) (spectrograms : Tensor3)
    (training_flag : bool) : result (Frame * list Frame) * World ext :=
  for_each ext (timestep ext (loop_frames w spectrograms) (loop_batch w spectrograms))
           (seq 0 (loop_len w spectrograms training_flag))
           (loop_seed w spectrograms, []) (begin_generate w).

(** The world with [EvTimestep t] recorded and the network replaced. *)
Definition stepped (w : World ext) (t : nat) (n : Net) : World ext :=
  {| self := set_module (self w) n; rng := rng w;
     trace := trace w ++ [EvTimestep t] |}.

(** The condition under which the sampler cannot raise: a scalar input
    comes with one of the two mixture families. *)
Definition dist_ok (s : WaveNet ext) : Prop :=
  scalar_input s = true ->
  output_distribution (model (config s)) = "Logistic" \/
  output_distribution (model (config s)) = "Normal".

End Phases.

Arguments begin_generate {ext} w.
Arguments end_generate {ext} w.
Arguments loop_frames {ext} w spectrograms.
Arguments loop_batch {ext} w spectrograms.
Arguments loop_len {ext} w spectrograms training_flag.
Arguments loop_seed {ext} w spectrograms.
Arguments stepped {ext} w t n.
Arguments dist_ok {ext} s.

Section Relations.

Context (ext : Collaborators).

(** Two states of one object that differ at most in the network. *)
Definition same_object (s s' : WaveNet ext) : Prop :=
  config s' = config s /\ scalar_input s' = scalar_input s /\
  optimizer s' = optimizer s /\ grad s' = grad s /\
  compand s' = compand s /\ expand s' = expand s /\
  criterion s' = criterion s.

(** A sample of the categorical head for the distribution parameters [y]:
    [B] one-hot rows, as wide as a row of [y.view(B, -1)]. *)
Definition categorical_frame (B : nat) (y x : Frame) : Prop :=
  length x = B /\
  Forall (fun row => exists i, row = one_hot_row (numel y / B) i) x.

(** What the sampler returns for the distribution parameters [y]: a draw
    of one of the two mixture samplers for a scalar input, a categorical
    frame otherwise. *)
Definition sampled (scalar : bool) (B : nat) (y x : Frame) : Prop :=
  if scalar then
    exists r,
      x = fst (sample_from_discretized_mix_logistic ext (view B y) r) \/
      x = fst (sample_from_mix_gaussian ext (view B y) r)
  else categorical_frame B y x.

End Relations.

Arguments same_object {ext} s s'.

(** * Invariants of the network along a generation *)

(** The last layer of the output projection yields [C] values whatever it
    is given. *)
Definition layer_emits (l : LastLayer) (C : nat) : Prop :=
  match l with
  | LastConv c => forall window, numel (conv_weight c window) = C
  | LastModule f => forall x, numel (f x) = C
  end.

Definition emits (n : Net) (C : nat) : Prop :=
  exists pre l, last_conv_layers n = pre ++ [l] /\ layer_emits l C.

(** A property of networks that one incremental step keeps, together with
    a property of the distribution parameters every such step yields. *)
Definition step_invariant (I : Net -> Prop) (L : Frame -> Prop) : Prop :=
  forall n x ct, I n ->
    exists y n1, stack_step n x ct = (Ok y, n1) /\ I n1 /\ L y.

(** * A small instance

    A one-block network and collaborators that can be run, used to
    exhibit concrete calls. *)

(** Modelled from the spec: the helpers [is_scalar_input] and
    [is_mulaw_quantize] of the package's [util] module, which are not part of
    this source file.  Section 6 names the input encodings "raw", "mulaw"
    and "mulaw-quantize"; the last is the quantized categorical one, the
    first two carry one scalar per sample.  Section 7: any other string is
    a fatal configuration error, raised where the string is first
    examined. *)
Definition util_is_scalar_input (s : string) : result bool :=
  if str_in s ["raw"; "mulaw"; "mulaw-quantize"]
  then Ok (String.eqb s "raw" || String.eqb s "mulaw")
  else Raise (RuntimeError ("Not supported input type: " ++ s)).

Definition util_is_mulaw_quantize (s : string) : result bool :=
  if str_in s ["raw"; "mulaw"; "mulaw-quantize"]
  then Ok (String.eqb s "mulaw-quantize")
  else Raise (RuntimeError ("Not supported input type: " ++ s)).

(** A pointwise first convolution, one block of kernel size 2 and
    dilation 1 whose gate adds its two taps and the conditioning frame, and
    a projection that emits 256 zero logits. *)
Definition demo_net : Net :=
  {| first_conv :=
       {| conv_kernel_size := 1; conv_dilation := 1;
          conv_weight := fun window => nth 0 window [];
          conv_buffer := None |};
     conv_layers :=
       [ {| block_kernel_size := 2; block_dilation := 1;
            block_gate := fun window c =>
              fadd (fadd (nth 0 window []) (nth 1 window [])) c;
            block_res := fun z => z;
            block_skip := fun z => z;
            block_buffer := None |} ];
     last_conv_layers := [ LastModule (fun _ => [repeat 0%R 256]) ];
     upsample_net := fun c => c;
     training := true |}.

Definition demo_ext : Collaborators :=
  {| Rng := nat;
     Optimizer := unit;
     Grad := unit;
     Vocoder_init := fun _ => Ok tt;
     is_scalar_input := util_is_scalar_input;
     is_mulaw_quantize := util_is_mulaw_quantize;
     wavenet_WaveNet := fun _ _ => Ok demo_net;
     Adam := fun _ _ => Ok tt;
     optimizer_step := fun o n _ => (o, n);
     loss_backward := fun _ _ _ => tt;
     sample_from_discretized_mix_logistic :=
       fun y r => (map (fun _ => [0%R]) y, S r);
     sample_from_mix_gaussian :=
       fun y r => (map (fun _ => [0%R]) y, S r);
     categorical_sample := fun _ r => (0, S r);
     cross_entropy := fun _ _ => 0%R;
     discretized_mix_logistic_loss := fun _ _ _ => 0%R;
     mix_gaussian_loss := fun _ _ _ => 0%R |}.

Definition demo_model (input_type output_distribution : string) : ModelConfig :=
  {| quantize_channels := 256;
     out_channels := 256;
     layers := 1;
     stacks := 1;
     residual_channels := 1;
     gate_channels := 1;
     skip_out_channels := 1;
     cin_channels := 1;
     gin_channels := (-1);
     n_speakers := 1;
     dropout := 0%R;
     kernel_size := 2;
     cin_pad := 0;
     upsample_conditional_features := true;
     input_type := input_type;
     output_distribution := output_distribution;
     n_iterations := 1;
     learning_rate := 0%R;
     upsample_params :=
       {| upsample_scales := [1%Z]; upsample_cin_channels := 1;
          upsample_cin_pad := 0 |} |}.

Definition demo_config (input_type output_distribution : string) : Config :=
  {| model := demo_model input_type output_distribution |}.

(** The object [__init__] builds from [demo_config] when it returns; its
    criterion is irrelevant where it is not named. *)
Definition demo_self (input_type output_distribution : string) (scalar : bool)
    (crit : Criterion) : WaveNet demo_ext :=
  Build_WaveNet demo_ext (demo_config input_type output_distribution)
    scalar demo_net tt None 256 256 crit.

Definition demo_world (s : WaveNet demo_ext) : World demo_ext :=
  Build_World demo_ext s 0 [].

(** Conditioning features for one sequence, one channel, [T] frames. *)
Definition demo_spectrogram (T : nat) : Tensor3 := [[repeat 0%R T]].

Section Shapes.

Context (ext : Collaborators).

(** The world with its network replaced. *)
Definition with_module (w : World ext) (n : Net) : World ext :=
  {| self := set_module (self w) n; rng := rng w; trace := trace w |}.

(** A frame of [B] rows of [C] values. *)
Definition frame_shape (B C : nat) (x : Frame) : Prop :=
  length x = B /\ Forall (fun row => length row = C) x.

(** The mixture samplers return one value for every row they are given. *)
Definition samplers_shaped : Prop :=
  forall y r,
    frame_shape (length y) 1
      (fst (sample_from_discretized_mix_logistic ext y r)) /\
    frame_shape (length y) 1 (fst (sample_from_mix_gaussian ext y r)).

End Shapes.

Arguments with_module {ext} w n.

(** * The target of the loss, in the words of the specification *)

Section LossTarget.

Context (ext : Collaborators).

(** The row of targets of one waveform: the target for position [t] is
    sample [t + 1]; the last sample has no position of its own. *)
Definition shifted (row : list R) : list R :=
  map (fun t => nth (S t) row 0%R) (seq 0 (length row - 1)).

(** The shifted target in the configured representation: class labels for
    the quantized encoding, companded and rescaled amplitudes for "mulaw",
    raw amplitudes otherwise. *)
Definition shifted_target (s : WaveNet ext) (waveforms : list (list R)) : Target :=
  let cfg := model (config s) in
  if String.eqb (input_type cfg) "mulaw-quantize" then
    Labels (map (fun row => map (mu_law_encoding (compand s)) (shifted row)) waveforms)
  else if String.eqb (input_type cfg) "mulaw" then
    Floats (map (fun row =>
              map (fun v => label_2_float (IZR (mu_law_encoding (compand s) v))
                                          (quantize_channels cfg))
                  (shifted row)) waveforms)
  else Floats (map shifted waveforms).

End LossTarget.

Arguments shifted_target {ext} s waveforms.

(** * Further notions *)

(** The learned part of a network: the network with its caches cleared
    and its mode set to training.  Two networks with the same [weights]
    differ at most in the caches and in the mode. *)
Definition weights (n : Net) : Net := clear_buffer (set_training n true).

(** The number of timesteps in every row of a target. *)
Definition target_rows (t : Target) : list nat :=
  match t with
  | Labels rows => map (@length Z) rows
  | Floats rows => map (@length R) rows
  end.

(** The network-input encoding of the target's element [t] of row [b]:
    a one-element row for a float, a one-hot row for a label. *)
Definition target_cell (num_classes : Z) (target : Target) (b t : nat)
    : option (list R) :=
  match target with
  | Floats rows =>
      match nth_error rows b with
      | Some row => option_map (fun v => [v]) (nth_error row t)
      | None => None
      end
  | Labels rows =>
      match nth_error rows b with
      | Some row =>
          option_map (fun l => one_hot_row (Z.to_nat num_classes) (Z.to_nat l))
                     (nth_error row t)
      | None => None
      end
  end.

(** A network without blocks. *)
Definition bare_net : Net :=
  {| first_conv := first_conv demo_net;
     conv_layers := [];
     last_conv_layers := last_conv_layers demo_net;
     upsample_net := fun c => c;
     training := true |}.

Definition bare_self : WaveNet demo_ext :=
  Build_WaveNet demo_ext (demo_config "raw" "Logistic") true bare_net tt None
    256 256 (DiscretizedMixturelogisticLoss (demo_config "raw" "Logistic")).

(** * Objects in use *)

Section Use.

Context (ext : Collaborators).

(** The states an object built by the constructor goes through: as built,
    with any state of the random source, and after any sequence of calls of
    its methods, whether they return or raise. *)
Inductive in_use (s0 : WaveNet ext) : World ext -> Prop :=
| use_new r tr : in_use s0 {| self := s0; rng := r; trace := tr |}
| use_loss sp wf w :
    in_use s0 w -> in_use s0 (snd (loss ext sp wf w))
| use_validation_losses sp wf w :
    in_use s0 w -> in_use s0 (snd (validation_losses ext sp wf w))
| use_train_step sp wf w :
    in_use s0 w -> in_use s0 (snd (train_step ext sp wf w))
| use_generate sp tr w :
    in_use s0 w -> in_use s0 (snd (generate ext sp tr w))
| use_get_x_from_dist distrib y hist B softmax quantize w :
    in_use s0 w ->
    in_use s0 (snd (get_x_from_dist ext distrib y hist B softmax quantize w)).

(** What no method assigns after the constructor: the configuration, the
    scalar-input flag, the two transforms and the criterion. *)
Definition same_setup (s s' : WaveNet ext) : Prop :=
  config s' = config s /\ scalar_input s' = scalar_input s /\
  compand s' = compand s /\ expand s' = expand s /\
  criterion s' = criterion s.

(** [self.config.model.input_type = name], an assignment by the caller:
    the constructor keeps the caller's configuration object (line 93), it
    does not copy it. *)
Definition set_input_type (s : WaveNet ext) (name : string) : WaveNet ext :=
  let m := model (config s) in
  {| config :=
       {| model :=
            {| quantize_channels := quantize_channels m;
               out_channels := out_channels m;
               layers := layers m;
               stacks := stacks m;
               residual_channels := residual_channels m;
               gate_channels := gate_channels m;
               skip_out_channels := skip_out_channels m;
               cin_channels := cin_channels m;
               gin_channels := gin_channels m;
               n_speakers := n_speakers m;
               dropout := dropout m;
               kernel_size := kernel_size m;
               cin_pad := cin_pad m;
               upsample_conditional_features := upsample_conditional_features m;
               input_type := name;
               output_distribution := output_distribution m;
               n_iterations := n_iterations m;
               learning_rate := learning_rate m;
               upsample_params := upsample_params m |} |};
     scalar_input := scalar_input s;
     module := module s;
     optimizer := optimizer s;
     grad := grad s;
     compand := compand s;
     expand := expand s;
     criterion := criterion s |}.

End Use.

Arguments in_use {ext} s0 w.
Arguments same_setup {ext} s s'.
Arguments set_input_type {ext} s name.

(** * Entries of frames *)

(** Entry [[b, c]] of a frame. *)
Definition entry (b c : nat) (x : Frame) : R := nth c (nth b x []) 0%R.

(** The sum of a list of reals. *)
Definition rsum (l : list R) : R := fold_right Rplus 0%R l.

(** * Further instances *)

(** A network of two blocks whose skip contributions are the constant
    frames [[1]] and [[3]]. *)
Definition two_block_net : Net :=
  {| first_conv := first_conv demo_net;
     conv_layers :=
       [ {| block_kernel_size := 2; block_dilation := 1;
            block_gate := fun window c => c;
            block_res := fun z => z;
            block_skip := fun _ => [[1%R]];
            block_buffer := None |};
         {| block_kernel_size := 2; block_dilation := 2;
            block_gate := fun window c => c;
            block_res := fun z => z;
            block_skip := fun _ => [[3%R]];
            block_buffer := None |} ];
     last_conv_layers := [ LastModule (fun x => x) ];
     upsample_net := fun c => c;
     training := true |}.

Definition two_block_self : WaveNet demo_ext :=
  Build_WaveNet demo_ext (demo_config "raw" "Logistic") true two_block_net tt None
    256 256 (DiscretizedMixturelogisticLoss (demo_config "raw" "Logistic")).

(** Collaborators whose criteria can be told apart: each returns its own
    offset plus the number of output timesteps it is given. *)
Definition counting_ext : Collaborators :=
  {| Rng := nat;
     Optimizer := unit;
     Grad := unit;
     Vocoder_init := fun _ => Ok tt;
     is_scalar_input := util_is_scalar_input;
     is_mulaw_quantize := util_is_mulaw_quantize;
     wavenet_WaveNet := fun _ _ => Ok demo_net;
     Adam := fun _ _ => Ok tt;
     optimizer_step := fun o n _ => (o, n);
     loss_backward := fun _ _ _ => tt;
     sample_from_discretized_mix_logistic :=
       fun y r => (map (fun _ => [0%R]) y, S r);
     sample_from_mix_gaussian :=
       fun y r => (map (fun _ => [0%R]) y, S r);
     categorical_sample := fun _ r => (0, S r);
     cross_entropy := fun output _ => INR (length output);
     discretized_mix_logistic_loss :=
       fun _ output _ => (10 + INR (length output))%R;
     mix_gaussian_loss :=
       fun _ output _ => (20 + INR (length output))%R |}.

Definition counting_self : WaveNet counting_ext :=
  Build_WaveNet counting_ext (demo_config "raw" "Logistic") true demo_net tt None
    256 256 (DiscretizedMixturelogisticLoss (demo_config "raw" "Logistic")).

(** * Properties *)

(** ** Windows and caches *)

Lemma zip_with_length {A B C} (f : A -> B -> C) xs ys :
  length xs = length ys -> length (zip_with f xs ys) = length xs.
Proof.
  revert ys. induction xs as [|x xs IH]; intros [|y ys] H; simpl in *; try lia.
  rewrite IH; lia.
Qed.

Lemma windows_from_cons e b x xs :
  length b = e ->
  windows_from e b (x :: xs) = (b ++ [x]) :: windows_from e (push b x) xs.
Proof.
  intros Hb. unfold windows_from. simpl length. simpl seq. simpl map. f_equal.
  - change (skipn 0 (b ++ x :: xs)) with (b ++ x :: xs).
    rewrite (firstn_app (S e)), Hb.
    replace (S e - e) with 1 by lia.
    rewrite firstn_all2 by lia. reflexivity.
  - rewrite <- seq_shift, map_map. apply map_ext. intros t.
    unfold push. destruct b as [|b0 b']; simpl; [reflexivity|].
    now rewrite <- app_assoc.
Qed.

Lemma push_length b x : length (push b x) = length b.
Proof.
  unfold push. destruct b; simpl; [reflexivity|].
  rewrite length_app. simpl. lia.
Qed.

Lemma window_run_some k d b xs :
  length b = extent k d ->
  window_run k d (Some b) xs = windows_from (extent k d) b xs.
Proof.
  revert b. induction xs as [|x xs IH]; intros b Hb; [reflexivity|].
  rewrite windows_from_cons by exact Hb. simpl. f_equal.
  apply IH. now rewrite push_length.
Qed.

(** The cache of the incremental mode holds exactly the window that the
    left padding gives the parallel mode. *)
Lemma window_run_cleared k d xs :
  window_run k d None xs = causal_windows k d xs.
Proof.
  destruct xs as [|x xs]; [reflexivity|].
  change (causal_windows k d (x :: xs))
    with (windows_from (extent k d) (repeat (zeros_like x) (extent k d)) (x :: xs)).
  rewrite windows_from_cons by apply repeat_length.
  simpl. f_equal. apply window_run_some.
  now rewrite push_length, repeat_length.
Qed.

Lemma conv_run_windows c xs :
  conv_run c xs =
  map (fun w => conv_weight c (taps (conv_kernel_size c) (conv_dilation c) w))
      (window_run (conv_kernel_size c) (conv_dilation c) (conv_buffer c) xs).
Proof.
  revert c. induction xs as [|x xs IH]; intros c; [reflexivity|].
  simpl. f_equal. now rewrite IH.
Qed.

(** A convolution layer with a cleared cache, run one timestep at a time,
    gives the outputs of its parallel pass. *)
Lemma conv_run_forward c xs :
  conv_buffer c = None -> conv_run c xs = conv_forward c xs.
Proof.
  intros Hc. rewrite conv_run_windows, Hc, window_run_cleared. reflexivity.
Qed.

Lemma block_run_windows b items :
  block_run b items =
  map (fun wi : list Frame * (Frame * Frame * option Frame) =>
         let '(w, (x, c, acc)) := wi in
         (fst (block_output b w x c), c, skips_add acc (snd (block_output b w x c))))
      (combine (window_run (block_kernel_size b) (block_dilation b) (block_buffer b)
                  (map (fun i => fst (fst i)) items))
               items).
Proof.
  revert b. induction items as [|[[x c] acc] items IH]; intros b; [reflexivity|].
  simpl. f_equal. now rewrite IH.
Qed.

Lemma combine3_xs {A B C} (xs : list A) (ys : list B) (zs : list C) :
  length ys = length xs -> length zs = length xs ->
  map (fun i => fst (fst i)) (combine3 xs ys zs) = xs.
Proof.
  revert ys zs. induction xs as [|x xs IH]; intros [|y ys] [|z zs] H1 H2;
    simpl in *; try lia; try reflexivity.
  f_equal. apply IH; lia.
Qed.

Lemma combine3_accs {A B C} (xs : list A) (ys : list B) (zs : list C) :
  length ys = length xs -> length zs = length xs ->
  map snd (combine3 xs ys zs) = zs.
Proof.
  revert ys zs. induction xs as [|x xs IH]; intros [|y ys] [|z zs] H1 H2;
    simpl in *; try lia; try reflexivity.
  f_equal. apply IH; lia.
Qed.

Lemma block_windows_zip b (W : list (list Frame)) xs cs accs :
  map (fun wi : list Frame * (Frame * Frame * option Frame) =>
         let '(w, (x, c, acc)) := wi in
         (fst (block_output b w x c), c, skips_add acc (snd (block_output b w x c))))
      (combine W (combine3 xs cs accs)) =
  let out := zip_with (fun wx c => block_output b (fst wx) (snd wx) c)
                      (combine W xs) cs in
  combine3 (map fst out) cs (zip_with skips_add accs (map snd out)).
Proof.
  revert xs cs accs.
  induction W as [|w W IH]; intros [|x xs] [|c cs] [|acc accs];
    simpl; try reflexivity.
  f_equal. apply IH.
Qed.

Lemma causal_windows_length k d xs : length (causal_windows k d xs) = length xs.
Proof. unfold causal_windows. now rewrite length_map, length_seq. Qed.

Lemma block_forward_length b xs cs :
  length cs = length xs -> length (block_forward b xs cs) = length xs.
Proof.
  intros H. unfold block_forward. rewrite zip_with_length.
  - rewrite length_combine, causal_windows_length. lia.
  - rewrite length_combine, causal_windows_length. lia.
Qed.

(** A block with a cleared cache, run one timestep at a time, gives the
    outputs of its parallel pass and adds its skip contributions to the
    accumulators. *)
Lemma block_run_forward b xs cs accs :
  block_buffer b = None ->
  length cs = length xs -> length accs = length xs ->
  block_run b (combine3 xs cs accs) =
  combine3 (map fst (block_forward b xs cs)) cs
           (zip_with skips_add accs (map snd (block_forward b xs cs))).
Proof.
  intros Hb Hc Ha.
  rewrite block_run_windows, Hb, combine3_xs, window_run_cleared by assumption.
  apply block_windows_zip.
Qed.

(** ** Interchanging the loop over time with the loop over layers *)

Lemma blocks_run_nil items : blocks_run [] items = map snd items.
Proof.
  induction items as [|[[x c] acc] items IH]; [reflexivity|].
  simpl. now rewrite IH.
Qed.

Lemma blocks_run_cons b rest items :
  blocks_run (b :: rest) items = blocks_run rest (block_run b items).
Proof.
  revert b rest. induction items as [|[[x c] acc] items IH]; intros b rest;
    [reflexivity|].
  simpl.
  destruct (blocks_incremental rest _ c _) as [[x2 sk2] rest1].
  f_equal. apply IH.
Qed.

Lemma last_run_nil xs : last_run [] xs = xs.
Proof. induction xs as [|x xs IH]; [reflexivity|]. simpl. now rewrite IH. Qed.

Lemma last_run_cons l rest xs :
  last_run (l :: rest) xs = last_run rest (layer_run l xs).
Proof.
  revert l rest. induction xs as [|x xs IH]; intros l rest.
  - destruct l; reflexivity.
  - destruct l as [c|f]; simpl.
    + destruct (last_incremental rest _) as [x2 rest1]. f_equal. apply IH.
    + destruct (last_incremental rest _) as [x2 rest1]. f_equal. apply IH.
Qed.

Lemma last_run_forward layers xs :
  Forall (fun l => last_buffer l = None) layers ->
  last_run layers xs = last_forward layers xs.
Proof.
  revert xs. induction layers as [|l layers IH]; intros xs H.
  - apply last_run_nil.
  - inversion H as [|? ? Hl Hrest]; subst.
    rewrite last_run_cons, IH by assumption.
    destruct l as [c|f]; simpl; [|reflexivity].
    now rewrite conv_run_forward.
Qed.

Lemma accs_of_length n skips :
  (forall s, skips = Some s -> length s = n) -> length (accs_of n skips) = n.
Proof.
  destruct skips as [s|]; simpl; intros H.
  - rewrite length_map. now apply H.
  - apply repeat_length.
Qed.

Lemma accs_of_add n skips hs :
  length hs = n -> (forall s, skips = Some s -> length s = n) ->
  zip_with skips_add (accs_of n skips) hs = accs_of n (skips_add_seq skips hs).
Proof.
  destruct skips as [s|]; simpl; intros Hh Hs.
  - specialize (Hs s eq_refl). rewrite <- Hh in Hs. clear Hh. revert hs Hs.
    induction s as [|a s IH]; intros [|h hs] Hs; simpl in *; try lia; try reflexivity.
    f_equal. apply IH. lia.
  - subst n. induction hs as [|h hs IH]; simpl; [reflexivity|]. now rewrite IH.
Qed.

(** The block loop, run one timestep at a time from cleared caches,
    accumulates at every timestep the skip sum of the parallel pass. *)
Lemma blocks_run_forward layers xs cs skips :
  Forall (fun b => block_buffer b = None) layers ->
  length cs = length xs ->
  (forall s, skips = Some s -> length s = length xs) ->
  blocks_run layers (combine3 xs cs (accs_of (length xs) skips)) =
  accs_of (length xs) (snd (blocks_forward layers xs cs skips)).
Proof.
  revert xs skips. induction layers as [|b layers IH]; intros xs skips Hb Hc Hs.
  - rewrite blocks_run_nil, combine3_accs; [reflexivity|assumption|].
    now apply accs_of_length.
  - inversion Hb as [|? ? Hb1 Hb2]; subst.
    rewrite blocks_run_cons, block_run_forward;
      [|assumption|assumption|now apply accs_of_length].
    simpl blocks_forward.
    assert (Hl : length (block_forward b xs cs) = length xs)
      by now apply block_forward_length.
    rewrite accs_of_add; [|now rewrite length_map|assumption].
    rewrite <- (length_map fst (block_forward b xs cs)) in Hl.
    rewrite <- Hl.
    apply IH; [assumption|lia|].
    intros s Heq. destruct skips as [s0|]; simpl in Heq; inversion Heq; subst.
    + rewrite zip_with_length; rewrite (Hs s0 eq_refl); [lia|].
      rewrite !length_map in *. lia.
    + rewrite !length_map in *. lia.
Qed.

(** ** The parallel pass does not read the caches *)

Lemma blocks_forward_clear layers xs cs skips :
  blocks_forward (map (fun b => block_set_buffer b None) layers) xs cs skips =
  blocks_forward layers xs cs skips.
Proof.
  revert xs skips. induction layers as [|b layers IH]; intros xs skips;
    [reflexivity|].
  simpl. apply IH.
Qed.

Lemma last_forward_clear layers xs :
  last_forward (map last_clear layers) xs = last_forward layers xs.
Proof.
  revert xs. induction layers as [|[c|f] layers IH]; intros xs; simpl;
    [reflexivity| |]; apply IH.
Qed.

Lemma stack_forward_clear n xs cs :
  stack_forward (clear_buffer n) xs cs = stack_forward n xs cs.
Proof.
  unfold stack_forward, clear_buffer. simpl.
  rewrite blocks_forward_clear, length_map.
  destruct (blocks_forward _ _ _ _) as [xs2 skips].
  destruct (sqrt_recip _); [|reflexivity].
  now rewrite last_forward_clear.
Qed.

Lemma clear_buffer_cleared n : buffers_cleared (clear_buffer n).
Proof.
  unfold buffers_cleared, buffers, clear_buffer. simpl.
  constructor; [reflexivity|]. apply Forall_app. split.
  - rewrite !Forall_map. apply Forall_forall. reflexivity.
  - rewrite !Forall_map. apply Forall_forall. intros [c|f] _; reflexivity.
Qed.

(** ** The timestep loop as a composition of layer runs *)

Lemma blocks_incremental_length layers x c skips :
  length (snd (blocks_incremental layers x c skips)) = length layers.
Proof.
  revert x skips. induction layers as [|b layers IH]; intros x skips;
    [reflexivity|].
  simpl. specialize (IH (fadd x (block_res b (block_gate b
    (taps (block_kernel_size b) (block_dilation b)
       (history (block_buffer b) (block_kernel_size b) (block_dilation b) x ++ [x])) c)))
    (skips_add skips (block_skip b (block_gate b
    (taps (block_kernel_size b) (block_dilation b)
       (history (block_buffer b) (block_kernel_size b) (block_dilation b) x ++ [x])) c)))).
  destruct (blocks_incremental layers _ c _) as [[x2 sk2] rest1].
  simpl in *. now rewrite IH.
Qed.

Lemma incremental_run_layers xs cs n s :
  sqrt_recip (length (conv_layers n)) = Ok s ->
  incremental_run n (combine xs cs) =
  Ok (last_run (last_conv_layers n)
        (map (fun sk => fscale s (match sk with Some f => f | None => [] end))
           (blocks_run (conv_layers n)
              (combine3 (conv_run (first_conv n) xs) cs
                        (repeat None (length xs)))))).
Proof.
  revert cs n. induction xs as [|x xs IH]; intros cs n Hs; [reflexivity|].
  destruct cs as [|c cs]; [reflexivity|].
  pose proof (blocks_incremental_length (conv_layers n)
    (fst (conv_incremental_forward (first_conv n) x)) c None) as Hlen.
  simpl in Hlen |- *. unfold stack_step, skip_path. simpl.
  destruct (blocks_incremental (conv_layers n) _ c None) as [[x2 sk2] cl].
  simpl in Hlen.
  unfold scale_skips. rewrite Hs. simpl.
  destruct (last_incremental (last_conv_layers n) _) as [x3 ll].
  rewrite IH by (simpl; now rewrite Hlen).
  reflexivity.
Qed.

Lemma blocks_forward_some layers xs cs s :
  exists s', snd (blocks_forward layers xs cs (Some s)) = Some s'.
Proof.
  revert xs s. induction layers as [|b layers IH]; intros xs s; simpl.
  - now exists s.
  - apply IH.
Qed.

Lemma conv_forward_length c xs : length (conv_forward c xs) = length xs.
Proof. unfold conv_forward. now rewrite length_map, causal_windows_length. Qed.

Lemma transpose_1_2_length s : length (transpose_1_2 s) = size_last s.
Proof. unfold transpose_1_2. now rewrite length_map, length_seq. Qed.

Lemma incremental_run_length n inputs ys :
  incremental_run n inputs = Ok ys -> length ys = length inputs.
Proof.
  revert n ys. induction inputs as [|[x ct] inputs IH]; intros n ys H; simpl in H.
  - now inversion H.
  - destruct (stack_step n x ct) as [[y|e] n1]; [|discriminate].
    destruct (incremental_run n1 inputs) as [ys'|e] eqn:Hrun; [|discriminate].
    inversion H; subst. simpl. f_equal. now apply (IH n1).
Qed.

Lemma stack_mode_equivalence n xs cs :
  conv_layers n <> [] -> length cs = length xs ->
  exists ys,
    stack_forward n xs cs = Ok ys /\
    incremental_run (clear_buffer n) (combine xs cs) = Ok ys.
Proof.
  intros Hne Hlen.
  destruct (sqrt_recip (length (conv_layers n))) as [s|e] eqn:Hs.
  2:{ destruct (conv_layers n); [contradiction|discriminate]. }
  pose proof (clear_buffer_cleared n) as Hclear.
  unfold buffers_cleared, buffers in Hclear.
  apply Forall_cons_iff in Hclear. destruct Hclear as [Hfc Hrest].
  apply Forall_app in Hrest. destruct Hrest as [Hcl Hll].
  rewrite Forall_map in Hcl, Hll.
  rewrite (incremental_run_layers xs cs (clear_buffer n) s)
    by (simpl; now rewrite length_map).
  rewrite <- stack_forward_clear. unfold stack_forward.
  replace (length (conv_layers (clear_buffer n))) with (length (conv_layers n))
    by (simpl; now rewrite length_map).
  rewrite Hs.
  rewrite last_run_forward by assumption.
  rewrite conv_run_forward by assumption.
  set (xs1 := conv_forward (first_conv (clear_buffer n)) xs).
  assert (Hx1 : length xs1 = length xs) by apply conv_forward_length.
  rewrite <- Hx1.
  change (repeat None (length xs1)) with (accs_of (length xs1) (@None (list Frame))).
  rewrite blocks_run_forward; [|assumption|lia|discriminate].
  destruct (blocks_forward (conv_layers (clear_buffer n)) xs1 cs None)
    as [xs2 skips] eqn:Hbf.
  assert (Hsome : exists sk, skips = Some sk).
  { replace skips with (snd (blocks_forward (conv_layers (clear_buffer n)) xs1 cs None))
      by now rewrite Hbf.
    destruct (conv_layers (clear_buffer n)) as [|b rest] eqn:Hl.
    - simpl in Hl. destruct (conv_layers n); [contradiction|discriminate].
    - simpl. apply blocks_forward_some. }
  destruct Hsome as [sk ->]. simpl.
  eexists. split; [reflexivity|].
  now rewrite map_map.
Qed.

(** ** The label transforms *)

Lemma Int_part_bounds (r : R) :
  (IZR (Int_part r) <= r < IZR (Int_part r) + 1)%R.
Proof. destruct (base_Int_part r) as [H1 H2]. lra. Qed.

Lemma trunc_nonneg (r : R) : (0 <= r)%R -> trunc r = Int_part r.
Proof. intros H. unfold trunc. destruct (Rle_dec 0 r); [reflexivity|contradiction]. Qed.

(** C6. For every amplitude [x] in [-1, 1] and every class count above one,
    [label_2_float] undoes [float_2_label] exactly, [float_2_label] maps
    [-1, 1] into [0, n_classes - 1], on that range [float_2_label] undoes
    [label_2_float], which maps it back into [-1, 1], and rounding the label to
    an integer, as [generate] does with [.long()], moves the amplitude by
    less than one quantization step [2 / (n_classes - 1)]. *)
Theorem label_round_trip (x : R) (n_classes : Z) :
  (1 < n_classes)%Z -> (-1 <= x <= 1)%R ->
  label_2_float (float_2_label x n_classes) n_classes = x /\
  (0 <= float_2_label x n_classes <= IZR n_classes - 1)%R /\
  (forall y : R, (0 <= y <= IZR n_classes - 1)%R ->
     float_2_label (label_2_float y n_classes) n_classes = y /\
     (-1 <= label_2_float y n_classes <= 1)%R) /\
  (Rabs (label_2_float (IZR (trunc (float_2_label x n_classes))) n_classes - x)
   < 2 / (IZR n_classes - 1))%R.
Proof.
  intros Hn Hx.
  assert (Hm : (0 < IZR n_classes - 1)%R).
  { apply IZR_lt in Hn. lra. }
  assert (Hf : (0 <= float_2_label x n_classes <= IZR n_classes - 1)%R).
  { unfold float_2_label. split; nra. }
  split; [|split; [exact Hf|split]].
  - unfold label_2_float, float_2_label. field. lra.
  - intros y Hy. split.
    + unfold label_2_float, float_2_label. field. lra.
    + unfold label_2_float. split.
      * assert (0 <= 2 * y / (IZR n_classes - 1))%R; [|lra].
        apply Rmult_le_pos; [lra|]. left. now apply Rinv_0_lt_compat.
      * assert (2 * y / (IZR n_classes - 1) <= 2)%R; [|lra].
        apply (Rmult_le_reg_r (IZR n_classes - 1)); [exact Hm|].
        unfold Rdiv. rewrite Rmult_assoc, Rinv_l by lra. lra.
  - rewrite trunc_nonneg by apply Hf.
    pose proof (Int_part_bounds (float_2_label x n_classes)) as Hi.
    set (k := IZR (Int_part (float_2_label x n_classes))) in *.
    assert (Hxy : x = (2 * float_2_label x n_classes / (IZR n_classes - 1) - 1)%R)
      by (unfold float_2_label; field; lra).
    set (y := float_2_label x n_classes) in *.
    unfold label_2_float.
    assert (Hinv : (0 < / (IZR n_classes - 1))%R) by now apply Rinv_0_lt_compat.
    replace (2 * k / (IZR n_classes - 1) - 1 - x)%R
      with (2 * (k - y) * / (IZR n_classes - 1))%R by (rewrite Hxy; field; lra).
    unfold Rdiv. apply Rabs_def1; nra.
Qed.

(** C6, witness: the amplitude 0 with 256 classes. *)
Lemma label_round_trip_witness :
  label_2_float (float_2_label 0 256) 256 = 0%R /\
  (0 <= float_2_label 0 256 <= IZR 256 - 1)%R /\
  (forall y : R, (0 <= y <= IZR 256 - 1)%R ->
     float_2_label (label_2_float y 256) 256 = y /\
     (-1 <= label_2_float y 256 <= 1)%R) /\
  (Rabs (label_2_float (IZR (trunc (float_2_label 0 256))) 256 - 0)
   < 2 / (IZR 256 - 1))%R.
Proof. apply (label_round_trip 0 256); [lia | lra]. Defined.

(** C1. For every network with at least one block, every input history
    [xs] and every conditioning tensor whose upsampled length is the length
    of [xs]: the parallel pass over the whole sequence returns, the
    incremental mode started from cleared caches and fed input [t] and
    conditioning frame [t] at step [t] returns, and both give the same
    distribution parameters at every timestep. *)
Theorem mode_equivalence (n : Net) (xs : list Frame) (c : Tensor3) :
  conv_layers n <> [] ->
  length xs = size_last (upsample_net n c) ->
  exists ys,
    forward n xs c = Ok ys /\
    incremental_run (clear_buffer n)
      (combine xs (transpose_1_2 (upsample_net n c))) = Ok ys /\
    length ys = length xs.
Proof.
  intros Hne Hlen. unfold forward. cbv zeta.
  rewrite transpose_1_2_length, (proj2 (Nat.eqb_eq _ _) Hlen).
  destruct (stack_mode_equivalence n xs (transpose_1_2 (upsample_net n c)) Hne)
    as [ys [Hf Hi]].
  - now rewrite transpose_1_2_length.
  - exists ys. split; [exact Hf|]. split; [exact Hi|].
    apply incremental_run_length in Hi. rewrite Hi, length_combine.
    rewrite transpose_1_2_length. lia.
Qed.

Section ClassProperties.

Context (ext : Collaborators).

(** ** The phases of [generate] *)

Lemma generate_unfold sp tr (w : World ext) :
  generate ext sp tr w =
  match generate_loop ext w sp tr with
  | (Raise e, w2) => (Raise e, w2)
  | (Ok (_, output), w2) =>
      match stack_transpose output with
      | Raise e => (Raise e, w2)
      | Ok output1 =>
          match decode (self w2) output1 with
          | Raise e => (Raise e, w2)
          | Ok output2 => (Ok (flatten output2), end_generate w2)
          end
      end
  end.
Proof.
  unfold generate, generate_loop, bind, model_eval, module_clear_buffer,
    model_train, update_module, update_self, emit, get, lift, ret. simpl.
  fold (begin_generate w).
  destruct (for_each _ _ _ _ _) as [[[x output]|e] w2]; [|reflexivity].
  destruct (stack_transpose output) as [o1|e]; [|reflexivity].
  destruct (decode (self w2) o1) as [o2|e]; reflexivity.
Qed.

(** ** The sampler *)

Lemma same_object_refl (s : WaveNet ext) : same_object s s.
Proof. repeat split. Qed.

Lemma same_object_trans (s1 s2 s3 : WaveNet ext) :
  same_object s1 s2 -> same_object s2 s3 -> same_object s1 s3.
Proof.
  unfold same_object. intros (a1 & a2 & a3 & a4 & a5 & a6 & a7)
    (b1 & b2 & b3 & b4 & b5 & b6 & b7).
  repeat split; congruence.
Qed.

Lemma same_object_set_module (s : WaveNet ext) n : same_object s (set_module s n).
Proof. repeat split. Qed.

Lemma dist_ok_same (s s' : WaveNet ext) :
  same_object s s' -> dist_ok s -> dist_ok s'.
Proof.
  unfold dist_ok. intros (Hc & Hs & _) H. rewrite Hc, Hs. exact H.
Qed.

Lemma chunks_rows {A} (w n : nat) (l : list A) :
  n * w <= length l ->
  length (chunks w n l) = n /\ Forall (fun row => length row = w) (chunks w n l).
Proof.
  revert l. induction n as [|n IH]; intros l H; simpl.
  - split; [reflexivity|constructor].
  - destruct (IH (skipn w l)) as [H1 H2].
    + rewrite length_skipn. simpl in H. lia.
    + split; [now rewrite H1|].
      constructor; [|exact H2]. rewrite length_firstn. simpl in H. lia.
Qed.

Lemma view_rows (B : nat) (y : Frame) :
  length (view B y) = B /\
  Forall (fun row => length row = numel y / B) (view B y).
Proof.
  unfold view. apply chunks_rows. fold (numel y).
  destruct B as [|B]; [simpl; lia|].
  apply Nat.Div0.mul_div_le.
Qed.

Lemma one_hot_categorical_spec (rows : Frame) (w : World ext) :
  exists x r,
    one_hot_categorical ext rows w =
      (Ok x, {| self := self w; rng := r; trace := trace w |}) /\
    length x = length rows /\
    forall width, Forall (fun p => length p = width) rows ->
      Forall (fun row => exists i, row = one_hot_row width i) x.
Proof.
  revert w. induction rows as [|p rows IH]; intros w.
  - exists [], (rng w). destruct w; simpl. repeat split. intros; constructor.
  - simpl. unfold bind, draw.
    destruct (categorical_sample ext p (rng w)) as [i r1].
    destruct (IH {| self := self w; rng := r1; trace := trace w |})
      as (x & r & Hrun & Hlen & Hrows).
    rewrite Hrun. simpl. exists (one_hot_row (length p) i :: x), r.
    split; [reflexivity|]. split; [simpl; now rewrite Hlen|].
    intros width Hw. inversion Hw; subst. constructor.
    + now exists i.
    + now apply Hrows.
Qed.

Lemma get_x_from_dist_ok distrib (y : Frame) hist B (w : World ext) :
  (scalar_input (self w) = true ->
     distrib = "Logistic" \/ distrib = "Normal") ->
  exists x w',
    get_x_from_dist ext distrib y hist B true true w = (Ok (x, hist ++ [x]), w') /\
    self w' = self w /\ trace w' = trace w /\
    sampled ext (scalar_input (self w)) B y x.
Proof.
  intros Hd. unfold get_x_from_dist, bind, get. simpl.
  destruct (scalar_input (self w)) eqn:Hs.
  - destruct (Hd eq_refl) as [-> | ->]; simpl; unfold draw.
    + destruct (sample_from_discretized_mix_logistic ext (view B y) (rng w))
        as [x r] eqn:Hx.
      eexists _, _. split; [reflexivity|]. simpl.
      split; [reflexivity|]. split; [reflexivity|].
      exists (rng w). left. now rewrite Hx.
    + destruct (sample_from_mix_gaussian ext (view B y) (rng w)) as [x r] eqn:Hx.
      eexists _, _. split; [reflexivity|]. simpl.
      split; [reflexivity|]. split; [reflexivity|].
      exists (rng w). right. now rewrite Hx.
  - destruct (one_hot_categorical_spec (map softmax_row (view B y)) w)
      as (x & r & Hrun & Hlen & Hrows).
    rewrite Hrun. simpl. eexists _, _. split; [reflexivity|]. simpl.
    split; [reflexivity|]. split; [reflexivity|]. split.
    + rewrite Hlen, length_map. apply (proj1 (view_rows B y)).
    + apply Hrows. rewrite Forall_map.
      eapply List.Forall_impl; [|apply (proj2 (view_rows B y))].
      intros row Hrow. unfold softmax_row. now rewrite length_map.
Qed.

Lemma get_x_from_dist_raise distrib (y : Frame) hist B (w : World ext) e w' :
  (scalar_input (self w) = true ->
     distrib = "Logistic" \/ distrib = "Normal") ->
  get_x_from_dist ext distrib y hist B true true w <> (Raise e, w').
Proof.
  intros Hd H.
  destruct (get_x_from_dist_ok distrib y hist B w Hd) as (x & w1 & Hrun & _).
  congruence.
Qed.

(** ** One timestep *)

Lemma timestep_unfold frames B t x output (w : World ext) :
  timestep ext frames B t (x, output) w =
  match nth_error frames t with
  | None =>
      (Raise IndexError,
       {| self := self w; rng := rng w; trace := trace w ++ [EvTimestep t] |})
  | Some ct =>
      match stack_step (module (self w)) x ct with
      | (Raise e, n1) => (Raise e, stepped w t n1)
      | (Ok y, n1) =>
          get_x_from_dist ext (output_distribution (model (config (self w))))
                          y output B true true (stepped w t n1)
      end
  end.
Proof.
  unfold timestep, bind, emit, lift, select_time, incremental_step, get. simpl.
  destruct (nth_error frames t) as [ct|]; [|reflexivity].
  destruct (stack_step (module (self w)) x ct) as [[y|e] n1]; reflexivity.
Qed.

Lemma stack_step_raise n x ct e n1 :
  stack_step n x ct = (Raise e, n1) -> e = ZeroDivisionError /\ conv_layers n = [].
Proof.
  unfold stack_step, skip_path. simpl.
  destruct (blocks_incremental (conv_layers n) _ ct None) as [[x2 sk] cl].
  unfold scale_skips, sqrt_recip.
  destruct (conv_layers n) as [|b rest]; simpl.
  - intros H. inversion H. now split.
  - destruct (last_incremental (last_conv_layers n) _) as [x3 ll]. discriminate.
Qed.

Lemma stack_step_layers n x ct r n1 :
  stack_step n x ct = (r, n1) ->
  length (conv_layers n1) = length (conv_layers n) /\
  upsample_net n1 = upsample_net n /\ training n1 = training n.
Proof.
  unfold stack_step, skip_path. simpl.
  pose proof (blocks_incremental_length (conv_layers n)
    (fst (conv_incremental_forward (first_conv n) x)) ct None) as Hlen.
  simpl in Hlen.
  destruct (blocks_incremental (conv_layers n) _ ct None) as [[x2 sk] cl].
  simpl in Hlen.
  destruct (scale_skips (length (conv_layers n)) sk) as [x3|e]; simpl.
  - destruct (last_incremental (last_conv_layers n) x3) as [x4 ll].
    intros H. inversion H; subst. simpl. now repeat split.
  - intros H. inversion H; subst. simpl. now repeat split.
Qed.

Lemma stack_step_ok n x ct :
  conv_layers n <> [] -> exists y n1, stack_step n x ct = (Ok y, n1).
Proof.
  intros Hne. destruct (stack_step n x ct) as [[y|e] n1] eqn:H.
  - now exists y, n1.
  - apply stack_step_raise in H. destruct H as [_ H]. contradiction.
Qed.

Lemma nonempty_invariant :
  step_invariant (fun n => conv_layers n <> []) (fun _ => True).
Proof.
  intros n x ct Hne. destruct (stack_step_ok n x ct Hne) as (y & n1 & H).
  exists y, n1. split; [exact H|]. split; [|exact I].
  apply stack_step_layers in H. destruct H as [H _].
  destruct (conv_layers n1); [|discriminate].
  destruct (conv_layers n); [contradiction|discriminate].
Qed.

Lemma timestep_ok frames B t x output (w : World ext) ct y n1 :
  dist_ok (self w) ->
  nth_error frames t = Some ct ->
  stack_step (module (self w)) x ct = (Ok y, n1) ->
  exists x' w',
    timestep ext frames B t (x, output) w = (Ok (x', output ++ [x']), w') /\
    same_object (self w) (self w') /\ module (self w') = n1 /\
    trace w' = trace w ++ [EvTimestep t] /\
    sampled ext (scalar_input (self w)) B y x'.
Proof.
  intros Hd Hct Hstep. rewrite timestep_unfold, Hct, Hstep.
  destruct (get_x_from_dist_ok (output_distribution (model (config (self w))))
              y output B (stepped w t n1)) as (x' & w' & Hrun & Hself & Htr & Hcat).
  { exact Hd. }
  exists x', w'. split; [exact Hrun|]. rewrite Hself, Htr. simpl.
  split; [apply same_object_set_module|].
  split; [reflexivity|]. split; [reflexivity|]. exact Hcat.
Qed.

Lemma timestep_same frames B t vars (w : World ext) vars' w' :
  timestep ext frames B t vars w = (Ok vars', w') ->
  same_object (self w) (self w').
Proof.
  destruct vars as [x output]. rewrite timestep_unfold.
  destruct (nth_error frames t) as [ct|]; [|discriminate].
  destruct (stack_step (module (self w)) x ct) as [[y|e] n1]; [|discriminate].
  unfold get_x_from_dist, bind, get. simpl.
  destruct (scalar_input (self w)).
  - destruct (String.eqb _ "Logistic").
    + unfold draw. destruct (sample_from_discretized_mix_logistic _ _ _).
      simpl. intros H. inversion H. apply same_object_set_module.
    + destruct (String.eqb _ "Normal"); [|discriminate].
      unfold draw. destruct (sample_from_mix_gaussian _ _ _).
      simpl. intros H. inversion H. apply same_object_set_module.
  - destruct (one_hot_categorical_spec (map softmax_row (view B y)) (stepped w t n1))
      as (x' & r & Hrun & _).
    rewrite Hrun. simpl. intros H. inversion H. apply same_object_set_module.
Qed.

(** The sampler is the only place that raises [AssertionError], and it
    does so only for a scalar input with an unknown distribution family. *)
Lemma timestep_no_assertion frames B t vars (w : World ext) w' :
  dist_ok (self w) ->
  timestep ext frames B t vars w <> (Raise AssertionError, w').
Proof.
  intros Hd. destruct vars as [x output]. rewrite timestep_unfold.
  destruct (nth_error frames t) as [ct|]; [|discriminate].
  destruct (stack_step (module (self w)) x ct) as [[y|e] n1] eqn:Hstep.
  - apply get_x_from_dist_raise. exact Hd.
  - apply stack_step_raise in Hstep. destruct Hstep as [-> _]. discriminate.
Qed.

(** ** The timestep loop *)

Lemma for_each_no_assertion frames B ts vars (w : World ext) w' :
  dist_ok (self w) ->
  for_each ext (timestep ext frames B) ts vars w <> (Raise AssertionError, w').
Proof.
  revert vars w. induction ts as [|t ts IH]; intros vars w Hd; simpl.
  - discriminate.
  - unfold bind.
    destruct (timestep ext frames B t vars w) as [[vars1|e] w1] eqn:Hstep.
    + apply IH. eapply dist_ok_same; [|exact Hd].
      eapply timestep_same. exact Hstep.
    + intros H. inversion H; subst.
      exact (timestep_no_assertion frames B t vars w w' Hd Hstep).
Qed.

Lemma for_each_ok (I : Net -> Prop) (L : Frame -> Prop) frames B :
  step_invariant I L ->
  forall ts x0 out0 (w : World ext),
    (forall t, In t ts -> t < length frames) ->
    I (module (self w)) -> dist_ok (self w) ->
    exists x' samples w',
      for_each ext (timestep ext frames B) ts (x0, out0) w
        = (Ok (x', out0 ++ samples), w') /\
      length samples = length ts /\
      trace w' = trace w ++ map EvTimestep ts /\
      same_object (self w) (self w') /\
      I (module (self w')) /\
      Forall (fun x => exists y, L y /\ sampled ext (scalar_input (self w)) B y x)
             samples.
Proof.
  intros Hinv. induction ts as [|t ts IH]; intros x0 out0 w Hts HI Hd.
  - exists x0, [], w. simpl. rewrite !app_nil_r.
    repeat split; try reflexivity; try assumption. constructor.
  - destruct (nth_error frames t) as [ct|] eqn:Hct.
    2:{ apply nth_error_None in Hct. specialize (Hts t (or_introl eq_refl)). lia. }
    destruct (Hinv (module (self w)) x0 ct HI) as (y & n1 & Hstep & HI1 & HL).
    destruct (timestep_ok frames B t x0 out0 w ct y n1 Hd Hct Hstep)
      as (x1 & w1 & Hrun & Hsame & Hmod & Htr & Hcat).
    destruct (IH x1 (out0 ++ [x1]) w1) as (x' & samples & w' & Hrun' & Hlen & Htr' & Hsame' & HI' & Hcat').
    { intros t' Ht'. apply Hts. now right. }
    { now rewrite Hmod. }
    { eapply dist_ok_same; eassumption. }
    exists x', (x1 :: samples), w'. cbn [for_each length map]. unfold bind.
    rewrite Hrun, Hrun'.
    split; [now rewrite <- app_assoc|]. split; [now rewrite Hlen|].
    split; [rewrite Htr', Htr, <- app_assoc; reflexivity|].
    split; [eapply same_object_trans; eassumption|]. split; [exact HI'|].
    constructor.
    + exists y. split; [exact HL|exact Hcat].
    + destruct Hsame as (_ & Hsc & _). now rewrite <- Hsc.
Qed.

(** ** The skip sum *)

Lemma fold_skips_some hs a :
  fold_left skips_add hs (Some a) = Some (fold_left fadd hs a).
Proof.
  revert a. induction hs as [|h hs IH]; intros a; [reflexivity|].
  simpl. apply IH.
Qed.

Lemma blocks_incremental_skips bs x ct acc :
  snd (fst (blocks_incremental bs x ct acc)) =
  fold_left skips_add (block_skips bs x ct) acc.
Proof.
  revert x acc. induction bs as [|b bs IH]; intros x acc; [reflexivity|].
  simpl.
  specialize (IH (fst (fst (block_incremental_forward b x ct)))
                 (skips_add acc (snd (fst (block_incremental_forward b x ct))))).
  simpl in IH.
  destruct (blocks_incremental bs _ ct _) as [[x2 sk2] rest1].
  simpl in *. exact IH.
Qed.

Lemma block_skips_length bs x ct : length (block_skips bs x ct) = length bs.
Proof.
  revert x. induction bs as [|b bs IH]; intros x; [reflexivity|].
  simpl. now rewrite IH.
Qed.

Lemma sqrt_recip_inv n : n <> 0 -> sqrt_recip n = Ok (1 / sqrt (INR n))%R.
Proof.
  intros Hn. destruct n as [|n]; [contradiction|].
  unfold sqrt_recip. f_equal. unfold Rdiv. rewrite !Rmult_1_l. apply sqrt_inv.
Qed.

Lemma skip_path_scaled n x ct :
  conv_layers n <> [] ->
  fst (skip_path n x ct) =
  Ok (fscale (1 / sqrt (INR (length (conv_layers n))))
        (fsum (block_skips (conv_layers n)
                 (fst (conv_incremental_forward (first_conv n) x)) ct))).
Proof.
  intros Hne. unfold skip_path. simpl.
  pose proof (blocks_incremental_skips (conv_layers n)
    (fst (conv_incremental_forward (first_conv n) x)) ct None) as Hsk.
  simpl in Hsk.
  destruct (blocks_incremental (conv_layers n) _ ct None) as [[x2 sk] cl].
  simpl in *. subst sk. unfold scale_skips.
  rewrite sqrt_recip_inv by (destruct (conv_layers n); [contradiction|discriminate]).
  destruct (conv_layers n) as [|b bs]; [contradiction|].
  simpl. now rewrite fold_skips_some.
Qed.

Lemma nth_zip_with {A B C} (f : A -> B -> C) xs ys i dx dy d :
  i < length xs -> length ys = length xs ->
  nth i (zip_with f xs ys) d = f (nth i xs dx) (nth i ys dy).
Proof.
  revert ys i. induction xs as [|x xs IH]; intros [|y ys] i Hi Hl; simpl in *; try lia.
  destruct i as [|i]; [reflexivity|]. apply IH; lia.
Qed.

Lemma frame_shape_row B C x b :
  frame_shape B C x -> b < B -> length (nth b x []) = C.
Proof.
  intros [Hl Hr] Hb. rewrite List.Forall_forall in Hr. apply Hr, nth_In. lia.
Qed.

Lemma fadd_shape B C x y :
  frame_shape B C x -> frame_shape B C y -> frame_shape B C (fadd x y).
Proof.
  intros Hx Hy. pose proof Hx as [Hlx _]. pose proof Hy as [Hly _].
  unfold fadd. split.
  - rewrite zip_with_length; lia.
  - apply List.Forall_forall. intros row Hin.
    apply (In_nth _ _ []) in Hin. destruct Hin as (b & Hb & <-).
    rewrite zip_with_length in Hb by lia.
    rewrite (nth_zip_with _ _ _ _ [] []) by lia.
    rewrite zip_with_length.
    + apply frame_shape_row with (B := B); [exact Hx|lia].
    + rewrite (frame_shape_row B C x b), (frame_shape_row B C y b);
        [reflexivity|exact Hy|lia|exact Hx|lia].
Qed.

Lemma entry_fadd B C x y b c :
  frame_shape B C x -> frame_shape B C y -> b < B -> c < C ->
  entry b c (fadd x y) = (entry b c x + entry b c y)%R.
Proof.
  intros Hx Hy Hb Hc. pose proof Hx as [Hlx _]. pose proof Hy as [Hly _].
  unfold entry, fadd.
  rewrite (nth_zip_with _ _ _ _ [] []) by lia.
  pose proof (frame_shape_row B C x b Hx Hb) as Hrx.
  pose proof (frame_shape_row B C y b Hy Hb) as Hry.
  apply nth_zip_with; lia.
Qed.

Lemma fscale_shape B C s x : frame_shape B C x -> frame_shape B C (fscale s x).
Proof.
  intros [Hl Hr]. unfold fscale. split; [now rewrite length_map|].
  rewrite List.Forall_map. eapply List.Forall_impl; [|exact Hr].
  intros row Hrow. simpl. now rewrite length_map.
Qed.

Lemma entry_fscale B C s x b c :
  frame_shape B C x -> b < B -> c < C ->
  entry b c (fscale s x) = (s * entry b c x)%R.
Proof.
  intros Hx Hb Hc. unfold entry, fscale.
  change (@nil R) with (map (Rmult s) []) at 1. rewrite map_nth.
  rewrite (nth_indep _ 0%R (s * 0)%R).
  - apply map_nth.
  - rewrite length_map, (frame_shape_row B C x b Hx Hb). exact Hc.
Qed.

Lemma fold_fadd_entries B C hs a b c :
  frame_shape B C a -> Forall (frame_shape B C) hs -> b < B -> c < C ->
  frame_shape B C (fold_left fadd hs a) /\
  entry b c (fold_left fadd hs a) = (entry b c a + rsum (map (entry b c) hs))%R.
Proof.
  intros Ha Hhs Hb Hc. revert a Ha.
  induction Hhs as [|h hs Hh Hhs IH]; intros a Ha; simpl.
  - split; [exact Ha|]. lra.
  - destruct (IH (fadd a h) (fadd_shape B C a h Ha Hh)) as [Hs He].
    split; [exact Hs|]. rewrite He, (entry_fadd B C a h b c Ha Hh Hb Hc). lra.
Qed.

Lemma fold_fadd_shape B C hs a :
  frame_shape B C a -> Forall (frame_shape B C) hs ->
  frame_shape B C (fold_left fadd hs a).
Proof.
  intros Ha Hhs. revert a Ha.
  induction Hhs as [|h hs Hh Hhs IH]; intros a Ha; simpl; [exact Ha|].
  apply IH. now apply fadd_shape.
Qed.

(** C7. In every incremental generation step, whatever the configured
    distribution family and input encoding of the object, with at least
    one block and skip contributions of one shape [B x C]: every block
    contributes one skip frame; every entry of the frame the output
    projection receives is the sum, over all blocks, of that entry of the
    blocks' contributions, multiplied by [1 / sqrt(number of conv layers)];
    and the distribution parameters of the step are the output projection
    of that frame. *)
Theorem skip_sum_scaled (w : World ext) (x ct : Frame) (B C : nat) :
  conv_layers (module (self w)) <> [] ->
  let n := module (self w) in
  let hs := block_skips (conv_layers n)
              (fst (conv_incremental_forward (first_conv n) x)) ct in
  Forall (frame_shape B C) hs ->
  exists scaled,
    length hs = length (conv_layers n) /\
    fst (skip_path n x ct) = Ok scaled /\
    frame_shape B C scaled /\
    (forall b c, b < B -> c < C ->
       entry b c scaled =
       (rsum (map (entry b c) hs)
        * (1 / sqrt (INR (length (conv_layers n)))))%R) /\
    fst (incremental_step ext x ct w) =
      Ok (fst (last_incremental (last_conv_layers n) scaled)).
Proof.
  intros Hne n hs Hshape.
  pose proof (skip_path_scaled n x ct Hne) as Hsp. fold hs in Hsp.
  exists (fscale (1 / sqrt (INR (length (conv_layers n)))) (fsum hs)).
  assert (Hlen : length hs = length (conv_layers n)) by apply block_skips_length.
  split; [exact Hlen|]. split; [exact Hsp|].
  assert (Hsum : frame_shape B C (fsum hs) /\
                 forall b c, b < B -> c < C ->
                   entry b c (fsum hs) = rsum (map (entry b c) hs)).
  { clearbody hs. destruct hs as [|h rest].
    - symmetry in Hlen. apply length_zero_iff_nil in Hlen. contradiction.
    - inversion Hshape as [|h' rest' Hh Hrest]; subst. simpl. split.
      + now apply fold_fadd_shape.
      + intros b c Hb Hc.
        now destruct (fold_fadd_entries B C rest h b c Hh Hrest Hb Hc). }
  destruct Hsum as [Hfs Hentries].
  split; [now apply fscale_shape|]. split.
  - intros b c Hb Hc.
    rewrite (entry_fscale B C _ _ b c Hfs Hb Hc), (Hentries b c Hb Hc). ring.
  - unfold incremental_step, stack_step. fold n.
    destruct (skip_path n x ct) as [r n1] eqn:Hpath. simpl in Hsp. subst r.
    assert (Hll : last_conv_layers n1 = last_conv_layers n).
    { unfold skip_path in Hpath. simpl in Hpath.
      destruct (blocks_incremental (conv_layers n) _ ct None) as [[x2 sk] cl].
      inversion Hpath. reflexivity. }
    rewrite Hll.
    destruct (last_incremental (last_conv_layers n) _) as [x3 ll].
    reflexivity.
Qed.

(** ** What the training calls return *)

Lemma train_step_result sp wf (w : World ext) :
  fst (train_step ext sp wf w) =
  match fst (loss ext sp wf w) with
  | Ok l => Ok (l, ∅)
  | Raise e => Raise e
  end.
Proof.
  unfold train_step, bind at 1.
  destruct (loss ext sp wf w) as [[l|e] w1]; reflexivity.
Qed.

Lemma validation_losses_result sp wf (w : World ext) :
  fst (validation_losses ext sp wf w) =
  match fst (loss ext sp wf w) with
  | Ok l => Ok {[ "nll_loss" := l ]}
  | Raise e => Raise e
  end.
Proof.
  unfold validation_losses, bind at 1.
  destruct (loss ext sp wf w) as [[l|e] w1]; reflexivity.
Qed.

(** C4, as the code has it.  A call of [train_step] whose loss computation
    returns the scalar [l] returns the pair of [l] and the empty mapping; a
    call of [validation_losses] returns no separate scalar but the mapping
    with the single entry "nll_loss", bound to [l]; both raise what the
    loss computation raises. *)
Theorem training_returns sp wf (w : World ext) :
  fst (train_step ext sp wf w) =
    match fst (loss ext sp wf w) with
    | Ok l => Ok (l, ∅)
    | Raise e => Raise e
    end /\
  fst (validation_losses ext sp wf w) =
    match fst (loss ext sp wf w) with
    | Ok l => Ok {[ "nll_loss" := l ]}
    | Raise e => Raise e
    end.
Proof. split; [apply train_step_result|apply validation_losses_result]. Qed.

End ClassProperties.

(** C7, witness: a network of two blocks whose skip contributions are 1
    and 3; the output projection receives [(1 + 3) / sqrt 2]. *)
Lemma skip_sum_scaled_witness :
  let w := demo_world two_block_self in
  let n := module (self w) in
  block_skips (conv_layers n)
    (fst (conv_incremental_forward (first_conv n) [[0%R]])) [[0%R]]
    = [[[1%R]]; [[3%R]]] /\
  exists scaled,
    fst (skip_path n [[0%R]] [[0%R]]) = Ok scaled /\
    entry 0 0 scaled = ((1 + (3 + 0)) * (1 / sqrt (INR 2)))%R /\
    fst (incremental_step demo_ext [[0%R]] [[0%R]] w) =
      Ok (fst (last_incremental (last_conv_layers n) scaled)).
Proof.
  split; [reflexivity|].
  destruct (skip_sum_scaled demo_ext (demo_world two_block_self)
              [[0%R]] [[0%R]] 1 1)
    as (scaled & _ & Hp & _ & He & Hi).
  - simpl. discriminate.
  - repeat constructor.
  - exists scaled. split; [exact Hp|]. split; [|exact Hi].
    exact (He 0 0 (Nat.lt_0_succ 0) (Nat.lt_0_succ 0)).
Defined.

(** C4, counterexample: a training step on a raw-amplitude batch returns
    its loss with an empty mapping, which has no entry for the negative
    log-likelihood. *)
Lemma train_step_mapping_empty :
  exists l m,
    fst (train_step demo_ext (demo_spectrogram 2) [[0%R; 0%R]]
           (demo_world (demo_self "raw" "Logistic" true
              (DiscretizedMixturelogisticLoss (demo_config "raw" "Logistic")))))
      = Ok (l, m) /\
    m !! "nll_loss" = None /\ m = ∅.
Proof.
  exists 0%R, ∅. split; [vm_compute; reflexivity|]. split; reflexivity.
Qed.

Section GenerateProperties.

Context (ext : Collaborators).

(** ** The loop of a [generate] call *)

Lemma begin_generate_nonempty (w : World ext) :
  conv_layers (module (self w)) <> [] ->
  conv_layers (module (self (begin_generate w))) <> [].
Proof.
  simpl. destruct (conv_layers (module (self w))); [contradiction|discriminate].
Qed.

Lemma generate_loop_ok (I : Net -> Prop) (L : Frame -> Prop)
    (w : World ext) sp tr :
  step_invariant I L ->
  I (module (self (begin_generate w))) ->
  dist_ok (self w) ->
  loop_len w sp tr <= size_last (upsample_net (module (self w)) sp) ->
  exists x' samples w2,
    generate_loop ext w sp tr = (Ok (x', samples), w2) /\
    length samples = loop_len w sp tr /\
    trace w2 = trace w ++ [EvEval; EvClearBuffer]
                 ++ map EvTimestep (seq 0 (loop_len w sp tr)) /\
    same_object (self w) (self w2) /\
    I (module (self w2)) /\
    Forall (fun x => exists y,
              L y /\ sampled ext (scalar_input (self w)) (loop_batch w sp) y x)
           samples.
Proof.
  intros Hinv HI Hd Hlen. unfold generate_loop.
  destruct (for_each_ok ext I L (loop_frames w sp) (loop_batch w sp) Hinv
              (seq 0 (loop_len w sp tr)) (loop_seed w sp) [] (begin_generate w))
    as (x' & samples & w2 & Hrun & Hl & Htr & Hsame & HI2 & Hcat).
  - intros t Ht. apply in_seq in Ht. unfold loop_frames.
    rewrite transpose_1_2_length. lia.
  - exact HI.
  - exact Hd.
  - exists x', samples, w2. split; [exact Hrun|].
    split; [now rewrite Hl, length_seq|].
    split; [rewrite Htr; simpl; now rewrite <- !app_assoc|].
    split; [exact Hsame|]. split; [exact HI2|exact Hcat].
Qed.

Lemma stack_transpose_ok (samples : list Frame) :
  samples <> [] ->
  exists first rest,
    samples = first :: rest /\
    stack_transpose samples =
      Ok (map (fun b => map (fun frame => nth b frame []) samples)
              (seq 0 (length first))).
Proof.
  destruct samples as [|first rest]; [contradiction|].
  intros _. now exists first, rest.
Qed.

(** ** Unsupported configuration values *)

Lemma init_ok_cases cfg s0 :
  __init__ ext cfg = Ok s0 ->
  config s0 = cfg /\
  is_scalar_input ext (input_type (model cfg)) = Ok (scalar_input s0) /\
  ((is_mulaw_quantize ext (input_type (model cfg)) = Ok true /\
    criterion s0 = CrossEntropyLoss) \/
   (is_mulaw_quantize ext (input_type (model cfg)) = Ok false /\
    ((output_distribution (model cfg) = "Logistic" /\
      criterion s0 = DiscretizedMixturelogisticLoss cfg) \/
     (output_distribution (model cfg) = "Normal" /\
      criterion s0 = MixtureGaussianLoss cfg)))).
Proof.
  unfold __init__.
  destruct (Vocoder_init ext cfg) as [u|e]; [|discriminate].
  destruct (is_scalar_input ext (input_type (model cfg))) as [scalar|e]; [|discriminate].
  destruct (wavenet_WaveNet ext (model cfg) scalar) as [net|e]; [|discriminate].
  destruct (Adam ext net (learning_rate (model cfg))) as [opt|e]; [|discriminate].
  destruct (is_mulaw_quantize ext (input_type (model cfg))) as [[|]|e]; [| |discriminate].
  - intros H. inversion H; subst. simpl. split; [reflexivity|]. split; [reflexivity|].
    left. now split.
  - destruct (String.eqb (output_distribution (model cfg)) "Logistic") eqn:E1.
    + intros H. inversion H; subst. simpl. split; [reflexivity|]. split; [reflexivity|].
      right. split; [reflexivity|]. left. split; [now apply String.eqb_eq|reflexivity].
    + destruct (String.eqb (output_distribution (model cfg)) "Normal") eqn:E2; [|discriminate].
      intros H. inversion H; subst. simpl. split; [reflexivity|]. split; [reflexivity|].
      right. split; [reflexivity|]. right. split; [now apply String.eqb_eq|reflexivity].
Qed.

Lemma generate_no_assertion sp tr (w w' : World ext) :
  dist_ok (self w) -> generate ext sp tr w <> (Raise AssertionError, w').
Proof.
  intros Hd. rewrite generate_unfold. unfold generate_loop.
  destruct (for_each ext _ _ _ (begin_generate w)) as [[[x output]|e] w2] eqn:Hloop.
  - destruct (stack_transpose output) as [o1|e] eqn:Hst.
    + unfold decode.
      destruct (str_in _ _).
      * destruct (String.eqb _ _); discriminate.
      * destruct (negb _); discriminate.
    + destruct output; [|discriminate]. simpl in Hst. inversion Hst. discriminate.
  - intros H. inversion H; subst.
    eapply for_each_no_assertion; [|exact Hloop]. exact Hd.
Qed.

End GenerateProperties.

Lemma util_helpers_exclusive (s : string) :
  util_is_scalar_input s = Ok true -> util_is_mulaw_quantize s = Ok false.
Proof.
  unfold util_is_scalar_input, util_is_mulaw_quantize.
  destruct (str_in s ["raw"; "mulaw"; "mulaw-quantize"]); [|discriminate].
  intros H. inversion H as [Hs]. f_equal.
  apply orb_true_iff in Hs. destruct Hs as [Hs | Hs];
    apply String.eqb_eq in Hs; subst s; reflexivity.
Qed.

Section InputType.

Context (ext : Collaborators).

Lemma unsupported_cases (it : string) :
  str_in it ["mulaw"; "mulaw-quantize"; "raw"] = false ->
  str_in it ["mulaw"; "mulaw-quantize"] = false /\ String.eqb it "raw" = false.
Proof.
  unfold str_in. simpl. rewrite !orb_false_r.
  intros H. apply orb_false_iff in H. destruct H as [H1 H].
  apply orb_false_iff in H. destruct H as [H2 H3].
  rewrite H1, H2, H3. now split.
Qed.

Lemma loss_unsupported sp wf (w : World ext) :
  str_in (input_type (model (config (self w)))) ["mulaw"; "mulaw-quantize"; "raw"] = false ->
  loss ext sp wf w =
  (Raise (RuntimeError ("Not supported input type: "
                        ++ input_type (model (config (self w))))), w).
Proof.
  intros H. apply unsupported_cases in H. destruct H as [H1 H2].
  unfold loss, bind, get, lift, encode_batch. cbv beta zeta iota.
  rewrite H1, H2. reflexivity.
Qed.

Lemma decode_unsupported (s : WaveNet ext) o :
  str_in (input_type (model (config s))) ["mulaw"; "mulaw-quantize"; "raw"] = false ->
  decode s o =
  Raise (RuntimeError ("Not supported input type: " ++ input_type (model (config s)))).
Proof.
  intros H. apply unsupported_cases in H. destruct H as [H1 H2].
  unfold decode. rewrite H1, H2. reflexivity.
Qed.

Lemma generate_unsupported sp tr (w : World ext) :
  str_in (input_type (model (config (self w)))) ["mulaw"; "mulaw-quantize"; "raw"] = false ->
  conv_layers (module (self w)) <> [] ->
  dist_ok (self w) ->
  loop_len w sp tr <= size_last (upsample_net (module (self w)) sp) ->
  0 < loop_len w sp tr ->
  exists w',
    generate ext sp tr w =
      (Raise (RuntimeError ("Not supported input type: "
                            ++ input_type (model (config (self w))))), w') /\
    trace w' = trace w ++ [EvEval; EvClearBuffer]
                 ++ map EvTimestep (seq 0 (loop_len w sp tr)).
Proof.
  intros Hit Hne Hd Hlen Hpos.
  destruct (generate_loop_ok ext (fun n => conv_layers n <> []) (fun _ => True)
              w sp tr nonempty_invariant (begin_generate_nonempty ext w Hne) Hd Hlen)
    as (x' & samples & w2 & Hloop & Hl & Htr & Hsame & _).
  exists w2. rewrite generate_unfold, Hloop.
  destruct (stack_transpose_ok samples) as (first & rest & Hs & Hst).
  { destruct samples; [simpl in Hl; lia|discriminate]. }
  rewrite Hst.
  destruct Hsame as (Hcfg & _).
  rewrite decode_unsupported by (now rewrite Hcfg).
  rewrite Hcfg. split; [reflexivity|exact Htr].
Qed.

Lemma init_helper_raise cfg e :
  Vocoder_init ext cfg = Ok tt ->
  is_scalar_input ext (input_type (model cfg)) = Raise e ->
  __init__ ext cfg = Raise e.
Proof. intros Hv Hs. unfold __init__. now rewrite Hv, Hs. Qed.


End InputType.



(** C1, witness: two steps of the one-block instance. *)
Lemma mode_equivalence_witness :
  exists ys,
    forward demo_net [[[1%R]]; [[0%R]]] (demo_spectrogram 2) = Ok ys /\
    incremental_run (clear_buffer demo_net)
      (combine [[[1%R]]; [[0%R]]]
               (transpose_1_2 (upsample_net demo_net (demo_spectrogram 2)))) = Ok ys /\
    length ys = length [[[1%R]]; [[0%R]]].
Proof.
  apply (mode_equivalence demo_net [[[1%R]]; [[0%R]]] (demo_spectrogram 2)).
  - simpl. discriminate.
  - reflexivity.
Defined.

Section Caches.

Context (ext : Collaborators).

(** ** The cache resets of [generate] *)

Lemma clear_buffer_twice n b :
  clear_buffer (set_training (clear_buffer n) b) = clear_buffer (set_training n b).
Proof.
  unfold clear_buffer, set_layers, set_training. simpl. f_equal.
  - rewrite map_map. apply map_ext. reflexivity.
  - rewrite map_map. apply map_ext. intros [c|f]; reflexivity.
Qed.

Lemma generate_from_cleared sp tr (w : World ext) :
  generate ext sp tr (with_module w (clear_buffer (module (self w)))) =
  generate ext sp tr w.
Proof.
  rewrite !generate_unfold.
  unfold generate_loop, loop_frames, loop_batch, loop_len, loop_seed,
    begin_generate, with_module. simpl.
  rewrite clear_buffer_twice. reflexivity.
Qed.

Lemma end_generate_cleared (w : World ext) :
  buffers_cleared (module (self (end_generate w))) /\
  training (module (self (end_generate w))) = true.
Proof.
  split; [|reflexivity].
  exact (clear_buffer_cleared (module (self w))).
Qed.

Lemma generate_ok_end sp tr (w : World ext) out w' :
  generate ext sp tr w = (Ok out, w') ->
  exists x samples w2 stacked wave,
    generate_loop ext w sp tr = (Ok (x, samples), w2) /\
    stack_transpose samples = Ok stacked /\
    decode (self w2) stacked = Ok wave /\
    out = flatten wave /\ w' = end_generate w2.
Proof.
  rewrite generate_unfold.
  destruct (generate_loop ext w sp tr) as [[[x samples]|e] w2] eqn:Hl; [|discriminate].
  destruct (stack_transpose samples) as [stacked|e] eqn:Hs; [|discriminate].
  destruct (decode (self w2) stacked) as [wave|e] eqn:Hd; [|discriminate].
  intros H. inversion H; subst.
  exists x, samples, w2, stacked, wave. now repeat split.
Qed.

(** C9, as the code has it.  Every call of [generate] starts its timestep
    loop from cleared caches, so that the caches the call finds have no
    effect on it: the call behaves as it does on the same object with
    cleared caches.  Every call that returns a waveform has cleared all
    caches again after the final timestep and has put the network back
    in training mode. *)
Theorem generate_resets_caches sp tr (w : World ext) out w' :
  generate ext sp tr w = (Ok out, w') ->
  buffers_cleared (module (self (begin_generate w))) /\
  generate ext sp tr (with_module w (clear_buffer (module (self w)))) = (Ok out, w') /\
  buffers_cleared (module (self w')) /\
  training (module (self w')) = true.
Proof.
  intros H.
  split.
  { exact (clear_buffer_cleared (set_training (module (self w)) false)). }
  split; [now rewrite generate_from_cleared|].
  apply generate_ok_end in H.
  destruct H as (x & samples & w2 & stacked & wave & _ & _ & _ & _ & ->).
  apply end_generate_cleared.
Qed.

End Caches.

(** C9, witness: a call on two conditioning frames that returns. *)
Lemma generate_resets_caches_witness :
  let w := demo_world (demo_self "raw" "Logistic" true
             (DiscretizedMixturelogisticLoss (demo_config "raw" "Logistic"))) in
  let w' := snd (generate demo_ext (demo_spectrogram 2) false w) in
  buffers_cleared (module (self (begin_generate w))) /\
  generate demo_ext (demo_spectrogram 2) false
    (with_module w (clear_buffer (module (self w)))) = (Ok [0%R; 0%R], w') /\
  buffers_cleared (module (self w')) /\
  training (module (self w')) = true.
Proof.
  apply (generate_resets_caches demo_ext (demo_spectrogram 2) false
           (demo_world (demo_self "raw" "Logistic" true
              (DiscretizedMixturelogisticLoss (demo_config "raw" "Logistic"))))
           [0%R; 0%R]).
  vm_compute. reflexivity.
Defined.

(** C9, counterexample: a well-configured object asked for the first
    second of a one-frame conditioning sequence.  The call raises
    [IndexError] at the second timestep; the caches filled by the first
    timestep are still there after the call and the network is left in
    evaluation mode. *)
Lemma generate_error_keeps_caches :
  let w := demo_world (demo_self "raw" "Logistic" true
             (DiscretizedMixturelogisticLoss (demo_config "raw" "Logistic"))) in
  let r := generate demo_ext (demo_spectrogram 1) true w in
  __init__ demo_ext (demo_config "raw" "Logistic") = Ok (self w) /\
  fst r = Raise IndexError /\
  map block_buffer (conv_layers (module (self (snd r)))) = [Some [[[0%R]]]] /\
  ~ buffers_cleared (module (self (snd r))) /\
  training (module (self (snd r))) = false.
Proof.
  cbv zeta.
  assert (Hb : map block_buffer (conv_layers (module (self (snd
            (generate demo_ext (demo_spectrogram 1) true
               (demo_world (demo_self "raw" "Logistic" true
                  (DiscretizedMixturelogisticLoss (demo_config "raw" "Logistic"))))))))) =
          [Some [[[0%R]]]]) by (lazy; reflexivity).
  split; [reflexivity|]. split; [lazy; reflexivity|]. split; [exact Hb|].
  split; [|lazy; reflexivity].
  intros H. unfold buffers_cleared, buffers in H.
  apply Forall_cons_iff in H. destruct H as [_ H].
  apply Forall_app in H. destruct H as [H _].
  rewrite Hb in H. inversion H as [|? ? Hx _]. discriminate Hx.
Qed.

(** ** Shapes of the stacked samples *)

Lemma concat_length_uniform {A} (ls : list (list A)) (m : nat) :
  Forall (fun l => length l = m) ls -> length (concat ls) = length ls * m.
Proof.
  induction 1 as [|l ls Hl _ IH]; [reflexivity|].
  simpl. rewrite length_app, IH, Hl. reflexivity.
Qed.

Lemma stack_transpose_shape (P : list R -> Prop) (samples : list Frame) (B : nat) :
  samples <> [] ->
  Forall (fun x => length x = B /\ Forall P x) samples ->
  exists stacked,
    stack_transpose samples = Ok stacked /\
    length stacked = B /\
    Forall (fun rows => length rows = length samples /\ Forall P rows) stacked.
Proof.
  intros Hne Hs. destruct samples as [|first rest]; [contradiction|].
  eexists. split; [reflexivity|].
  assert (Hfirst : length first = B).
  { inversion Hs as [|? ? [H _] _]. exact H. }
  rewrite Hfirst. split; [now rewrite length_map, length_seq|].
  rewrite List.Forall_map. apply List.Forall_forall. intros b Hb.
  apply in_seq in Hb. split; [now rewrite length_map|].
  rewrite List.Forall_map.
  eapply List.Forall_impl; [|exact Hs].
  intros x [Hlen HP]. simpl.
  rewrite List.Forall_forall in HP. apply HP. apply nth_In. lia.
Qed.

Lemma flatten2_length {A} (g : list R -> A) (P : list R -> Prop)
    (stacked : Tensor3) (B T : nat) :
  length stacked = B ->
  Forall (fun rows => length rows = T /\ Forall P rows) stacked ->
  length (concat (map (map g) stacked)) = B * T.
Proof.
  intros HB Hrows. rewrite (concat_length_uniform _ T).
  - now rewrite length_map, HB.
  - rewrite List.Forall_map. eapply List.Forall_impl; [|exact Hrows].
    intros rows [H _]. now rewrite length_map.
Qed.

Lemma flatten3_length (stacked : Tensor3) (B T C : nat) :
  length stacked = B ->
  Forall (fun rows => length rows = T /\ Forall (fun row => length row = C) rows)
         stacked ->
  length (concat (concat stacked)) = B * T * C.
Proof.
  intros HB Hrows. rewrite (concat_length_uniform _ C).
  - rewrite (concat_length_uniform _ T), HB; [reflexivity|].
    eapply List.Forall_impl; [|exact Hrows]. now intros rows [H _].
  - apply List.Forall_forall. intros row Hin.
    apply in_concat in Hin. destruct Hin as (rows & Hrows_in & Hrow).
    rewrite List.Forall_forall in Hrows.
    destruct (Hrows rows Hrows_in) as [_ HC].
    rewrite List.Forall_forall in HC. now apply HC.
Qed.

Lemma map3_shape (g : R -> R) (stacked : Tensor3) (T C : nat) :
  Forall (fun rows => length rows = T /\ Forall (fun row => length row = C) rows)
         stacked ->
  Forall (fun rows => length rows = T /\ Forall (fun row => length row = C) rows)
         (map (map (map g)) stacked).
Proof.
  intros H. rewrite List.Forall_map.
  eapply List.Forall_impl; [|exact H].
  intros rows [HT HC]. split; [now rewrite length_map|].
  rewrite List.Forall_map. eapply List.Forall_impl; [|exact HC].
  intros row Hrow. now rewrite length_map.
Qed.

Section Timesteps.

Context (ext : Collaborators).

(** ** The number of timesteps and of samples *)

Lemma sampled_rows scalar B y x :
  sampled ext scalar B y x ->
  (scalar = false -> length x = B) /\
  (scalar = true -> samplers_shaped ext -> frame_shape B 1 x).
Proof.
  unfold sampled. destruct scalar.
  - intros [r Hx]. split; [discriminate|]. intros _ Hshape.
    destruct (Hshape (view B y) r) as [H1 H2].
    rewrite (proj1 (view_rows B y)) in H1, H2.
    destruct Hx as [-> | ->]; assumption.
  - intros [Hlen _]. split; [now intros _|discriminate].
Qed.

Lemma decode_cases (s : WaveNet ext) (stacked : Tensor3) :
  str_in (input_type (model (config s))) ["mulaw"; "mulaw-quantize"; "raw"] = true ->
  (input_type (model (config s)) = "mulaw-quantize" /\
   decode s stacked =
     Ok (Wave2 (map (map (fun row =>
           mu_law_decoding (expand s) (Z.of_nat (argmax row)))) stacked))) \/
  (input_type (model (config s)) <> "mulaw-quantize" /\
   exists g, decode s stacked = Ok (Wave3 (map (map (map g)) stacked))).
Proof.
  unfold str_in, decode. simpl.
  destruct (String.eqb (input_type (model (config s))) "mulaw") eqn:E1.
  - apply String.eqb_eq in E1. rewrite E1. simpl. intros _. right.
    split; [discriminate|]. eexists. reflexivity.
  - destruct (String.eqb (input_type (model (config s))) "mulaw-quantize") eqn:E2.
    + apply String.eqb_eq in E2. intros _. left. split; [exact E2|reflexivity].
    + destruct (String.eqb (input_type (model (config s))) "raw") eqn:E3;
        [|discriminate].
      simpl. intros _. right. split.
      * intros H. rewrite H in E2. discriminate.
      * exists (fun v => v).
        f_equal. f_equal. symmetry.
        rewrite <- (map_id stacked) at 2. apply map_ext. intros rows.
        rewrite <- (map_id rows) at 2. apply map_ext. intros row.
        apply map_id.
Qed.

Lemma first_second_samples : Z.of_nat first_second = 22050%Z.
Proof. unfold first_second. apply Z2Nat.id. lia. Qed.

(** C10, as the code has it.  For every call of [generate] on an object
    with a supported input type, at least one block and a sampler that
    cannot raise, whose loop bound is positive and does not exceed the
    upsampled conditioning length: the loop bound is 22050 with
    [training=True], whatever the conditioning length, and the upsampled
    conditioning length with [training=False]; the call returns after
    running exactly that many timesteps; and the returned waveform holds
    that many samples for every batch element, both for the quantized
    categorical encoding and for a scalar encoding whose samplers return one
    value per sequence. *)
Theorem generate_timesteps sp tr (w : World ext) :
  conv_layers (module (self w)) <> [] ->
  dist_ok (self w) ->
  str_in (input_type (model (config (self w)))) ["mulaw"; "mulaw-quantize"; "raw"] = true ->
  loop_len w sp tr <= size_last (upsample_net (module (self w)) sp) ->
  0 < loop_len w sp tr ->
  Z.of_nat (loop_len w sp tr) =
    (if tr then 22050%Z
     else Z.of_nat (size_last (upsample_net (module (self w)) sp))) /\
  exists out w',
    generate ext sp tr w = (Ok out, w') /\
    trace w' = trace w ++ [EvEval; EvClearBuffer]
                 ++ map EvTimestep (seq 0 (loop_len w sp tr))
                 ++ [EvClearBuffer; EvTrain] /\
    (scalar_input (self w) = false ->
     input_type (model (config (self w))) = "mulaw-quantize" ->
     length out = loop_batch w sp * loop_len w sp tr) /\
    (scalar_input (self w) = true ->
     input_type (model (config (self w))) <> "mulaw-quantize" ->
     samplers_shaped ext ->
     length out = loop_batch w sp * loop_len w sp tr).
Proof.
  intros Hne Hd Hit Hlen Hpos.
  split.
  { unfold loop_len. destruct tr; [apply first_second_samples|reflexivity]. }
  destruct (generate_loop_ok ext (fun n => conv_layers n <> []) (fun _ => True)
              w sp tr nonempty_invariant (begin_generate_nonempty ext w Hne) Hd Hlen)
    as (x' & samples & w2 & Hloop & Hl & Htr & Hsame & _ & Hsamp).
  assert (Hsne : samples <> []).
  { destruct samples; [simpl in Hl; lia|discriminate]. }
  destruct (stack_transpose_ok samples Hsne) as (first & rest & _ & Hst).
  set (stacked := map (fun b => map (fun frame => nth b frame []) samples)
                      (seq 0 (length first))) in Hst.
  destruct Hsame as (Hcfg & Hsc & _ & _ & _ & Hexp & _).
  assert (Hit2 : str_in (input_type (model (config (self w2))))
                   ["mulaw"; "mulaw-quantize"; "raw"] = true) by now rewrite Hcfg.
  assert (Hgen : forall wave, decode (self w2) stacked = Ok wave ->
            generate ext sp tr w = (Ok (flatten wave), end_generate w2)).
  { intros wave Hdec. now rewrite generate_unfold, Hloop, Hst, Hdec. }
  assert (Htrace : trace (end_generate w2) =
            trace w ++ [EvEval; EvClearBuffer]
              ++ map EvTimestep (seq 0 (loop_len w sp tr))
              ++ [EvClearBuffer; EvTrain]).
  { simpl. rewrite Htr. rewrite <- !app_assoc. reflexivity. }
  destruct (decode_cases (self w2) stacked Hit2) as [[Hq Hdec] | [Hnq [g Hdec]]].
  - eexists _, _. split; [exact (Hgen _ Hdec)|]. split; [exact Htrace|]. split.
    + intros Hscalar _.
      destruct (stack_transpose_shape (fun _ => True) samples (loop_batch w sp) Hsne)
        as (st & Hst' & HB & Hrows).
      { eapply List.Forall_impl; [|exact Hsamp].
        intros x (y & _ & Hx). apply sampled_rows in Hx.
        destruct Hx as [Hx _].
        split; [exact (Hx Hscalar)|]. apply List.Forall_forall. now intros. }
      rewrite Hst in Hst'. inversion Hst' as [Heq]. simpl.
      rewrite (flatten2_length _ (fun _ => True) stacked (loop_batch w sp)
                 (length samples));
        [now rewrite Hl| now rewrite Heq | now rewrite Heq].
    + intros _ Hnq. rewrite Hcfg in Hq. contradiction.
  - eexists _, _. split; [exact (Hgen _ Hdec)|]. split; [exact Htrace|]. split.
    + intros _ Hq. rewrite Hcfg in Hnq. contradiction.
    + intros Hscalar _ Hshape.
      destruct (stack_transpose_shape (fun row => length row = 1) samples
                  (loop_batch w sp) Hsne) as (st & Hst' & HB & Hrows).
      { eapply List.Forall_impl; [|exact Hsamp].
        intros x (y & _ & Hx). apply sampled_rows in Hx.
        destruct Hx as [_ Hx]. exact (Hx Hscalar Hshape). }
      rewrite Hst in Hst'. inversion Hst' as [Heq]. simpl.
      rewrite (flatten3_length _ (loop_batch w sp) (length samples) 1);
        [rewrite Hl; lia | now rewrite length_map, Heq |].
      apply map3_shape. now rewrite Heq.
Qed.

End Timesteps.

Lemma demo_size_last (s : WaveNet demo_ext) (T : nat) :
  module s = demo_net ->
  size_last (upsample_net (module s) (demo_spectrogram T)) = T.
Proof. intros ->. simpl. apply repeat_length. Qed.

(** C10, witness: the first second of a conditioning sequence of 22050
    frames. *)
Lemma generate_timesteps_witness :
  let w := demo_world (demo_self "raw" "Logistic" true
             (DiscretizedMixturelogisticLoss (demo_config "raw" "Logistic"))) in
  let sp := demo_spectrogram first_second in
  Z.of_nat (loop_len w sp true) = 22050%Z /\
  exists out w',
    generate demo_ext sp true w = (Ok out, w') /\
    trace w' = trace w ++ [EvEval; EvClearBuffer]
                 ++ map EvTimestep (seq 0 (loop_len w sp true))
                 ++ [EvClearBuffer; EvTrain] /\
    (scalar_input (self w) = false ->
     input_type (model (config (self w))) = "mulaw-quantize" ->
     length out = loop_batch w sp * loop_len w sp true) /\
    (scalar_input (self w) = true ->
     input_type (model (config (self w))) <> "mulaw-quantize" ->
     samplers_shaped demo_ext ->
     length out = loop_batch w sp * loop_len w sp true).
Proof.
  apply (generate_timesteps demo_ext (demo_spectrogram first_second) true
           (demo_world (demo_self "raw" "Logistic" true
              (DiscretizedMixturelogisticLoss (demo_config "raw" "Logistic"))))).
  - simpl. discriminate.
  - unfold dist_ok. intros _. left. reflexivity.
  - reflexivity.
  - rewrite demo_size_last by reflexivity. apply le_n.
  - unfold loop_len, first_second. lia.
Defined.

(** C10, counterexample: with [training=True] and an upsampled
    conditioning of one frame the loop does not run 22050 timesteps; the
    second timestep raises [IndexError] and no waveform is returned. *)
Lemma generate_training_short_conditioning :
  let w := demo_world (demo_self "raw" "Logistic" true
             (DiscretizedMixturelogisticLoss (demo_config "raw" "Logistic"))) in
  let r := generate demo_ext (demo_spectrogram 1) true w in
  size_last (upsample_net (module (self w)) (demo_spectrogram 1)) = 1 /\
  fst r = Raise IndexError /\
  trace (snd r) = [EvEval; EvClearBuffer; EvTimestep 0; EvTimestep 1] /\
  (forall out, fst r <> Ok out).
Proof.
  cbv zeta.
  assert (Hr : fst (generate demo_ext (demo_spectrogram 1) true
            (demo_world (demo_self "raw" "Logistic" true
               (DiscretizedMixturelogisticLoss (demo_config "raw" "Logistic")))))
          = Raise IndexError) by (lazy; reflexivity).
  split; [reflexivity|]. split; [exact Hr|]. split; [lazy; reflexivity|].
  intros out. rewrite Hr. discriminate.
Qed.

(** ** Mu-law decoding of class labels *)

Lemma sign_cases (x : R) : sign x = 1%R \/ sign x = (-1)%R \/ sign x = 0%R.
Proof.
  unfold sign. destruct (Rlt_dec 0 x); [now left|].
  destruct (Rlt_dec x 0); [right; now left|right; now right].
Qed.

Lemma exp_monotone (x y : R) : (x <= y)%R -> (exp x <= exp y)%R.
Proof.
  intros [H | ->]; [left; now apply exp_increasing|right; reflexivity].
Qed.

(** A label of [0 .. quantization_channels - 1] decodes to an amplitude in
    [-1, 1]. *)
Lemma mu_law_decoding_range (qc k : Z) :
  (1 < qc)%Z -> (0 <= k <= qc - 1)%Z ->
  (-1 <= mu_law_decoding qc k <= 1)%R.
Proof.
  intros Hqc [Hk0 Hk1]. unfold mu_law_decoding.
  set (mu := (IZR qc - 1)%R).
  assert (Hmu : (1 <= mu)%R).
  { unfold mu. assert (H : (2 <= qc)%Z) by lia.
    apply IZR_le in H. lra. }
  assert (Hk : (0 <= IZR k <= mu)%R).
  { split; [now apply IZR_le|]. unfold mu. rewrite <- minus_IZR. now apply IZR_le. }
  set (x := (IZR k / mu * 2 - 1)%R).
  assert (Hx : (-1 <= x <= 1)%R).
  { unfold x. assert (0 <= IZR k / mu <= 1)%R; [|lra].
    split.
    - apply Rmult_le_pos; [lra|]. left. apply Rinv_0_lt_compat. lra.
    - apply (Rmult_le_reg_r mu); [lra|]. unfold Rdiv.
      rewrite Rmult_assoc, Rinv_l by lra. lra. }
  assert (Ha : (0 <= Rabs x <= 1)%R).
  { split; [apply Rabs_pos|]. apply Rabs_le. lra. }
  assert (Hl : (0 < ln (1 + mu))%R).
  { rewrite <- ln_1. apply ln_increasing; lra. }
  assert (He : (1 <= exp (Rabs x * ln (1 + mu)) <= 1 + mu)%R).
  { split.
    - apply Rle_trans with (exp 0); [rewrite exp_0; lra|].
      apply exp_monotone. apply Rmult_le_pos; lra.
    - apply Rle_trans with (exp (ln (1 + mu))); [|rewrite exp_ln; lra].
      apply exp_monotone. nra. }
  set (e := exp (Rabs x * ln (1 + mu))) in *.
  assert (Hv : (0 <= (e - 1) / mu <= 1)%R).
  { split.
    - apply Rmult_le_pos; [lra|]. left. apply Rinv_0_lt_compat. lra.
    - apply (Rmult_le_reg_r mu); [lra|]. unfold Rdiv.
      rewrite Rmult_assoc, Rinv_l by lra. lra. }
  replace (sign x * (e - 1) / mu)%R with (sign x * ((e - 1) / mu))%R
    by (unfold Rdiv; ring).
  destruct (sign_cases x) as [-> | [-> | ->]]; lra.
Qed.

Lemma argmax_from_bound (rest : list R) (best_i : nat) (best : R) (i : nat) :
  best_i < i -> argmax_from best_i best i rest < i + length rest.
Proof.
  revert best_i best i. induction rest as [|v rest IH]; intros best_i best i H; simpl.
  - lia.
  - destruct (Rlt_dec best v).
    + specialize (IH i v (S i)). lia.
    + specialize (IH best_i best (S i)). lia.
Qed.

Lemma argmax_bound (row : list R) : row <> [] -> argmax row < length row.
Proof.
  destruct row as [|v rest]; [contradiction|]. intros _. simpl.
  pose proof (argmax_from_bound rest 0 v 1). lia.
Qed.

Lemma one_hot_row_length n i : length (one_hot_row n i) = n.
Proof. unfold one_hot_row. now rewrite length_map, length_seq. Qed.

(** The label [argmax] reads off a one-hot row of 256 classes decodes to
    an amplitude in [-1, 1]. *)
Lemma decode_one_hot_range (row : list R) :
  (exists i, row = one_hot_row 256 i) ->
  (-1 <= mu_law_decoding 256 (Z.of_nat (argmax row)) <= 1)%R.
Proof.
  intros [i ->]. apply mu_law_decoding_range; [lia|].
  assert (argmax (one_hot_row 256 i) < 256).
  { rewrite <- (one_hot_row_length 256 i) at 2. apply argmax_bound.
    intros H. apply (f_equal (@length R)) in H.
    rewrite one_hot_row_length in H. discriminate. }
  lia.
Qed.

(** ** The width of the distribution parameters *)

Lemma last_incremental_emits (pre : list LastLayer) (l : LastLayer) (x : Frame) (C : nat) :
  layer_emits l C ->
  numel (fst (last_incremental (pre ++ [l]) x)) = C /\
  exists pre' l',
    snd (last_incremental (pre ++ [l]) x) = pre' ++ [l'] /\ layer_emits l' C.
Proof.
  intros Hl. revert x. induction pre as [|p pre IH]; intros x.
  - destruct l as [c|f]; simpl.
    + split; [apply Hl|]. exists [], (LastConv (conv_set_buffer c
        (Some (push (history (conv_buffer c) (conv_kernel_size c) (conv_dilation c) x) x)))).
      split; [reflexivity|exact Hl].
    + split; [apply Hl|]. exists [], (LastModule f). split; [reflexivity|exact Hl].
  - destruct p as [c|f]; simpl.
    + destruct (IH (conv_weight c (taps (conv_kernel_size c) (conv_dilation c)
          (history (conv_buffer c) (conv_kernel_size c) (conv_dilation c) x ++ [x]))))
        as (Hn & pre' & l' & Hs & Hl').
      destruct (last_incremental (pre ++ [l]) _) as [x2 rest1]. simpl in *.
      split; [exact Hn|]. subst rest1.
      eexists (_ :: pre'), l'. split; [reflexivity|exact Hl'].
    + destruct (IH (f x)) as (Hn & pre' & l' & Hs & Hl').
      destruct (last_incremental (pre ++ [l]) (f x)) as [x2 rest1]. simpl in *.
      split; [exact Hn|]. subst rest1.
      eexists (_ :: pre'), l'. split; [reflexivity|exact Hl'].
Qed.

Lemma stack_step_last n x ct y n1 :
  stack_step n x ct = (Ok y, n1) ->
  exists x2,
    y = fst (last_incremental (last_conv_layers n) x2) /\
    last_conv_layers n1 = snd (last_incremental (last_conv_layers n) x2).
Proof.
  unfold stack_step, skip_path. simpl.
  destruct (blocks_incremental (conv_layers n) _ ct None) as [[x1 sk] cl].
  destruct (scale_skips (length (conv_layers n)) sk) as [x2|e]; simpl; [|discriminate].
  destruct (last_incremental (last_conv_layers n) x2) as [x3 ll] eqn:Hlast.
  intros H. inversion H; subst. exists x2. rewrite Hlast. now split.
Qed.

Lemma emitting_invariant (C : nat) :
  step_invariant (fun n => conv_layers n <> [] /\ emits n C)
                 (fun y => numel y = C).
Proof.
  intros n x ct [Hne (pre & l & Hlast & Hl)].
  destruct (nonempty_invariant n x ct Hne) as (y & n1 & Hstep & Hne1 & _).
  exists y, n1. split; [exact Hstep|].
  apply stack_step_last in Hstep. destruct Hstep as (x2 & Hy & Hll).
  rewrite Hlast in Hy, Hll.
  destruct (last_incremental_emits pre l x2 C Hl) as (Hn & pre' & l' & Hs & Hl').
  split; [split; [exact Hne1|]|].
  - exists pre', l'. split; [|exact Hl']. now rewrite Hll.
  - now rewrite Hy.
Qed.

Lemma emits_cleared (n : Net) (b : bool) (C : nat) :
  emits n C -> emits (clear_buffer (set_training n b)) C.
Proof.
  intros (pre & l & Hlast & Hl). exists (map last_clear pre), (last_clear l).
  split.
  - simpl. now rewrite Hlast, map_app.
  - destruct l; exact Hl.
Qed.

Section Scenario.

Context (ext : Collaborators).

(** C8. For an object configured for the input type "mulaw-quantize" with
    256 quantization channels (hence a categorical head, a decoder built
    for 256 channels, at least one block and an output projection of 256
    logits), and a batch of one conditioning sequence of upsampled length
    10: [generate] with [training=False] returns a flat tensor of 10
    values, each in [-1, 1]. *)
Theorem generate_quantized_scenario sp (w : World ext) :
  input_type (model (config (self w))) = "mulaw-quantize" ->
  quantize_channels (model (config (self w))) = 256%Z ->
  expand (self w) = quantize_channels (model (config (self w))) ->
  scalar_input (self w) = false ->
  conv_layers (module (self w)) <> [] ->
  emits (module (self w)) 256 ->
  shape0 (upsample_net (module (self w)) sp) = 1 ->
  size_last (upsample_net (module (self w)) sp) = 10 ->
  exists out w',
    generate ext sp false w = (Ok out, w') /\
    length out = 10 /\
    Forall (fun v => (-1 <= v <= 1)%R) out.
Proof.
  intros Hit Hqc Hexp Hsc Hne Hem HB HT.
  assert (Hd : dist_ok (self w)).
  { unfold dist_ok. rewrite Hsc. discriminate. }
  destruct (generate_loop_ok ext (fun n => conv_layers n <> [] /\ emits n 256)
              (fun y => numel y = 256) w sp false (emitting_invariant 256))
    as (x' & samples & w2 & Hloop & Hl & _ & Hsame & _ & Hsamp).
  { split; [now apply begin_generate_nonempty|]. simpl. now apply emits_cleared. }
  { exact Hd. }
  { unfold loop_len. lia. }
  unfold loop_len in Hl. rewrite HT in Hl.
  unfold loop_batch in Hsamp. rewrite HB, Hsc in Hsamp.
  assert (Hsne : samples <> []).
  { destruct samples; [simpl in Hl; lia|discriminate]. }
  destruct (stack_transpose_shape (fun row => exists i, row = one_hot_row 256 i)
              samples 1 Hsne) as (stacked & Hst & HB1 & Hrows).
  { eapply List.Forall_impl; [|exact Hsamp].
    intros x (y & Hy & [Hlen Hx]). split; [exact Hlen|].
    rewrite Hy, Nat.div_1_r in Hx. exact Hx. }
  destruct Hsame as (Hcfg & _ & _ & _ & _ & Hexp2 & _).
  destruct (decode_cases ext (self w2) stacked) as [[_ Hdec] | [Hnq _]].
  { rewrite Hcfg, Hit. reflexivity. }
  2:{ rewrite Hcfg in Hnq. contradiction. }
  eexists _, _. split.
  { rewrite generate_unfold, Hloop, Hst, Hdec. reflexivity. }
  simpl. split.
  - rewrite (flatten2_length _ (fun row => exists i, row = one_hot_row 256 i)
               stacked 1 (length samples)); [lia|exact HB1|exact Hrows].
  - apply Forall_concat. rewrite List.Forall_map.
    eapply List.Forall_impl; [|exact Hrows].
    intros rows [_ Hr]. rewrite List.Forall_map.
    eapply List.Forall_impl; [|exact Hr].
    intros row Hrow. rewrite Hexp2, Hexp, Hqc.
    now apply decode_one_hot_range.
Qed.

End Scenario.

(** C8, witness: the one-block instance on ten conditioning frames. *)
Lemma generate_quantized_scenario_witness :
  exists out w',
    generate demo_ext (demo_spectrogram 10) false
      (demo_world (demo_self "mulaw-quantize" "Logistic" false CrossEntropyLoss))
      = (Ok out, w') /\
    length out = 10 /\
    Forall (fun v => (-1 <= v <= 1)%R) out.
Proof.
  apply (generate_quantized_scenario demo_ext (demo_spectrogram 10)
           (demo_world (demo_self "mulaw-quantize" "Logistic" false CrossEntropyLoss)));
    try reflexivity.
  - simpl. discriminate.
  - exists [], (LastModule (fun _ => [repeat 0%R 256])).
    split; [reflexivity|]. intros x. vm_compute. reflexivity.
Defined.

(** ** Mu-law encoding of amplitudes *)

Lemma ln_monotone (x y : R) : (0 < x)%R -> (x <= y)%R -> (ln x <= ln y)%R.
Proof.
  intros Hx [H | ->]; [left; now apply ln_increasing|right; reflexivity].
Qed.

Lemma mu_law_encoding_range (qc : Z) (x : R) :
  (1 < qc)%Z -> (-1 <= x <= 1)%R ->
  (0 <= mu_law_encoding qc x < qc)%Z.
Proof.
  intros Hqc Hx. unfold mu_law_encoding.
  set (mu := (IZR qc - 1)%R).
  assert (Hmu : (1 <= mu)%R).
  { unfold mu. assert (H : (2 <= qc)%Z) by lia. apply IZR_le in H. lra. }
  assert (Ha : (0 <= Rabs x <= 1)%R).
  { split; [apply Rabs_pos|]. apply Rabs_le. lra. }
  assert (Hl : (0 < ln (1 + mu))%R).
  { rewrite <- ln_1. apply ln_increasing; lra. }
  assert (Hn : (0 <= ln (1 + mu * Rabs x) <= ln (1 + mu))%R).
  { split.
    - apply Rle_trans with (ln 1); [rewrite ln_1; lra|].
      apply ln_monotone; [lra|nra].
    - apply ln_monotone; nra. }
  set (q := (ln (1 + mu * Rabs x) / ln (1 + mu))%R).
  assert (Hq : (0 <= q <= 1)%R).
  { unfold q. split.
    - apply Rmult_le_pos; [lra|]. left. now apply Rinv_0_lt_compat.
    - apply (Rmult_le_reg_r (ln (1 + mu))); [exact Hl|]. unfold Rdiv.
      rewrite Rmult_assoc, Rinv_l by lra. lra. }
  replace (sign x * ln (1 + mu * Rabs x) / ln (1 + mu))%R with (sign x * q)%R
    by (unfold q, Rdiv; ring).
  assert (Hs : (-1 <= sign x * q <= 1)%R).
  { destruct (sign_cases x) as [-> | [-> | ->]]; lra. }
  set (y := ((sign x * q + 1) / 2 * mu + / 2)%R).
  assert (Hy : (/ 2 <= y <= mu + / 2)%R).
  { unfold y. split; nra. }
  rewrite trunc_nonneg by lra.
  pose proof (Int_part_bounds y) as [Hi1 Hi2].
  split.
  - assert (H : (-1 < Int_part y)%Z); [|lia].
    apply lt_IZR. lra.
  - apply lt_IZR. unfold mu in Hy. lra.
Qed.

Lemma F_one_hot_ok (qc : Z) (labels : list (list Z)) :
  Forall (Forall (fun l => (0 <= l < qc)%Z)) labels ->
  exists hot, F_one_hot labels qc = Ok hot.
Proof.
  intros H. unfold F_one_hot.
  assert (Hall : forallb (forallb (label_ok qc)) labels = true).
  { apply forallb_forall. intros row Hrow.
    rewrite List.Forall_forall in H. specialize (H row Hrow).
    apply forallb_forall. intros l Hl.
    rewrite List.Forall_forall in H. specialize (H l Hl).
    unfold label_ok. apply andb_true_iff. split.
    - apply Z.leb_le. lia.
    - apply Z.ltb_lt. lia. }
  rewrite Hall. eexists. reflexivity.
Qed.

Lemma map_nth_seq {A} (l : list A) (d : A) :
  map (fun t => nth t l d) (seq 0 (length l)) = l.
Proof.
  induction l as [|a l IH]; [reflexivity|].
  simpl. f_equal. rewrite <- seq_shift, map_map. exact IH.
Qed.

Lemma tl_shifted (row : list R) : tl row = shifted row.
Proof.
  unfold shifted. destruct row as [|v rest]; [reflexivity|].
  replace (length (v :: rest) - 1) with (length rest) by (simpl; lia).
  symmetry. apply (map_nth_seq rest 0%R).
Qed.

Lemma blocks_forward_skips layers xs cs skips :
  length cs = length xs ->
  match skips with
  | Some sk => length sk = length xs
  | None => layers <> []
  end ->
  exists sk,
    snd (blocks_forward layers xs cs skips) = Some sk /\ length sk = length xs.
Proof.
  revert xs skips. induction layers as [|f rest IH]; intros xs skips Hcs Hsk.
  - destruct skips as [sk|]; [|contradiction]. now exists sk.
  - simpl.
    pose proof (block_forward_length f xs cs Hcs) as Hout.
    destruct (IH (map fst (block_forward f xs cs))
                 (skips_add_seq skips (map snd (block_forward f xs cs))))
      as (sk & Hrun & Hlen).
    + now rewrite length_map, Hout.
    + rewrite length_map, Hout. destruct skips as [sk0|]; simpl.
      * rewrite zip_with_length; [exact Hsk|]. now rewrite length_map, Hout.
      * now rewrite length_map.
    + exists sk. split; [exact Hrun|]. now rewrite Hlen, length_map, Hout.
Qed.

Lemma last_forward_length layers xs : length (last_forward layers xs) = length xs.
Proof.
  revert xs. induction layers as [|[c|f] rest IH]; intros xs; simpl; [reflexivity| |].
  - now rewrite IH, conv_forward_length.
  - now rewrite IH, length_map.
Qed.

Lemma forward_lengths (n : Net) (xs : list Frame) (c : Tensor3) :
  conv_layers n <> [] ->
  length xs = size_last (upsample_net n c) ->
  exists output, forward n xs c = Ok output /\ length output = length xs.
Proof.
  intros Hne Hlen. unfold forward. cbv zeta.
  rewrite transpose_1_2_length, (proj2 (Nat.eqb_eq _ _) Hlen).
  unfold stack_forward.
  destruct (blocks_forward_skips (conv_layers n)
              (conv_forward (first_conv n) xs)
              (transpose_1_2 (upsample_net n c)) None) as (sk & Hsk & Hl).
  - now rewrite conv_forward_length, transpose_1_2_length.
  - exact Hne.
  - destruct (blocks_forward _ _ _ _) as [xs2 skips]. simpl in Hsk. subst skips.
    rewrite sqrt_recip_inv by (destruct (conv_layers n); [contradiction|discriminate]).
    eexists. split; [reflexivity|].
    now rewrite last_forward_length, length_map, Hl, conv_forward_length.
Qed.

Lemma forward_mismatch (n : Net) (xs : list Frame) (c : Tensor3) :
  length xs <> size_last (upsample_net n c) ->
  forward n xs c = Raise (RuntimeError "conditioning and input lengths differ").
Proof.
  intros Hlen. unfold forward. cbv zeta. rewrite transpose_1_2_length.
  now rewrite (proj2 (Nat.eqb_neq _ _) Hlen).
Qed.

Section Loss.

Context (ext : Collaborators).

(** ** The loss computation *)

Lemma init_fields cfg (s0 : WaveNet ext) :
  __init__ ext cfg = Ok s0 ->
  compand s0 = quantize_channels (model cfg) /\
  expand s0 = quantize_channels (model cfg).
Proof.
  unfold __init__.
  destruct (Vocoder_init ext cfg) as [u|e]; [|discriminate].
  destruct (is_scalar_input ext (input_type (model cfg))) as [scalar|e]; [|discriminate].
  destruct (wavenet_WaveNet ext (model cfg) scalar) as [net|e]; [|discriminate].
  destruct (Adam ext net (learning_rate (model cfg))) as [opt|e]; [|discriminate].
  destruct (is_mulaw_quantize ext (input_type (model cfg))) as [[|]|e]; [| |discriminate].
  - intros H. inversion H; subst. now split.
  - destruct (String.eqb (output_distribution (model cfg)) "Logistic").
    + intros H. inversion H; subst. now split.
    + destruct (String.eqb (output_distribution (model cfg)) "Normal"); [|discriminate].
      intros H. inversion H; subst. now split.
Qed.

Lemma supported_cases (it : string) :
  str_in it ["mulaw"; "mulaw-quantize"; "raw"] = true ->
  it = "mulaw" \/ it = "mulaw-quantize" \/ it = "raw".
Proof.
  unfold str_in. simpl. rewrite orb_false_r. intros H.
  apply orb_true_iff in H. destruct H as [H | H].
  - left. now apply String.eqb_eq.
  - apply orb_true_iff in H. destruct H as [H | H].
    + right. left. now apply String.eqb_eq.
    + right. right. now apply String.eqb_eq.
Qed.

Lemma encode_batch_supported (s : WaveNet ext) (wf : list (list R)) :
  str_in (input_type (model (config s))) ["mulaw"; "mulaw-quantize"; "raw"] = true ->
  (input_type (model (config s)) = "mulaw-quantize" ->
   compand s = quantize_channels (model (config s)) /\
   (1 < quantize_channels (model (config s)))%Z /\
   Forall (Forall (fun v => (-1 <= v <= 1)%R)) wf) ->
  exists inputs, encode_batch s wf = Ok (inputs, shifted_target s wf).
Proof.
  intros Hit Hq. apply supported_cases in Hit.
  unfold encode_batch, shifted_target.
  destruct Hit as [Hit | [Hit | Hit]]; rewrite Hit; simpl.
  - eexists. f_equal. f_equal. f_equal.
    rewrite !map_map. apply map_ext. intros row.
    now rewrite !map_map, tl_shifted.
  - destruct (Hq Hit) as (Hc & Hqc & Hwf).
    destruct (F_one_hot_ok (quantize_channels (model (config s)))
                (map (map (mu_law_encoding (compand s))) wf)) as [hot Hhot].
    { rewrite List.Forall_map. eapply List.Forall_impl; [|exact Hwf].
      intros row Hrow. rewrite List.Forall_map.
      eapply List.Forall_impl; [|exact Hrow].
      intros v Hv. rewrite Hc. now apply mu_law_encoding_range. }
    rewrite Hhot. eexists. f_equal. f_equal. f_equal.
    rewrite !map_map. apply map_ext. intros row. now rewrite tl_shifted.
  - eexists. f_equal. f_equal. f_equal.
    apply map_ext. intros row. apply tl_shifted.
Qed.

Lemma loss_result sp wf (w : World ext) inputs target output :
  encode_batch (self w) wf = Ok (inputs, target) ->
  forward (module (self w)) inputs sp = Ok output ->
  loss ext sp wf w =
  (Ok (apply_criterion ext (criterion (self w)) (removelast output) target),
   {| self := self w; rng := rng w; trace := trace w ++ [EvForward] |}).
Proof.
  intros He Hf. unfold loss, bind, get, lift, emit, ret. simpl.
  rewrite He. simpl. rewrite Hf. reflexivity.
Qed.

End Loss.


(** * Further properties of the class *)

(** ** The label transforms keep the order of the classes *)

(** X1. For more than one class both label transforms are strictly
    increasing, [float_2_label] sends the amplitudes -1 and 1 to the first
    and the last class, and [label_2_float] sends these classes back to
    -1 and 1. *)
Theorem label_transforms_increasing (n_classes : Z) (x y : R) :
  (1 < n_classes)%Z -> (x < y)%R ->
  (label_2_float x n_classes < label_2_float y n_classes)%R /\
  (float_2_label x n_classes < float_2_label y n_classes)%R /\
  float_2_label (-1) n_classes = 0%R /\
  float_2_label 1 n_classes = (IZR n_classes - 1)%R /\
  label_2_float 0 n_classes = (-1)%R /\
  label_2_float (IZR n_classes - 1) n_classes = 1%R.
Proof.
  intros Hn Hxy.
  assert (Hm : (0 < IZR n_classes - 1)%R) by (apply IZR_lt in Hn; lra).
  assert (Hinv : (0 < / (IZR n_classes - 1))%R) by now apply Rinv_0_lt_compat.
  unfold label_2_float, float_2_label, Rdiv.
  repeat split; try nra; field; lra.
Qed.

Lemma label_transforms_increasing_witness :
  (label_2_float 0 256 < label_2_float 1 256)%R /\
  (float_2_label 0 256 < float_2_label 1 256)%R /\
  float_2_label (-1) 256 = 0%R /\
  float_2_label 1 256 = (IZR 256 - 1)%R /\
  label_2_float 0 256 = (-1)%R /\
  label_2_float (IZR 256 - 1) 256 = 1%R.
Proof. apply (label_transforms_increasing 256 0 1); [lia|lra]. Defined.

(** ** The class read back from a categorical sample *)

Lemma argmax_from_top (rest : list R) (best_i i : nat) :
  Forall (fun v => (v <= 1)%R) rest ->
  argmax_from best_i 1 i rest = best_i.
Proof.
  revert i. induction rest as [|v rest IH]; intros i H; [reflexivity|].
  inversion H as [|? ? Hv Hrest]; subst. simpl.
  destruct (Rlt_dec 1 v); [lra|]. now apply IH.
Qed.

Lemma one_hot_le_1 (f : nat -> bool) (l : list nat) :
  Forall (fun v => (v <= 1)%R) (map (fun j => if f j then 1%R else 0%R) l).
Proof.
  rewrite List.Forall_map. apply List.Forall_forall. intros j _.
  destruct (f j); lra.
Qed.

Lemma argmax_from_one_hot (m k i best_i : nat) :
  k <= i < k + m ->
  argmax_from best_i 0 k
    (map (fun j => if Nat.eqb j i then 1%R else 0%R) (seq k m)) = i.
Proof.
  revert k best_i. induction m as [|m IH]; intros k best_i Hi; [lia|].
  simpl. destruct (Nat.eqb k i) eqn:E.
  - apply Nat.eqb_eq in E. subst k.
    destruct (Rlt_dec 0 1); [|lra].
    apply argmax_from_top. apply one_hot_le_1.
  - apply Nat.eqb_neq in E.
    destruct (Rlt_dec 0 0); [lra|].
    apply IH. lia.
Qed.

(** X2. [argmax] undoes [one_hot]: the class read off a one-hot row of
    [n] classes is the class the row was built for, for every class below
    [n].  This is how [generate] recovers the drawn class from the samples
    of the categorical head. *)
Theorem argmax_one_hot (n i : nat) :
  i < n -> argmax (one_hot_row n i) = i.
Proof.
  intros Hi. unfold one_hot_row, argmax.
  destruct n as [|n]; [lia|]. simpl.
  destruct i as [|i].
  - simpl. apply argmax_from_top. apply (one_hot_le_1 (fun j => Nat.eqb j 0)).
  - simpl. apply argmax_from_one_hot. lia.
Qed.

Lemma argmax_one_hot_witness : argmax (one_hot_row 256 7) = 7.
Proof. apply (argmax_one_hot 256 7). lia. Defined.

Section Methods.

Context (ext : Collaborators).

(** ** The sampler on an unknown distribution family *)

(** X3. For a scalar input and a distribution name that is neither
    "Logistic" nor "Normal", [get_x_from_dist] raises [AssertionError]
    whatever its flags; nothing is drawn from the random source and
    nothing else changes. *)
Theorem get_x_from_dist_unknown_family distrib (y : Frame) hist B softmax quantize
    (w : World ext) :
  scalar_input (self w) = true ->
  distrib <> "Logistic" -> distrib <> "Normal" ->
  get_x_from_dist ext distrib y hist B softmax quantize w = (Raise AssertionError, w).
Proof.
  intros Hs HL HN. unfold get_x_from_dist, bind, get. simpl. rewrite Hs.
  destruct (String.eqb distrib "Logistic") eqn:E1.
  { apply String.eqb_eq in E1. contradiction. }
  destruct (String.eqb distrib "Normal") eqn:E2.
  { apply String.eqb_eq in E2. contradiction. }
  reflexivity.
Qed.

(** ** What the construction accepts *)

(** X4. The constructor returns an object exactly when the constructor
    of the base class, both helpers, the network constructor and the
    optimizer constructor return and, in addition, the input type is the
    quantized one or the distribution family is "Logistic" or "Normal".
    The object then carries the configuration, the helper's answer as
    [scalar_input], the constructed network, the optimizer built over it
    with the configured learning rate, no gradient, companding transforms
    for the configured number of channels, and cross-entropy for the
    quantized input type or else the mixture loss of the family. *)
Theorem init_returns_iff (cfg : Config) (s0 : WaveNet ext) :
  __init__ ext cfg = Ok s0 <->
  exists scalar net opt mq,
    Vocoder_init ext cfg = Ok tt /\
    is_scalar_input ext (input_type (model cfg)) = Ok scalar /\
    wavenet_WaveNet ext (model cfg) scalar = Ok net /\
    Adam ext net (learning_rate (model cfg)) = Ok opt /\
    is_mulaw_quantize ext (input_type (model cfg)) = Ok mq /\
    (mq = true \/ output_distribution (model cfg) = "Logistic" \/
     output_distribution (model cfg) = "Normal") /\
    s0 = Build_WaveNet ext cfg scalar net opt None
           (quantize_channels (model cfg)) (quantize_channels (model cfg))
           (if mq then CrossEntropyLoss
            else if String.eqb (output_distribution (model cfg)) "Logistic"
                 then DiscretizedMixturelogisticLoss cfg
                 else MixtureGaussianLoss cfg).
Proof.
  unfold __init__. split.
  - destruct (Vocoder_init ext cfg) as [[]|e] eqn:Hv; [|discriminate].
    destruct (is_scalar_input ext (input_type (model cfg))) as [scalar|e] eqn:Hs;
      [|discriminate].
    destruct (wavenet_WaveNet ext (model cfg) scalar) as [net|e] eqn:Hn; [|discriminate].
    destruct (Adam ext net (learning_rate (model cfg))) as [opt|e] eqn:Ha;
      [|discriminate].
    destruct (is_mulaw_quantize ext (input_type (model cfg))) as [[|]|e] eqn:Hm;
      [| |discriminate].
    + intros H. injection H as <-. exists scalar, net, opt, true.
      repeat split; auto.
    + destruct (String.eqb (output_distribution (model cfg)) "Logistic") eqn:E1.
      * intros H. injection H as <-. exists scalar, net, opt, false.
        apply String.eqb_eq in E1. repeat split; auto.
      * destruct (String.eqb (output_distribution (model cfg)) "Normal") eqn:E2;
          [|discriminate].
        intros H. injection H as <-. exists scalar, net, opt, false.
        apply String.eqb_eq in E2. repeat split; auto.
  - intros (scalar & net & opt & mq & Hv & Hs & Hn & Ha & Hm & Hd & ->).
    rewrite Hv, Hs, Hn, Ha, Hm. destruct mq; [reflexivity|].
    destruct Hd as [Hd | [Hd | Hd]]; [discriminate| |].
    + rewrite Hd. reflexivity.
    + rewrite Hd. reflexivity.
Qed.

(** ** The state after the training calls *)

Lemma loss_world sp wf (w : World ext) :
  snd (loss ext sp wf w) = w \/
  snd (loss ext sp wf w) =
    {| self := self w; rng := rng w; trace := trace w ++ [EvForward] |}.
Proof.
  unfold loss, bind, get, lift, emit, ret. simpl.
  destruct (encode_batch (self w) wf) as [[inputs target]|e]; simpl; [|now left].
  destruct (forward (module (self w)) inputs sp) as [output|e]; simpl; now right.
Qed.

Lemma validation_world sp wf (w : World ext) :
  snd (validation_losses ext sp wf w) = snd (loss ext sp wf w).
Proof.
  unfold validation_losses, bind at 1.
  destruct (loss ext sp wf w) as [[l|e] w1]; reflexivity.
Qed.

Lemma train_step_raise sp wf (w w1 : World ext) e :
  loss ext sp wf w = (Raise e, w1) -> train_step ext sp wf w = (Raise e, w1).
Proof. intros H. unfold train_step. unfold bind at 1. now rewrite H. Qed.

Lemma train_step_ok sp wf (w w1 : World ext) l :
  loss ext sp wf w = (Ok l, w1) ->
  train_step ext sp wf w =
  (Ok (l, ∅),
   {| self :=
        (let '(o, n) :=
           optimizer_step ext (optimizer (self w1)) (module (self w1))
             (Some (loss_backward ext (module (self w1)) sp wf)) in
         set_module
           (set_optimizer
              (set_grad (self w1)
                 (Some (loss_backward ext (module (self w1)) sp wf))) o) n);
      rng := rng w1;
      trace := trace w1 ++ [EvZeroGrad; EvBackward; EvOptimizerStep] |}).
Proof.
  intros H. unfold train_step. unfold bind at 1. rewrite H.
  unfold bind, emit, update_self, ret. simpl.
  rewrite <- !app_assoc. reflexivity.
Qed.

Lemma loss_ok_world sp wf (w w1 : World ext) l :
  loss ext sp wf w = (Ok l, w1) ->
  w1 = {| self := self w; rng := rng w; trace := trace w ++ [EvForward] |}.
Proof.
  unfold loss, bind, get, lift, emit, ret. simpl.
  destruct (encode_batch (self w) wf) as [[inputs target]|e]; simpl; [|discriminate].
  destruct (forward (module (self w)) inputs sp) as [output|e]; simpl; [|discriminate].
  intros H. now inversion H.
Qed.

(** X6. A [train_step] whose loss computation raises stops there: the
    object is as before, and no gradient or optimizer call is made.  One
    whose loss computation returns calls, after the forward pass,
    [zero_grad], [backward] and the optimizer step once each in this order;
    afterwards the object holds the gradient of the batch and the network
    and optimizer state the step produced from it, its configuration and
    criterion are unchanged, and [get_optimizers] returns that optimizer
    alone, without scheduler. *)
Theorem train_step_effects sp wf (w : World ext) :
  (forall e, fst (loss ext sp wf w) = Raise e ->
     fst (train_step ext sp wf w) = Raise e /\
     self (snd (train_step ext sp wf w)) = self w /\
     (trace (snd (train_step ext sp wf w)) = trace w \/
      trace (snd (train_step ext sp wf w)) = trace w ++ [EvForward])) /\
  (forall l, fst (loss ext sp wf w) = Ok l ->
     let w' := snd (train_step ext sp wf w) in
     let g := loss_backward ext (module (self w)) sp wf in
     fst (train_step ext sp wf w) = Ok (l, ∅) /\
     trace w' = trace w ++ [EvForward; EvZeroGrad; EvBackward; EvOptimizerStep] /\
     grad (self w') = Some g /\
     (optimizer (self w'), module (self w')) =
       optimizer_step ext (optimizer (self w)) (module (self w)) (Some g) /\
     config (self w') = config (self w) /\
     criterion (self w') = criterion (self w) /\
     get_optimizers (self w') = [(optimizer (self w'), None)]).
Proof.
  split.
  - intros e He. pose proof (loss_world sp wf w) as Hw.
    destruct (loss ext sp wf w) as [r w1] eqn:Hloss. simpl in He, Hw. subst r.
    rewrite (train_step_raise sp wf w w1 e Hloss). simpl.
    destruct Hw as [-> | ->]; simpl; auto.
  - intros l Hl.
    destruct (loss ext sp wf w) as [r w1] eqn:Hloss. simpl in Hl. subst r.
    rewrite (train_step_ok sp wf w w1 l Hloss).
    apply loss_ok_world in Hloss. subst w1. simpl.
    destruct (optimizer_step ext (optimizer (self w)) (module (self w))
                (Some (loss_backward ext (module (self w)) sp wf))) as [o n].
    simpl. rewrite <- !app_assoc. simpl. repeat split.
Qed.

End Methods.

(** X3, witness: a scalar input with the family "Bar". *)
Lemma get_x_from_dist_unknown_family_witness :
  let w := demo_world (demo_self "raw" "Bar" true CrossEntropyLoss) in
  get_x_from_dist demo_ext "Bar" [[0%R]] [] 1 true true w = (Raise AssertionError, w).
Proof.
  apply (get_x_from_dist_unknown_family demo_ext "Bar" [[0%R]] [] 1 true true
           (demo_world (demo_self "raw" "Bar" true CrossEntropyLoss)));
    [reflexivity | discriminate | discriminate].
Defined.

(** ** What a generation leaves behind *)

Lemma blocks_incremental_clear bs x ct acc :
  map (fun b => block_set_buffer b None) (snd (blocks_incremental bs x ct acc)) =
  map (fun b => block_set_buffer b None) bs.
Proof.
  revert x acc. induction bs as [|b bs IH]; intros x acc; [reflexivity|].
  simpl.
  specialize (IH (fst (fst (block_incremental_forward b x ct)))
                 (skips_add acc (snd (fst (block_incremental_forward b x ct))))).
  simpl in IH.
  destruct (blocks_incremental bs _ ct _) as [[x2 sk2] rest1].
  simpl in *. f_equal. exact IH.
Qed.

Lemma last_incremental_clear ls x :
  map last_clear (snd (last_incremental ls x)) = map last_clear ls.
Proof.
  revert x. induction ls as [|[c|f] ls IH]; intros x; [reflexivity| |]; simpl.
  - specialize (IH (conv_weight c (taps (conv_kernel_size c) (conv_dilation c)
        (history (conv_buffer c) (conv_kernel_size c) (conv_dilation c) x ++ [x])))).
    destruct (last_incremental ls _) as [x2 rest1]. simpl in *. f_equal. exact IH.
  - specialize (IH (f x)).
    destruct (last_incremental ls (f x)) as [x2 rest1]. simpl in *. f_equal. exact IH.
Qed.

(** One incremental step changes nothing but caches. *)
Lemma stack_step_weights n x ct r n1 :
  stack_step n x ct = (r, n1) -> weights n1 = weights n.
Proof.
  unfold stack_step, skip_path. simpl.
  pose proof (blocks_incremental_clear (conv_layers n)
    (fst (conv_incremental_forward (first_conv n) x)) ct None) as Hb.
  simpl in Hb.
  destruct (blocks_incremental (conv_layers n) _ ct None) as [[x2 sk] cl].
  simpl in Hb.
  destruct (scale_skips (length (conv_layers n)) sk) as [x3|e]; simpl.
  - pose proof (last_incremental_clear (last_conv_layers n) x3) as Hl.
    destruct (last_incremental (last_conv_layers n) x3) as [x4 ll]. simpl in Hl.
    intros H. inversion H; subst.
    unfold weights, clear_buffer, set_layers, set_training. simpl.
    now rewrite Hb, Hl.
  - intros H. inversion H; subst.
    unfold weights, clear_buffer, set_layers, set_training. simpl.
    now rewrite Hb.
Qed.

Lemma weights_cleared n b : weights (clear_buffer (set_training n b)) = weights n.
Proof.
  unfold weights. rewrite clear_buffer_twice. reflexivity.
Qed.

Lemma weights_trained n b : weights (set_training (clear_buffer n) b) = weights n.
Proof.
  unfold weights. exact (clear_buffer_twice n true).
Qed.

Section Outcomes.

Context (ext : Collaborators).

Lemma get_x_from_dist_world distrib (y : Frame) hist B softmax quantize
    (w : World ext) r w' :
  get_x_from_dist ext distrib y hist B softmax quantize w = (r, w') ->
  self w' = self w /\ trace w' = trace w.
Proof.
  unfold get_x_from_dist, bind, get. simpl.
  destruct (scalar_input (self w)).
  - destruct (String.eqb distrib "Logistic").
    + unfold draw. destruct (sample_from_discretized_mix_logistic _ _ _).
      simpl. intros H. inversion H. now split.
    + destruct (String.eqb distrib "Normal").
      * unfold draw. destruct (sample_from_mix_gaussian _ _ _).
        simpl. intros H. inversion H. now split.
      * intros H. inversion H. now split.
  - destruct quantize.
    + destruct softmax.
      * destruct (one_hot_categorical_spec ext (map softmax_row (view B y)) w)
          as (x & r0 & Hrun & _).
        rewrite Hrun. simpl. intros H. inversion H. now split.
      * destruct (one_hot_categorical_spec ext (view B y) w)
          as (x & r0 & Hrun & _).
        rewrite Hrun. simpl. intros H. inversion H. now split.
    + simpl. intros H. inversion H. now split.
Qed.

Lemma timestep_all frames B t vars (w : World ext) r w' :
  timestep ext frames B t vars w = (r, w') ->
  same_object (self w) (self w') /\
  weights (module (self w')) = weights (module (self w)) /\
  training (module (self w')) = training (module (self w)) /\
  trace w' = trace w ++ [EvTimestep t].
Proof.
  destruct vars as [x output]. rewrite timestep_unfold.
  destruct (nth_error frames t) as [ct|].
  2:{ intros H. inversion H. simpl. repeat split. }
  destruct (stack_step (module (self w)) x ct) as [[y|e] n1] eqn:Hstep.
  - intros H. apply get_x_from_dist_world in H. destruct H as [Hs Ht].
    rewrite Hs, Ht. simpl.
    split; [apply same_object_set_module|].
    split; [exact (stack_step_weights _ _ _ _ _ Hstep)|].
    split; [|reflexivity].
    now apply stack_step_layers in Hstep.
  - intros H. inversion H. simpl.
    split; [apply same_object_set_module|].
    split; [exact (stack_step_weights _ _ _ _ _ Hstep)|].
    split; [|reflexivity].
    now apply stack_step_layers in Hstep.
Qed.

Lemma for_each_all frames B ts vars (w : World ext) r w' :
  for_each ext (timestep ext frames B) ts vars w = (r, w') ->
  same_object (self w) (self w') /\
  weights (module (self w')) = weights (module (self w)) /\
  training (module (self w')) = training (module (self w)) /\
  exists k, k <= length ts /\ trace w' = trace w ++ map EvTimestep (firstn k ts).
Proof.
  revert vars w. induction ts as [|t ts IH]; intros vars w; simpl.
  - intros H. inversion H; subst. split; [apply same_object_refl|].
    split; [reflexivity|]. split; [reflexivity|].
    exists 0. split; [lia|]. simpl. now rewrite app_nil_r.
  - unfold bind.
    destruct (timestep ext frames B t vars w) as [[vars1|e] w1] eqn:Hstep.
    + intros H. apply IH in H. apply timestep_all in Hstep.
      destruct Hstep as (Hs1 & Hw1 & Ht1 & Htr1).
      destruct H as (Hs2 & Hw2 & Ht2 & k & Hk & Htr2).
      split; [eapply same_object_trans; eassumption|].
      split; [congruence|]. split; [congruence|].
      exists (S k). split; [lia|]. simpl.
      rewrite Htr2, Htr1, <- app_assoc. reflexivity.
    + intros H. inversion H; subst. apply timestep_all in Hstep.
      destruct Hstep as (Hs1 & Hw1 & Ht1 & Htr1).
      split; [exact Hs1|]. split; [exact Hw1|]. split; [exact Ht1|].
      exists 1. split; [lia|]. simpl. exact Htr1.
Qed.

Lemma firstn_seq_le (k a n : nat) : k <= n -> firstn k (seq a n) = seq a k.
Proof.
  revert a n. induction k as [|k IH]; intros a n H; [reflexivity|].
  destruct n as [|n]; [lia|]. simpl. f_equal. apply IH. lia.
Qed.

Lemma generate_loop_all sp tr (w : World ext) r w2 :
  generate_loop ext w sp tr = (r, w2) ->
  same_object (self w) (self w2) /\
  weights (module (self w2)) = weights (module (self w)) /\
  training (module (self w2)) = false /\
  exists k, k <= loop_len w sp tr /\
    trace w2 = trace w ++ [EvEval; EvClearBuffer] ++ map EvTimestep (seq 0 k).
Proof.
  unfold generate_loop. intros H. apply for_each_all in H.
  destruct H as (Hs & Hw & Ht & k & Hk & Htr).
  split; [exact Hs|].
  split; [rewrite Hw; simpl; apply weights_cleared|].
  split; [rewrite Ht; reflexivity|].
  rewrite length_seq in Hk. exists k. split; [exact Hk|].
  rewrite Htr, firstn_seq_le by exact Hk. simpl. rewrite <- !app_assoc.
  reflexivity.
Qed.

(** X7. Whatever a call of [generate] does, returning or raising, it
    changes nothing of the object but the caches and the mode of the
    network: configuration, criterion, optimizer, gradient and the learned
    part of the network are as before. *)
Theorem generate_keeps_parameters sp tr (w : World ext) :
  same_object (self w) (self (snd (generate ext sp tr w))) /\
  weights (module (self (snd (generate ext sp tr w)))) = weights (module (self w)).
Proof.
  rewrite generate_unfold.
  destruct (generate_loop ext w sp tr) as [r w2] eqn:Hloop.
  apply generate_loop_all in Hloop. destruct Hloop as (Hs & Hw & _).
  destruct r as [[x output]|e]; [|now split].
  destruct (stack_transpose output) as [o1|e]; [|now split].
  destruct (decode (self w2) o1) as [o2|e]; [|now split].
  simpl. split.
  - eapply same_object_trans; [exact Hs|apply same_object_set_module].
  - rewrite weights_trained. exact Hw.
Qed.

(** X8. A call of [generate] that raises leaves the network in
    evaluation mode: it has run [eval], the first cache reset and the
    timesteps up to the failing one, and neither the final cache reset nor
    [train]. *)
Theorem generate_raise_stays_eval sp tr (w w' : World ext) e :
  generate ext sp tr w = (Raise e, w') ->
  training (module (self w')) = false /\
  exists k, k <= loop_len w sp tr /\
    trace w' = trace w ++ [EvEval; EvClearBuffer] ++ map EvTimestep (seq 0 k).
Proof.
  rewrite generate_unfold.
  destruct (generate_loop ext w sp tr) as [r w2] eqn:Hloop.
  apply generate_loop_all in Hloop. destruct Hloop as (_ & _ & Ht & Hk).
  destruct r as [[x output]|e0].
  - destruct (stack_transpose output) as [o1|e1].
    + destruct (decode (self w2) o1) as [o2|e2]; [discriminate|].
      intros H. inversion H; subst. now split.
    + intros H. inversion H; subst. now split.
  - intros H. inversion H; subst. now split.
Qed.

(** X9. With [training=False] and an upsampled conditioning of length
    zero the loop body never runs and [generate] raises the error of
    [torch.stack] on an empty list; the caches have been cleared once and
    the network is left in evaluation mode. *)
Theorem generate_empty_conditioning sp (w : World ext) :
  size_last (upsample_net (module (self w)) sp) = 0 ->
  generate ext sp false w =
    (Raise (RuntimeError "stack expects a non-empty TensorList"), begin_generate w) /\
  trace (begin_generate w) = trace w ++ [EvEval; EvClearBuffer] /\
  buffers_cleared (module (self (begin_generate w))) /\
  training (module (self (begin_generate w))) = false.
Proof.
  intros H. split.
  - rewrite generate_unfold. unfold generate_loop, loop_len. rewrite H. reflexivity.
  - split; [simpl; now rewrite <- app_assoc|].
    split; [|reflexivity].
    exact (clear_buffer_cleared (set_training (module (self w)) false)).
Qed.

(** X10. On a network without blocks, with at least one conditioning
    frame and a positive loop bound, [generate] raises
    [ZeroDivisionError] in its first timestep. *)
Theorem generate_without_blocks sp tr (w : World ext) :
  conv_layers (module (self w)) = [] ->
  0 < size_last (upsample_net (module (self w)) sp) ->
  0 < loop_len w sp tr ->
  exists w',
    generate ext sp tr w = (Raise ZeroDivisionError, w') /\
    trace w' = trace w ++ [EvEval; EvClearBuffer; EvTimestep 0].
Proof.
  intros Hnil Hsize Hlen.
  rewrite generate_unfold. unfold generate_loop.
  destruct (loop_len w sp tr) as [|m]; [lia|].
  simpl seq. cbn [for_each]. unfold bind.
  destruct (nth_error (loop_frames w sp) 0) as [ct|] eqn:Hct.
  2:{ apply nth_error_None in Hct. unfold loop_frames in Hct.
      rewrite transpose_1_2_length in Hct. lia. }
  rewrite timestep_unfold, Hct.
  destruct (stack_step (module (self (begin_generate w))) (loop_seed w sp) ct)
    as [[y|e] n1] eqn:Hstep.
  - exfalso.
    assert (Hne : conv_layers (module (self (begin_generate w))) = []).
    { simpl. now rewrite Hnil. }
    revert Hstep. unfold stack_step, skip_path. simpl. rewrite Hnil. simpl.
    discriminate.
  - apply stack_step_raise in Hstep. destruct Hstep as [-> _].
    eexists. split; [reflexivity|]. simpl. now rewrite <- !app_assoc.
Qed.

End Outcomes.

(** X8, witness: the first second of a one-frame conditioning. *)
Lemma generate_raise_stays_eval_witness :
  let w := demo_world (demo_self "raw" "Logistic" true
             (DiscretizedMixturelogisticLoss (demo_config "raw" "Logistic"))) in
  let w' := snd (generate demo_ext (demo_spectrogram 1) true w) in
  training (module (self w')) = false /\
  exists k, k <= loop_len w (demo_spectrogram 1) true /\
    trace w' = trace w ++ [EvEval; EvClearBuffer] ++ map EvTimestep (seq 0 k).
Proof.
  apply (generate_raise_stays_eval demo_ext (demo_spectrogram 1) true
           (demo_world (demo_self "raw" "Logistic" true
              (DiscretizedMixturelogisticLoss (demo_config "raw" "Logistic"))))
           _ IndexError).
  apply injective_projections; [lazy; reflexivity | reflexivity].
Defined.

(** X9, witness: no conditioning frame at all. *)
Lemma generate_empty_conditioning_witness :
  let w := demo_world (demo_self "raw" "Logistic" true
             (DiscretizedMixturelogisticLoss (demo_config "raw" "Logistic"))) in
  generate demo_ext (demo_spectrogram 0) false w =
    (Raise (RuntimeError "stack expects a non-empty TensorList"), begin_generate w) /\
  trace (begin_generate w) = trace w ++ [EvEval; EvClearBuffer] /\
  buffers_cleared (module (self (begin_generate w))) /\
  training (module (self (begin_generate w))) = false.
Proof.
  apply (generate_empty_conditioning demo_ext (demo_spectrogram 0)
           (demo_world (demo_self "raw" "Logistic" true
              (DiscretizedMixturelogisticLoss (demo_config "raw" "Logistic"))))).
  reflexivity.
Defined.

(** X10, witness: the instance without blocks on two conditioning frames. *)
Lemma generate_without_blocks_witness :
  exists w',
    generate demo_ext (demo_spectrogram 2) false (demo_world bare_self)
      = (Raise ZeroDivisionError, w') /\
    trace w' = trace (demo_world bare_self) ++ [EvEval; EvClearBuffer; EvTimestep 0].
Proof.
  apply (generate_without_blocks demo_ext (demo_spectrogram 2) false
           (demo_world bare_self)).
  - reflexivity.
  - simpl. lia.
  - simpl. lia.
Defined.

Section ShortConditioning.

Context (ext : Collaborators).

Lemma for_each_app {S} (body : nat -> S -> M ext S) (ts1 ts2 : list nat) (s : S)
    (w : World ext) :
  for_each ext body (ts1 ++ ts2) s w =
  match for_each ext body ts1 s w with
  | (Ok s1, w1) => for_each ext body ts2 s1 w1
  | (Raise e, w1) => (Raise e, w1)
  end.
Proof.
  revert s w. induction ts1 as [|t ts1 IH]; intros s w; [reflexivity|].
  simpl. unfold bind. destruct (body t s w) as [[s1|e] w1]; [apply IH|reflexivity].
Qed.

(** X11. With [training=True], at least one block, a sampler that cannot
    raise and an upsampled conditioning of fewer than 22050 frames,
    [generate] raises [IndexError]: it runs one timestep for every frame,
    fails when it indexes the frame after the last, and returns no
    waveform. *)
Theorem generate_short_conditioning sp (w : World ext) :
  conv_layers (module (self w)) <> [] ->
  dist_ok (self w) ->
  (Z.of_nat (size_last (upsample_net (module (self w)) sp)) < 22050)%Z ->
  exists w',
    generate ext sp true w = (Raise IndexError, w') /\
    trace w' = trace w ++ [EvEval; EvClearBuffer]
                 ++ map EvTimestep
                      (seq 0 (S (size_last (upsample_net (module (self w)) sp)))).
Proof.
  intros Hne Hd Hshort.
  set (T := size_last (upsample_net (module (self w)) sp)) in *.
  assert (Hk : exists k, first_second = T + S k).
  { exists (first_second - S T). pose proof first_second_samples. lia. }
  destruct Hk as [k Hk].
  rewrite (seq_S T 0). cbn [Nat.add].
  rewrite generate_unfold. unfold generate_loop, loop_len.
  rewrite Hk, seq_app, for_each_app.
  destruct (for_each_ok ext (fun n => conv_layers n <> []) (fun _ => True)
              (loop_frames w sp) (loop_batch w sp) nonempty_invariant
              (seq 0 T) (loop_seed w sp) [] (begin_generate w))
    as (x' & samples & w1 & Hrun & _ & Htr & _).
  - intros t Ht. apply in_seq in Ht. unfold loop_frames.
    rewrite transpose_1_2_length. fold T. lia.
  - now apply begin_generate_nonempty.
  - exact Hd.
  - rewrite Hrun. cbn [seq for_each Nat.add]. unfold bind.
    rewrite timestep_unfold.
    destruct (nth_error (loop_frames w sp) T) as [ct|] eqn:Hct.
    + exfalso. assert (Hlt : T < length (loop_frames w sp)).
      { apply nth_error_Some. rewrite Hct. discriminate. }
      unfold loop_frames in Hlt. rewrite transpose_1_2_length in Hlt. fold T in Hlt. lia.
    + eexists. split; [reflexivity|]. simpl trace.
      rewrite Htr. simpl. rewrite map_app, <- !app_assoc. reflexivity.
Qed.

End ShortConditioning.

(** X11, witness: the first second of a one-frame conditioning. *)
Lemma generate_short_conditioning_witness :
  let w := demo_world (demo_self "raw" "Logistic" true
             (DiscretizedMixturelogisticLoss (demo_config "raw" "Logistic"))) in
  exists w',
    generate demo_ext (demo_spectrogram 1) true w = (Raise IndexError, w') /\
    trace w' = trace w ++ [EvEval; EvClearBuffer]
                 ++ map EvTimestep
                      (seq 0 (S (size_last (upsample_net (module (self w))
                                              (demo_spectrogram 1))))).
Proof.
  apply (generate_short_conditioning demo_ext (demo_spectrogram 1)
           (demo_world (demo_self "raw" "Logistic" true
              (DiscretizedMixturelogisticLoss (demo_config "raw" "Logistic"))))).
  - simpl. discriminate.
  - unfold dist_ok. intros _. left. reflexivity.
  - simpl. lia.
Defined.

(** ** Decoding the companded samples *)

Lemma float_2_label_range (x : R) (n_classes : Z) :
  (1 < n_classes)%Z -> (-1 <= x <= 1)%R ->
  (0 <= float_2_label x n_classes <= IZR n_classes - 1)%R.
Proof.
  intros Hn Hx. assert (Hm : (0 < IZR n_classes - 1)%R) by (apply IZR_lt in Hn; lra).
  unfold float_2_label. split; nra.
Qed.

Lemma trunc_range (y : R) (m : Z) :
  (0 <= y <= IZR m)%R -> (0 <= trunc y <= m)%Z.
Proof.
  intros [H0 Hm]. rewrite trunc_nonneg by exact H0.
  pose proof (Int_part_bounds y) as [Hi1 Hi2]. split.
  - assert (H : (-1 < Int_part y)%Z); [|lia]. apply lt_IZR. lra.
  - apply le_IZR. lra.
Qed.

Section Decode.

Context (ext : Collaborators).

(** X12. For the input type "mulaw", a decoder built for the configured
    number of channels (more than one) and stacked samples that all lie in
    [-1, 1]: the inverse label transform of [generate] succeeds, keeps the
    number of values, and every decoded amplitude lies in [-1, 1]. *)
Theorem decode_mulaw_range (s : WaveNet ext) (stacked : Tensor3) :
  input_type (model (config s)) = "mulaw" ->
  expand s = quantize_channels (model (config s)) ->
  (1 < quantize_channels (model (config s)))%Z ->
  Forall (Forall (Forall (fun v => (-1 <= v <= 1)%R))) stacked ->
  exists wave,
    decode s stacked = Ok (Wave3 wave) /\
    Forall (fun v => (-1 <= v <= 1)%R) (flatten (Wave3 wave)) /\
    length (flatten (Wave3 wave)) = length (concat (concat stacked)).
Proof.
  intros Hit Hexp Hqc Hin. unfold decode. rewrite Hit. simpl.
  eexists. split; [reflexivity|]. split.
  - apply Forall_concat, Forall_concat.
    rewrite List.Forall_map. eapply List.Forall_impl; [|exact Hin].
    intros rows Hrows. rewrite List.Forall_map.
    eapply List.Forall_impl; [|exact Hrows].
    intros row Hrow. rewrite List.Forall_map.
    eapply List.Forall_impl; [|exact Hrow].
    intros v Hv. rewrite Hexp. apply mu_law_decoding_range; [exact Hqc|].
    assert (Hr : (0 <= trunc (float_2_label v (quantize_channels (model (config s))))
                  <= quantize_channels (model (config s)) - 1)%Z); [|lia].
    apply trunc_range. rewrite minus_IZR. now apply float_2_label_range.
  - clear Hin. induction stacked as [|rows stacked IH]; [reflexivity|].
    simpl. rewrite !concat_app, !length_app, IH. f_equal.
    clear IH. induction rows as [|row rows IH]; [reflexivity|].
    simpl. rewrite !length_app, IH, length_map. reflexivity.
Qed.

(** ** The layout of the returned tensor *)

Lemma concat_concat_map {A B} (f : A -> list (list B)) (l : list A) :
  concat (concat (map f l)) = concat (map (fun a => concat (f a)) l).
Proof.
  induction l as [|a l IH]; [reflexivity|].
  simpl. now rewrite concat_app, IH.
Qed.

(** X13. For the input type "raw", a call of [generate] that returns
    hands back the samples of its timestep loop unchanged and batch-major:
    all timesteps of the first sequence of the batch, then all timesteps
    of the second, and so on. *)
Theorem generate_raw_layout sp tr (w : World ext) out w' :
  input_type (model (config (self w))) = "raw" ->
  generate ext sp tr w = (Ok out, w') ->
  exists x samples w2,
    generate_loop ext w sp tr = (Ok (x, samples), w2) /\
    out = concat (map (fun b => concat (map (fun frame => nth b frame []) samples))
                      (seq 0 (length (hd [] samples)))).
Proof.
  intros Hit H. apply generate_ok_end in H.
  destruct H as (x & samples & w2 & stacked & wave & Hloop & Hst & Hdec & -> & _).
  exists x, samples, w2. split; [exact Hloop|].
  apply generate_loop_all in Hloop. destruct Hloop as ((Hcfg & _) & _).
  unfold decode in Hdec. rewrite Hcfg, Hit in Hdec. simpl in Hdec.
  inversion Hdec; subst wave.
  destruct samples as [|first rest]; [discriminate|].
  simpl in Hst. inversion Hst; subst stacked. simpl hd.
  apply (concat_concat_map
           (fun b => map (fun frame : list (list R) => nth b frame []) (first :: rest))).
Qed.

(** ** The samples of the categorical head *)

Lemma one_hot_categorical_bounded (rows : Frame) (width : nat) (w : World ext) :
  (forall probs r, probs <> [] ->
     fst (categorical_sample ext probs r) < length probs) ->
  0 < width ->
  Forall (fun p => length p = width) rows ->
  exists x r,
    one_hot_categorical ext rows w =
      (Ok x, {| self := self w; rng := r; trace := trace w |}) /\
    length x = length rows /\
    Forall (fun row => exists i, i < width /\ row = one_hot_row width i) x.
Proof.
  intros Hdraw Hpos Hrows. revert w.
  induction Hrows as [|p rows Hp Hrows IH]; intros w.
  - exists [], (rng w). destruct w; simpl. repeat split. constructor.
  - simpl. unfold bind, draw.
    pose proof (Hdraw p (rng w)) as Hi.
    destruct (categorical_sample ext p (rng w)) as [i r1]. simpl in Hi.
    destruct (IH {| self := self w; rng := r1; trace := trace w |})
      as (x & r & Hrun & Hlen & Hx).
    rewrite Hrun. simpl. exists (one_hot_row (length p) i :: x), r.
    split; [reflexivity|]. split; [simpl; now rewrite Hlen|].
    constructor; [|exact Hx].
    exists i. rewrite Hp. split; [|reflexivity].
    rewrite <- Hp. apply Hi. intros ->. simpl in Hp. lia.
Qed.

(** X14. For a non-scalar input, logits whose size is a positive
    multiple of [B] (what [logits.view(B, -1)] requires) and a categorical
    sampler that draws an index among the classes it is given: a call of
    [get_x_from_dist] with the flags [generate] uses returns, whatever the
    distribution name, a sample of [B] rows, each the one-hot row of a
    class below the number of logits of one batch element, and the history
    extended by exactly that sample; the object and the trace are
    unchanged. *)
Theorem get_x_from_dist_categorical distrib (y : Frame) hist B (w : World ext) :
  scalar_input (self w) = false ->
  0 < B -> 0 < numel y -> numel y mod B = 0 ->
  (forall probs r, probs <> [] ->
     fst (categorical_sample ext probs r) < length probs) ->
  exists x w',
    get_x_from_dist ext distrib y hist B true true w = (Ok (x, hist ++ [x]), w') /\
    self w' = self w /\ trace w' = trace w /\
    length x = B /\
    Forall (fun row => exists i, i < numel y / B /\
                                 row = one_hot_row (numel y / B) i) x.
Proof.
  intros Hs HB Hy Hmod Hdraw.
  assert (Hwidth : 0 < numel y / B).
  { pose proof (Nat.div_mod_eq (numel y) B) as Hdm. rewrite Hmod in Hdm.
    destruct (numel y / B); [lia|lia]. }
  destruct (one_hot_categorical_bounded (map softmax_row (view B y)) (numel y / B) w
              Hdraw Hwidth) as (x & r & Hrun & Hlen & Hx).
  { rewrite List.Forall_map.
    eapply List.Forall_impl; [|apply (proj2 (view_rows B y))].
    intros row Hrow. unfold softmax_row. now rewrite length_map. }
  unfold get_x_from_dist, bind, get. simpl. rewrite Hs, Hrun. simpl.
  eexists _, _. split; [reflexivity|]. simpl.
  split; [reflexivity|]. split; [reflexivity|]. split; [|exact Hx].
  rewrite Hlen, length_map. apply (proj1 (view_rows B y)).
Qed.

End Decode.

(** X12, witness: two samples of one sequence. *)
Lemma decode_mulaw_range_witness :
  exists wave,
    decode (demo_self "mulaw" "Logistic" true CrossEntropyLoss) [[[0%R]; [1%R]]]
      = Ok (Wave3 wave) /\
    Forall (fun v => (-1 <= v <= 1)%R) (flatten (Wave3 wave)) /\
    length (flatten (Wave3 wave)) = length (concat (concat [[[0%R]; [1%R]]])).
Proof.
  apply (decode_mulaw_range demo_ext
           (demo_self "mulaw" "Logistic" true CrossEntropyLoss) [[[0%R]; [1%R]]]).
  - reflexivity.
  - reflexivity.
  - simpl. lia.
  - repeat constructor; lra.
Defined.

(** X13, witness: two timesteps of one sequence. *)
Lemma generate_raw_layout_witness :
  let w := demo_world (demo_self "raw" "Logistic" true
             (DiscretizedMixturelogisticLoss (demo_config "raw" "Logistic"))) in
  exists x samples w2,
    generate_loop demo_ext w (demo_spectrogram 2) false = (Ok (x, samples), w2) /\
    [0%R; 0%R] =
      concat (map (fun b => concat (map (fun frame => nth b frame []) samples))
                  (seq 0 (length (hd [] samples)))).
Proof.
  apply (generate_raw_layout demo_ext (demo_spectrogram 2) false
           (demo_world (demo_self "raw" "Logistic" true
              (DiscretizedMixturelogisticLoss (demo_config "raw" "Logistic"))))
           [0%R; 0%R]
           (snd (generate demo_ext (demo_spectrogram 2) false
              (demo_world (demo_self "raw" "Logistic" true
                 (DiscretizedMixturelogisticLoss (demo_config "raw" "Logistic"))))))).
  - reflexivity.
  - vm_compute. reflexivity.
Defined.

(** X14, witness: one row of two logits. *)
Lemma get_x_from_dist_categorical_witness :
  let w := demo_world (demo_self "mulaw-quantize" "Bar" false CrossEntropyLoss) in
  exists x w',
    get_x_from_dist demo_ext "Bar" [[0%R; 0%R]] [] 1 true true w
      = (Ok (x, [] ++ [x]), w') /\
    self w' = self w /\ trace w' = trace w /\
    length x = 1 /\
    Forall (fun row => exists i, i < numel [[0%R; 0%R]] / 1 /\
                                 row = one_hot_row (numel [[0%R; 0%R]] / 1) i) x.
Proof.
  apply (get_x_from_dist_categorical demo_ext "Bar" [[0%R; 0%R]] [] 1
           (demo_world (demo_self "mulaw-quantize" "Bar" false CrossEntropyLoss))).
  - reflexivity.
  - lia.
  - unfold numel. simpl. lia.
  - reflexivity.
  - intros probs r Hp. simpl. destruct probs; [contradiction|simpl; lia].
Defined.

(** ** The batch that [loss] hands to the network *)

Lemma nth_error_tl {A} (l : list A) (t : nat) :
  nth_error (tl l) t = nth_error l (S t).
Proof. destruct l; [now destruct t | reflexivity]. Qed.

Lemma time_major_cell {A} (d : A) (rows : list (list A)) (t b : nat) row v :
  nth_error rows b = Some row ->
  nth_error row t = Some v ->
  t < length (hd [] rows) ->
  exists frame,
    nth_error (time_major d rows) t = Some frame /\ nth_error frame b = Some v.
Proof.
  intros Hb Ht HT. unfold time_major.
  exists (map (fun row => nth t row d) rows). split.
  - rewrite nth_error_map, (nth_error_nth' _ 0) by (now rewrite length_seq).
    rewrite seq_nth by exact HT. reflexivity.
  - rewrite nth_error_map, Hb. simpl. f_equal. now apply nth_error_nth.
Qed.

Lemma time_major_shape {A} (d : A) (rows : list (list A)) :
  length (time_major d rows) = length (hd [] rows) /\
  Forall (fun frame => length frame = length rows) (time_major d rows).
Proof.
  unfold time_major. split.
  - now rewrite length_map, length_seq.
  - rewrite List.Forall_map. apply List.Forall_forall. intros t _.
    apply length_map.
Qed.

Lemma hd_map_length {A B} (f : A -> B) (rows : list (list A)) :
  length (hd [] (map (map f) rows)) = length (hd [] rows).
Proof. destruct rows; [reflexivity | apply length_map]. Qed.

Section Batch.

Context (ext : Collaborators).

(** X15. When the input encoding of [loss] succeeds, input and target
    are aligned for next-sample prediction: for every row [b] of the batch
    and every position [t] with a successor, the network input at time
    [t + 1] holds, for row [b], the encoding of the target's element [t]
    (the float itself for "raw" and "mulaw", its one-hot row for
    "mulaw-quantize"). *)
Theorem encode_batch_aligned (s : WaveNet ext) (wf : list (list R)) inputs target
    (b t : nat) (row : list R) :
  encode_batch s wf = Ok (inputs, target) ->
  nth_error wf b = Some row ->
  S t < length row ->
  S t < length (hd [] wf) ->
  exists frame cell,
    nth_error inputs (S t) = Some frame /\
    nth_error frame b = Some cell /\
    target_cell (quantize_channels (model (config s))) target b t = Some cell.
Proof.
  intros Henc Hb Ht HT.
  destruct (nth_error row (S t)) as [v|] eqn:Hv;
    [|apply nth_error_None in Hv; lia].
  unfold encode_batch in Henc.
  destruct (str_in (input_type (model (config s))) ["mulaw"; "mulaw-quantize"]).
  - destruct (String.eqb (input_type (model (config s))) "mulaw").
    + inversion Henc; subst inputs target; clear Henc.
      set (g := fun v => label_2_float (IZR (mu_law_encoding (compand s) v))
                           (quantize_channels (model (config s)))).
      destruct (time_major_cell 0%R
                  (map (map (fun l => label_2_float (IZR l)
                                        (quantize_channels (model (config s)))))
                       (map (map (mu_law_encoding (compand s))) wf))
                  (S t) b (map g row) (g v)) as (frame & Hf & Hc).
      * rewrite !nth_error_map, Hb. simpl. now rewrite map_map.
      * now rewrite nth_error_map, Hv.
      * now rewrite !hd_map_length.
      * exists (map (fun v => [v]) frame), [g v]. split; [|split].
        -- now rewrite nth_error_map, Hf.
        -- now rewrite nth_error_map, Hc.
        -- simpl. rewrite !nth_error_map, Hb. simpl.
           now rewrite !nth_error_map, nth_error_tl, Hv.
    + destruct (F_one_hot _ _) as [hot|e] eqn:Hhot; [|discriminate].
      inversion Henc; subst inputs target; clear Henc.
      unfold F_one_hot in Hhot.
      destruct (forallb _ _); [|discriminate]. inversion Hhot; subst hot; clear Hhot.
      set (oh := fun l => one_hot_row (Z.to_nat (quantize_channels (model (config s))))
                            (Z.to_nat l)).
      destruct (time_major_cell []
                  (map (map oh) (map (map (mu_law_encoding (compand s))) wf))
                  (S t) b (map oh (map (mu_law_encoding (compand s)) row))
                  (oh (mu_law_encoding (compand s) v))) as (frame & Hf & Hc).
      * now rewrite !nth_error_map, Hb.
      * now rewrite !nth_error_map, Hv.
      * now rewrite !hd_map_length.
      * exists frame, (oh (mu_law_encoding (compand s) v)). split; [exact Hf|].
        split; [exact Hc|].
        simpl. rewrite !nth_error_map, Hb. simpl.
        now rewrite !nth_error_map, nth_error_tl, Hv.
  - destruct (String.eqb (input_type (model (config s))) "raw"); [|discriminate].
    inversion Henc; subst inputs target; clear Henc.
    destruct (time_major_cell 0%R wf (S t) b row v Hb Hv HT) as (frame & Hf & Hc).
    exists (map (fun v => [v]) frame), [v]. split; [|split].
    + now rewrite nth_error_map, Hf.
    + now rewrite nth_error_map, Hc.
    + simpl. rewrite nth_error_map, Hb. simpl. now rewrite nth_error_tl, Hv.
Qed.

(** X16. When the input encoding of [loss] succeeds, the network input
    has one frame per sample of the first waveform, every frame has one
    row per waveform of the batch, and every row of the target is one
    sample shorter than its waveform. *)
Theorem encode_batch_shapes (s : WaveNet ext) (wf : list (list R)) inputs target :
  encode_batch s wf = Ok (inputs, target) ->
  length inputs = length (hd [] wf) /\
  Forall (fun frame => length frame = length wf) inputs /\
  target_rows target = map (fun row => length row - 1) wf.
Proof.
  assert (Htl : forall A (row : list A), length (tl row) = length row - 1).
  { intros A [|a row]; simpl; lia. }
  intros Henc. unfold encode_batch in Henc.
  destruct (str_in (input_type (model (config s))) ["mulaw"; "mulaw-quantize"]).
  - destruct (String.eqb (input_type (model (config s))) "mulaw").
    + inversion Henc; subst inputs target; clear Henc.
      match goal with |- context [time_major ?d ?rows] =>
        destruct (time_major_shape d rows) as [Hl Hf] end.
      split; [|split].
      * now rewrite length_map, Hl, !hd_map_length.
      * rewrite List.Forall_map. eapply List.Forall_impl; [|exact Hf].
        intros frame Hfr. simpl in Hfr. now rewrite length_map, Hfr, !length_map.
      * simpl. rewrite !map_map. apply map_ext. intros row.
        now rewrite !length_map.
    + destruct (F_one_hot _ _) as [hot|e] eqn:Hhot; [|discriminate].
      inversion Henc; subst inputs target; clear Henc.
      unfold F_one_hot in Hhot.
      destruct (forallb _ _); [|discriminate]. inversion Hhot; subst hot; clear Hhot.
      match goal with |- context [time_major ?d ?rows] =>
        destruct (time_major_shape d rows) as [Hl Hf] end.
      split; [|split].
      * eapply eq_trans; [exact Hl|]. now rewrite !hd_map_length.
      * eapply List.Forall_impl; [|exact Hf].
        intros frame Hfr. simpl in Hfr. now rewrite Hfr, !length_map.
      * simpl. rewrite !map_map. apply map_ext. intros row.
        now rewrite !length_map.
  - destruct (String.eqb (input_type (model (config s))) "raw"); [|discriminate].
    inversion Henc; subst inputs target; clear Henc.
    destruct (time_major_shape 0%R wf) as [Hl Hf].
    split; [|split].
    + now rewrite length_map, Hl.
    + rewrite List.Forall_map. eapply List.Forall_impl; [|exact Hf].
      intros frame Hfr. simpl in Hfr. now rewrite length_map, Hfr.
    + simpl. rewrite map_map. apply map_ext. intros row. apply Htl.
Qed.

End Batch.

(** X15, witness: one raw waveform of two samples. *)
Lemma encode_batch_aligned_witness :
  let s := demo_self "raw" "Logistic" true
             (DiscretizedMixturelogisticLoss (demo_config "raw" "Logistic")) in
  exists frame cell,
    nth_error [[[0%R]]; [[1%R]]] 1 = Some frame /\
    nth_error frame 0 = Some cell /\
    target_cell (quantize_channels (model (config s))) (Floats [[1%R]]) 0 0
      = Some cell.
Proof.
  apply (encode_batch_aligned demo_ext
           (demo_self "raw" "Logistic" true
              (DiscretizedMixturelogisticLoss (demo_config "raw" "Logistic")))
           [[0%R; 1%R]] [[[0%R]]; [[1%R]]] (Floats [[1%R]]) 0 0 [0%R; 1%R]).
  - reflexivity.
  - reflexivity.
  - simpl. lia.
  - simpl. lia.
Defined.

(** X16, witness: one raw waveform of two samples. *)
Lemma encode_batch_shapes_witness :
  let s := demo_self "raw" "Logistic" true
             (DiscretizedMixturelogisticLoss (demo_config "raw" "Logistic")) in
  length [[[0%R]]; [[1%R]]] = length (hd [] [[0%R; 1%R]]) /\
  Forall (fun frame : Frame => length frame = length [[0%R; 1%R]]) [[[0%R]]; [[1%R]]] /\
  target_rows (Floats [[1%R]]) = map (fun row => length row - 1) [[0%R; 1%R]].
Proof.
  apply (encode_batch_shapes demo_ext
           (demo_self "raw" "Logistic" true
              (DiscretizedMixturelogisticLoss (demo_config "raw" "Logistic")))
           [[0%R; 1%R]] [[[0%R]]; [[1%R]]] (Floats [[1%R]])).
  reflexivity.
Defined.

(** ** Validation, training and the stopping test *)

Section Reports.

Context (ext : Collaborators).

(** X17. When [validation_losses] returns, its mapping has the single
    entry "nll_loss", and the value of that entry is the loss that
    [train_step] returns for the same batch on the same object. *)
Theorem validation_matches_train_step sp wf (w : World ext) m :
  fst (validation_losses ext sp wf w) = Ok m ->
  exists l,
    m = {[ "nll_loss" := l ]} /\
    m !! "nll_loss" = Some l /\
    fst (train_step ext sp wf w) = Ok (l, ∅).
Proof.
  intros H. unfold validation_losses in H. unfold bind at 1 in H.
  destruct (loss ext sp wf w) as [[l|e] w1] eqn:Hloss; [|discriminate].
  simpl in H. inversion H. exists l. split; [reflexivity|]. split.
  - apply lookup_singleton_eq.
  - now rewrite (train_step_ok ext sp wf w w1 l Hloss).
Qed.

(** X18. The stopping test is monotone in the step counter: an object
    that is done at some global step is done at every later one. *)
Theorem is_done_monotone (s : WaveNet ext) (step step' : nat) :
  is_done step s = true -> step <= step' -> is_done step' s = true.
Proof.
  unfold is_done. intros H Hle.
  apply Nat.leb_le in H. apply Nat.leb_le. lia.
Qed.

End Reports.

(** X6, witness: a training step on one raw waveform of two samples. *)
Lemma train_step_effects_witness :
  let s := demo_self "raw" "Logistic" true
             (DiscretizedMixturelogisticLoss (demo_config "raw" "Logistic")) in
  let w := demo_world s in
  let w' := snd (train_step demo_ext (demo_spectrogram 2) [[0%R; 1%R]] w) in
  fst (train_step demo_ext (demo_spectrogram 2) [[0%R; 1%R]] w) = Ok (0%R, ∅) /\
  trace w' = trace w ++ [EvForward; EvZeroGrad; EvBackward; EvOptimizerStep] /\
  grad (self w') = Some tt.
Proof.
  destruct (train_step_effects demo_ext (demo_spectrogram 2) [[0%R; 1%R]]
              (demo_world (demo_self "raw" "Logistic" true
                 (DiscretizedMixturelogisticLoss (demo_config "raw" "Logistic")))))
    as [_ H].
  destruct (H 0%R) as (H1 & H2 & H3 & _).
  - lazy. reflexivity.
  - split; [exact H1|]. split; [exact H2|exact H3].
Defined.

(** X17, witness: validation on one raw waveform of two samples. *)
Lemma validation_matches_train_step_witness :
  let s := demo_self "raw" "Logistic" true
             (DiscretizedMixturelogisticLoss (demo_config "raw" "Logistic")) in
  exists l,
    ({[ "nll_loss" := 0%R ]} : gmap string R) = {[ "nll_loss" := l ]} /\
    ({[ "nll_loss" := 0%R ]} : gmap string R) !! "nll_loss" = Some l /\
    fst (train_step demo_ext (demo_spectrogram 2) [[0%R; 1%R]] (demo_world s))
      = Ok (l, ∅).
Proof.
  apply (validation_matches_train_step demo_ext (demo_spectrogram 2) [[0%R; 1%R]]
           (demo_world (demo_self "raw" "Logistic" true
              (DiscretizedMixturelogisticLoss (demo_config "raw" "Logistic"))))).
  unfold validation_losses. unfold bind at 1.
  assert (Hl : loss demo_ext (demo_spectrogram 2) [[0%R; 1%R]]
                 (demo_world (demo_self "raw" "Logistic" true
                    (DiscretizedMixturelogisticLoss (demo_config "raw" "Logistic"))))
               = (Ok 0%R,
                  snd (loss demo_ext (demo_spectrogram 2) [[0%R; 1%R]]
                     (demo_world (demo_self "raw" "Logistic" true
                        (DiscretizedMixturelogisticLoss
                           (demo_config "raw" "Logistic"))))))).
  { lazy. reflexivity. }
  rewrite Hl. reflexivity.
Defined.

(** X18, witness: the demonstration object, done at its last step. *)
Lemma is_done_monotone_witness :
  is_done (S (n_iterations (demo_model "raw" "Logistic")))
    (demo_self "raw" "Logistic" true
       (DiscretizedMixturelogisticLoss (demo_config "raw" "Logistic"))) = true.
Proof.
  apply (is_done_monotone demo_ext _ (n_iterations (demo_model "raw" "Logistic"))).
  - apply Nat.leb_refl.
  - lia.
Defined.

(** * Objects built by the constructor and then used *)

Section Setup.

Context (ext : Collaborators).

Lemma same_setup_refl (s : WaveNet ext) : same_setup s s.
Proof. repeat split. Qed.

Lemma same_setup_trans (s1 s2 s3 : WaveNet ext) :
  same_setup s1 s2 -> same_setup s2 s3 -> same_setup s1 s3.
Proof.
  intros (A1 & A2 & A3 & A4 & A5) (B1 & B2 & B3 & B4 & B5).
  repeat split; congruence.
Qed.

Lemma same_object_setup (s s' : WaveNet ext) : same_object s s' -> same_setup s s'.
Proof. intros (A1 & A2 & _ & _ & A3 & A4 & A5). repeat split; assumption. Qed.

Lemma same_setup_self (s s' : WaveNet ext) : s' = s -> same_setup s s'.
Proof. intros ->. apply same_setup_refl. Qed.

Lemma loss_self sp wf (w : World ext) : self (snd (loss ext sp wf w)) = self w.
Proof. destruct (loss_world ext sp wf w) as [H | H]; now rewrite H. Qed.

Lemma train_step_setup sp wf (w : World ext) :
  same_setup (self w) (self (snd (train_step ext sp wf w))).
Proof.
  destruct (loss ext sp wf w) as [[l|e] w1] eqn:Hloss.
  - rewrite (train_step_ok ext sp wf w w1 l Hloss).
    apply loss_ok_world in Hloss. subst w1. simpl.
    destruct (optimizer_step ext _ _ _) as [o n]. repeat split.
  - rewrite (train_step_raise ext sp wf w w1 e Hloss).
    pose proof (loss_self sp wf w) as Hs. rewrite Hloss in Hs. simpl in Hs.
    now apply same_setup_self.
Qed.

Lemma generate_setup sp tr (w : World ext) :
  same_setup (self w) (self (snd (generate ext sp tr w))).
Proof.
  apply same_object_setup. rewrite generate_unfold.
  destruct (generate_loop ext w sp tr) as [r w2] eqn:Hloop.
  apply generate_loop_all in Hloop. destruct Hloop as (Hs & _).
  destruct r as [[x output]|e]; [|exact Hs].
  destruct (stack_transpose output) as [o1|e]; [|exact Hs].
  destruct (decode (self w2) o1) as [o2|e]; [|exact Hs].
  simpl. eapply same_object_trans; [exact Hs|apply same_object_set_module].
Qed.

(** No method assigns the configuration, the scalar-input flag, the
    transforms or the criterion. *)
Lemma in_use_setup (s0 : WaveNet ext) (w : World ext) :
  in_use s0 w -> same_setup s0 (self w).
Proof.
  induction 1 as [r tr | sp wf w Hw IH | sp wf w Hw IH | sp wf w Hw IH
                  | sp tr w Hw IH | distrib y hist B softmax quantize w Hw IH].
  - apply same_setup_refl.
  - now rewrite loss_self.
  - now rewrite validation_world, loss_self.
  - eapply same_setup_trans; [exact IH|apply train_step_setup].
  - eapply same_setup_trans; [exact IH|apply generate_setup].
  - destruct (get_x_from_dist ext distrib y hist B softmax quantize w)
      as [r w'] eqn:Hrun.
    apply get_x_from_dist_world in Hrun. simpl. now rewrite (proj1 Hrun).
Qed.

(** X5. No method of the class assigns the configuration, the
    scalar-input flag, the two transforms or the criterion: on an object in
    use they are those of the object as built, whatever calls of [loss],
    [validation_losses], [train_step], [generate] and [get_x_from_dist]
    were made and whether they returned or raised; so the stopping test
    keeps answering from the iteration budget of that configuration. *)
Theorem setup_invariant (s0 : WaveNet ext) (w : World ext) :
  in_use s0 w ->
  same_setup s0 (self w) /\
  forall step, is_done step (self w) = is_done step s0.
Proof.
  intros Huse. pose proof (in_use_setup s0 w Huse) as Hs.
  split; [exact Hs|]. intros step. unfold is_done.
  destruct Hs as (Hcfg & _). now rewrite Hcfg.
Qed.

Lemma built_dist_ok (cfg : Config) (s0 : WaveNet ext) (w : World ext) :
  (forall s, is_scalar_input ext s = Ok true -> is_mulaw_quantize ext s = Ok false) ->
  __init__ ext cfg = Ok s0 -> in_use s0 w -> dist_ok (self w).
Proof.
  intros Hhelp Hinit Huse.
  destruct (in_use_setup s0 w Huse) as (Hcfg & Hsc & _).
  destruct (init_ok_cases ext cfg s0 Hinit) as (Hc0 & Hs0 & Hcrit).
  unfold dist_ok. rewrite Hcfg, Hsc, Hc0. intros Hscalar.
  rewrite Hscalar in Hs0. apply Hhelp in Hs0.
  destruct Hcrit as [[Hmq _] | [_ [[Hd _] | [Hd _]]]];
    [congruence | now left | now right].
Qed.

Lemma generate_returns sp tr (w : World ext) :
  conv_layers (module (self w)) <> [] ->
  dist_ok (self w) ->
  str_in (input_type (model (config (self w)))) ["mulaw"; "mulaw-quantize"; "raw"] = true ->
  loop_len w sp tr <= size_last (upsample_net (module (self w)) sp) ->
  0 < loop_len w sp tr ->
  exists out w',
    generate ext sp tr w = (Ok out, w') /\
    trace w' = trace w ++ [EvEval; EvClearBuffer]
                 ++ map EvTimestep (seq 0 (loop_len w sp tr))
                 ++ [EvClearBuffer; EvTrain].
Proof.
  intros Hne Hd Hit Hlen Hpos.
  destruct (generate_loop_ok ext (fun n => conv_layers n <> []) (fun _ => True)
              w sp tr nonempty_invariant (begin_generate_nonempty ext w Hne) Hd Hlen)
    as (x' & samples & w2 & Hloop & Hl & Htr & Hsame & _).
  assert (Hsne : samples <> []).
  { destruct samples; [simpl in Hl; lia|discriminate]. }
  destruct (stack_transpose_ok samples Hsne) as (first & rest & _ & Hst).
  destruct Hsame as (Hcfg & _).
  assert (Hdec : exists wave,
            decode (self w2)
              (map (fun b => map (fun frame => nth b frame []) samples)
                   (seq 0 (length first))) = Ok wave).
  { destruct (decode_cases ext (self w2)
                (map (fun b => map (fun frame => nth b frame []) samples)
                     (seq 0 (length first))))
      as [[_ H] | [_ [g H]]]; [now rewrite Hcfg| |]; eexists; exact H. }
  destruct Hdec as [wave Hdec].
  exists (flatten wave), (end_generate w2).
  split; [now rewrite generate_unfold, Hloop, Hst, Hdec|].
  simpl. rewrite Htr, <- !app_assoc. reflexivity.
Qed.

(** ** Unsupported distribution families *)

(** C2, as the code has it.  With helpers for which a scalar input type is
    not the quantized one, and a configuration whose [output_distribution]
    is neither "Logistic" nor "Normal", once the calls of the constructor
    before line 127 have returned: when the input type is not the
    quantized one the constructor raises the configuration error; when it
    is the quantized one the constructor raises nothing and builds the
    object with the cross-entropy criterion, the distribution name unread.
    And for every configuration: on an object the constructor has built,
    as built or after any sequence of calls of its methods, no call to
    [generate] raises the sampler's [AssertionError], the only error
    raised for the distribution family from inside the timestep loop. *)
Theorem distribution_error_before_loop (cfg : Config) :
  (forall s, is_scalar_input ext s = Ok true -> is_mulaw_quantize ext s = Ok false) ->
  output_distribution (model cfg) <> "Logistic" ->
  output_distribution (model cfg) <> "Normal" ->
  (forall scalar net opt,
     Vocoder_init ext cfg = Ok tt ->
     is_scalar_input ext (input_type (model cfg)) = Ok scalar ->
     wavenet_WaveNet ext (model cfg) scalar = Ok net ->
     Adam ext net (learning_rate (model cfg)) = Ok opt ->
     (is_mulaw_quantize ext (input_type (model cfg)) = Ok false ->
      __init__ ext cfg =
        Raise (RuntimeError ("Not supported output distribution type: "
                             ++ output_distribution (model cfg)))) /\
     (is_mulaw_quantize ext (input_type (model cfg)) = Ok true ->
      __init__ ext cfg =
        Ok (Build_WaveNet ext cfg scalar net opt None
              (quantize_channels (model cfg)) (quantize_channels (model cfg))
              CrossEntropyLoss))) /\
  (forall cfg' s0 (w w' : World ext) sp tr,
     __init__ ext cfg' = Ok s0 -> in_use s0 w ->
     generate ext sp tr w <> (Raise AssertionError, w')).
Proof.
  intros Hhelp HL HN. split.
  - intros scalar net opt Hv Hsc Hnet Hopt. unfold __init__.
    rewrite Hv, Hsc, Hnet, Hopt. split; intros Hmq; rewrite Hmq; [|reflexivity].
    destruct (String.eqb (output_distribution (model cfg)) "Logistic") eqn:E1.
    { apply String.eqb_eq in E1. contradiction. }
    destruct (String.eqb (output_distribution (model cfg)) "Normal") eqn:E2.
    { apply String.eqb_eq in E2. contradiction. }
    reflexivity.
  - intros cfg' s0 w w' sp tr Hinit Huse.
    apply generate_no_assertion. exact (built_dist_ok cfg' s0 w Hhelp Hinit Huse).
Qed.

(** ** The loss computation *)

Lemma shifted_target_rows (s : WaveNet ext) (wf : list (list R)) (T : nat) :
  Forall (fun row => length row = T) wf ->
  target_rows (shifted_target s wf) = map (fun _ => T - 1) wf.
Proof.
  intros Hrows. unfold shifted_target.
  assert (Hsh : forall row, In row wf -> length (shifted row) = T - 1).
  { intros row Hin. rewrite List.Forall_forall in Hrows.
    unfold shifted. now rewrite length_map, length_seq, (Hrows row Hin). }
  destruct (String.eqb _ "mulaw-quantize"); [|destruct (String.eqb _ "mulaw")];
    simpl; rewrite map_map; apply map_ext_in; intros row Hin;
    rewrite ?length_map; now apply Hsh.
Qed.

Lemma encode_batch_frames (s : WaveNet ext) (wf : list (list R)) inputs target :
  encode_batch s wf = Ok (inputs, target) ->
  length inputs = length (hd [] wf).
Proof.
  intros Henc. unfold encode_batch in Henc.
  destruct (str_in (input_type (model (config s))) ["mulaw"; "mulaw-quantize"]).
  - destruct (String.eqb (input_type (model (config s))) "mulaw").
    + inversion Henc; subst inputs target.
      now rewrite length_map, (proj1 (time_major_shape _ _)), !hd_map_length.
    + destruct (F_one_hot _ _) as [hot|e] eqn:Hhot; [|discriminate].
      inversion Henc; subst inputs target. unfold F_one_hot in Hhot.
      destruct (forallb _ _); [|discriminate]. inversion Hhot; subst hot.
      eapply eq_trans; [apply (proj1 (time_major_shape _ _))|].
      now rewrite !hd_map_length.
  - destruct (String.eqb (input_type (model (config s))) "raw"); [|discriminate].
    inversion Henc; subst inputs target.
    now rewrite length_map, (proj1 (time_major_shape _ _)).
Qed.

(** C5. For an object built by the constructor for a supported input
    type, as built or after any sequence of calls of its methods, with at
    least one block, and every non-empty batch of waveforms of [T] samples
    each with a conditioning of upsampled length [T] (amplitudes in
    [-1, 1] and more than one class where the encoding is the quantized
    one): the target holds, for every position [t] of its [T - 1]
    positions, waveform sample [t + 1] in the configured representation;
    the parallel pass yields [T] output timesteps; and the scalar returned
    is the cross-entropy when [is_mulaw_quantize] accepts the input type,
    otherwise the negative log-likelihood of the configured mixture family,
    of the first [T - 1] output timesteps and that target. *)
Theorem loss_shifted_criterion (cfg : Config) (s0 : WaveNet ext) (w : World ext)
    sp wf (T : nat) :
  __init__ ext cfg = Ok s0 ->
  in_use s0 w ->
  str_in (input_type (model cfg)) ["mulaw"; "mulaw-quantize"; "raw"] = true ->
  conv_layers (module (self w)) <> [] ->
  wf <> [] ->
  Forall (fun row => length row = T) wf ->
  size_last (upsample_net (module (self w)) sp) = T ->
  (input_type (model cfg) = "mulaw-quantize" ->
   (1 < quantize_channels (model cfg))%Z /\
   Forall (Forall (fun v => (-1 <= v <= 1)%R)) wf) ->
  exists inputs output,
    encode_batch (self w) wf = Ok (inputs, shifted_target (self w) wf) /\
    target_rows (shifted_target (self w) wf) = map (fun _ => T - 1) wf /\
    forward (module (self w)) inputs sp = Ok output /\
    length output = T /\
    removelast output = firstn (T - 1) output /\
    length (removelast output) = T - 1 /\
    ((is_mulaw_quantize ext (input_type (model cfg)) = Ok true /\
      fst (loss ext sp wf w) =
        Ok (cross_entropy ext (removelast output) (shifted_target (self w) wf))) \/
     (is_mulaw_quantize ext (input_type (model cfg)) = Ok false /\
      output_distribution (model cfg) = "Logistic" /\
      fst (loss ext sp wf w) =
        Ok (discretized_mix_logistic_loss ext cfg (removelast output)
              (shifted_target (self w) wf))) \/
     (is_mulaw_quantize ext (input_type (model cfg)) = Ok false /\
      output_distribution (model cfg) = "Normal" /\
      fst (loss ext sp wf w) =
        Ok (mix_gaussian_loss ext cfg (removelast output)
              (shifted_target (self w) wf)))).
Proof.
  intros Hinit Huse Hit Hne Hwf Hrows Hcond Hq.
  destruct (init_fields ext cfg s0 Hinit) as [Hcomp _].
  destruct (init_ok_cases ext cfg s0 Hinit) as (Hcfg0 & _ & Hcrit).
  destruct (in_use_setup s0 w Huse) as (Hcfg & _ & Hcomp' & _ & Hcrit').
  assert (Hc : config (self w) = cfg) by congruence.
  destruct (encode_batch_supported ext (self w) wf) as [inputs Henc].
  { now rewrite Hc. }
  { rewrite Hc. intros H. destruct (Hq H) as [H1 H2]. repeat split; try assumption.
    congruence. }
  assert (Hin : length inputs = T).
  { rewrite (encode_batch_frames _ _ _ _ Henc).
    destruct wf as [|row rest]; [contradiction|]. now inversion Hrows. }
  destruct (forward_lengths (module (self w)) inputs sp Hne) as (output & Hf & Hout).
  { now rewrite Hin, Hcond. }
  rewrite Hin in Hout.
  exists inputs, output. split; [exact Henc|].
  split; [now apply shifted_target_rows|]. split; [exact Hf|].
  split; [exact Hout|].
  assert (Hrl : removelast output = firstn (T - 1) output).
  { rewrite removelast_firstn_len, Hout. f_equal. lia. }
  split; [exact Hrl|].
  split; [rewrite Hrl, length_firstn, Hout; lia|].
  rewrite (loss_result ext sp wf w inputs _ output Henc Hf). simpl.
  rewrite Hcrit'.
  destruct Hcrit as [[Hmq ->] | [Hmq [[Hd ->] | [Hd ->]]]]; simpl.
  - left. now split.
  - right. left. now repeat split.
  - right. right. now repeat split.
Qed.

End Setup.

(** C2, witness: the raw encoding with the unknown family "Bar" is
    refused by the constructor; an object built for a supported family
    and then trained does not raise the sampler's error. *)
Lemma distribution_error_before_loop_witness :
  let s0 := demo_self "raw" "Logistic" true
              (DiscretizedMixturelogisticLoss (demo_config "raw" "Logistic")) in
  __init__ demo_ext (demo_config "raw" "Bar")
    = Raise (RuntimeError "Not supported output distribution type: Bar") /\
  forall w',
    generate demo_ext (demo_spectrogram 2) false
      (snd (train_step demo_ext (demo_spectrogram 2) [[0%R; 1%R]] (demo_world s0)))
    <> (Raise AssertionError, w').
Proof.
  destruct (distribution_error_before_loop demo_ext (demo_config "raw" "Bar"))
    as [Hinit Hgen].
  - exact util_helpers_exclusive.
  - simpl. discriminate.
  - simpl. discriminate.
  - split.
    + destruct (Hinit true demo_net tt eq_refl eq_refl eq_refl eq_refl)
        as [Hraise _].
      apply Hraise. reflexivity.
    + intros w'.
      apply (Hgen (demo_config "raw" "Logistic")
               (demo_self "raw" "Logistic" true
                  (DiscretizedMixturelogisticLoss (demo_config "raw" "Logistic")))).
      * reflexivity.
      * apply use_train_step. exact (use_new demo_ext _ 0 []).
Defined.

(** C2, counterexample: the quantized encoding with the unknown family
    "Bar".  The constructor raises nothing and builds the object, and a
    call of [generate] on two conditioning frames runs to its end: the
    unsupported family is never reported. *)
Lemma unknown_family_accepted :
  let cfg := demo_config "mulaw-quantize" "Bar" in
  let s0 := demo_self "mulaw-quantize" "Bar" false CrossEntropyLoss in
  output_distribution (model cfg) <> "Logistic" /\
  output_distribution (model cfg) <> "Normal" /\
  __init__ demo_ext cfg = Ok s0 /\
  exists out w',
    generate demo_ext (demo_spectrogram 2) false (demo_world s0) = (Ok out, w') /\
    trace w' = [EvEval; EvClearBuffer; EvTimestep 0; EvTimestep 1;
                EvClearBuffer; EvTrain].
Proof.
  split; [simpl; discriminate|]. split; [simpl; discriminate|].
  split; [reflexivity|].
  apply (generate_returns demo_ext (demo_spectrogram 2) false
           (demo_world (demo_self "mulaw-quantize" "Bar" false CrossEntropyLoss))).
  - simpl. discriminate.
  - unfold dist_ok. simpl. discriminate.
  - reflexivity.
  - simpl. lia.
  - simpl. lia.
Qed.

(** C5, witness: an object built for raw amplitudes and trained once; a
    batch of one waveform of three samples.  The mixture criterion, which
    here reports 10 plus the number of output timesteps it is given, is
    evaluated on two timesteps. *)
Lemma loss_shifted_criterion_witness :
  let w := snd (train_step counting_ext (demo_spectrogram 3) [[0%R; 1%R; 0%R]]
                  (Build_World counting_ext counting_self 0 [])) in
  shifted_target (self w) [[0%R; 1%R; 0%R]] = Floats [[1%R; 0%R]] /\
  fst (loss counting_ext (demo_spectrogram 3) [[0%R; 1%R; 0%R]] w)
    = Ok (10 + INR 2)%R.
Proof.
  split; [reflexivity|].
  destruct (loss_shifted_criterion counting_ext (demo_config "raw" "Logistic")
              counting_self
              (snd (train_step counting_ext (demo_spectrogram 3) [[0%R; 1%R; 0%R]]
                      (Build_World counting_ext counting_self 0 [])))
              (demo_spectrogram 3) [[0%R; 1%R; 0%R]] 3)
    as (inputs & output & _ & _ & _ & _ & _ & Hlen & Hcrit).
  - reflexivity.
  - apply use_train_step. exact (use_new counting_ext _ 0 []).
  - reflexivity.
  - lazy. discriminate.
  - discriminate.
  - repeat constructor.
  - lazy. reflexivity.
  - simpl. intros H. discriminate H.
  - destruct Hcrit as [[Hmq _] | [(_ & _ & Hl) | (_ & Hd & _)]].
    + simpl in Hmq. discriminate Hmq.
    + rewrite Hl. simpl. rewrite Hlen. reflexivity.
    + simpl in Hd. discriminate Hd.
Defined.

(** X5, witness: an object trained once and then asked for a waveform it
    cannot finish. *)
Lemma setup_invariant_witness :
  let s0 := demo_self "raw" "Logistic" true
              (DiscretizedMixturelogisticLoss (demo_config "raw" "Logistic")) in
  let w := snd (generate demo_ext (demo_spectrogram 1) true
             (snd (train_step demo_ext (demo_spectrogram 2) [[0%R; 1%R]]
                     (demo_world s0)))) in
  same_setup s0 (self w) /\
  forall step, is_done step (self w) = is_done step s0.
Proof.
  apply (setup_invariant demo_ext).
  apply use_generate. apply use_train_step. exact (use_new demo_ext _ 0 []).
Defined.
